(** * derrors: the segment trie and the immutable status mapper

    A shallow embedding of
      - [mapper/internal/segmenttrie/trie.go] (package [segmenttrie]) and
      - the [mapper] package ([New], [HTTPStatus], [GRPCStatus], [Explain],
        the builder and its options)
    together with the properties of longest-prefix matching, rule
    precedence and build-time validation.

    Conventions.
      - A Go [string] is a sequence of bytes: [string] (a list of [ascii]).
      - A Go [map[K]V] is a [gmap K V]; lookups in a nil map behave like
        lookups in the empty map.
      - A pointer receiver [*Trie[T]] that may be nil is an [option (Trie T)].
      - Go's [int] holds depths and statuses that stay far from the 64-bit
        range; they are [Z].  Byte offsets into the reason are [nat]. *)

From Stdlib Require Import ZArith String Ascii List Bool Lia DecimalString.
From stdpp Require Import gmap strings list fin_maps.

Local Open Scope string_scope.
Local Open Scope Z_scope.

(** ** Bytes and strings *)

Module Bytes.

Definition byte_le (a b : ascii) : bool := (nat_of_ascii a <=? nat_of_ascii b)%nat.

(** [c >= 'a' && c <= 'z'] *)
Definition isLower (c : ascii) : bool := byte_le "a" c && byte_le c "z".

(** [c >= '0' && c <= '9'] *)
Definition isDigit (c : ascii) : bool := byte_le "0" c && byte_le c "9".

(** [(c >= 'a' && c <= 'z') || (c >= '0' && c <= '9') || c == '_'] *)
Definition isSegChar (c : ascii) : bool := isLower c || isDigit c || Ascii.eqb c "_".

Definition isDot (c : ascii) : bool := Ascii.eqb c ".".

(** [s[n:]] *)
Fixpoint drop (n : nat) (s : string) : string :=
  match n, s with
  | O, _ => s
  | S n', String _ s' => drop n' s'
  | S _, EmptyString => EmptyString
  end.

(** [strings.Split(s, ".")]: the pieces of [s] between dots; the empty string
    gives one empty piece. *)
Fixpoint Split (s : string) : list string :=
  match s with
  | EmptyString => [EmptyString]
  | String c s' =>
      if isDot c then EmptyString :: Split s'
      else match Split s' with
           | h :: t => String c h :: t
           | [] => [String c EmptyString]
           end
  end.

(** [strings.Join(segs, ".")] *)
Definition Join (segs : list string) : string := String.concat "." segs.

End Bytes.
Import Bytes.

(** ** Package segmenttrie *)

Module segmenttrie.

(** [type Trie[T any] struct { children; hasVal; val; pattern }] *)
#[warnings="-register-all"]
Inductive Trie (T : Type) : Type :=
  mkTrie {
    children : gmap string (Trie T);
    hasVal : bool;
    val : T;
    pattern : string
  }.
Arguments mkTrie {T}.
Arguments children {T}.
Arguments hasVal {T}.
Arguments val {T}.
Arguments pattern {T}.

(** [ErrInvalidPrefix], the only error of the package. *)
Inductive error : Type := ErrInvalidPrefix.

Section Generic.
Context {T : Type}.
(** The zero value of [T] ([var zero T]). *)
Variable zero : T.

(** [New]: an empty trie ready for inserts. *)
Definition New : Trie T := mkTrie ∅ false zero "".

(** [validSegment]: non-empty; ["*"] when wildcards are allowed; otherwise
    [[a-z][a-z0-9_]*]. *)
Definition validSegment (seg : string) (allowWildcard : bool) : bool :=
  match seg with
  | EmptyString => false
  | String c rest =>
      if allowWildcard && String.eqb seg "*" then true
      else if negb (isLower c) then false
      else forallb isSegChar (list_ascii_of_string rest)
  end.

(** [splitAndValidate]: [None] is the source's [(nil, false)]. *)
Definition splitAndValidate (s : string) (allowWildcard : bool) : option (list string) :=
  if String.eqb s "" then Some []
  else
    let segs := Split s in
    if forallb (fun seg => validSegment seg allowWildcard) segs then Some segs else None.

(** The loop of [Insert] that walks and creates the path of nodes, then marks
    the terminal node.  [prefix] is the text handed to [Insert]. *)
Fixpoint insertAt (segs : list string) (prefix : string) (v : T) (cur : Trie T) : Trie T :=
  match segs with
  | [] =>
      mkTrie (children cur) true v
             (if String.eqb (pattern cur) "" then prefix else pattern cur)
  | s :: segs' =>
      let child := match children cur !! s with
                   | Some child => child
                   | None => New
                   end in
      mkTrie (<[s := insertAt segs' prefix v child]> (children cur))
             (hasVal cur) (val cur) (pattern cur)
  end.

(** [Insert]: the receiver is updated in place in the source; here the updated
    trie is returned.  On an error the receiver is untouched. *)
Definition Insert (t : option (Trie T)) (prefix : string) (v : T) : Trie T + error :=
  match t with
  | None => inr ErrInvalidPrefix
  | Some t =>
      match splitAndValidate prefix true with
      | None => inr ErrInvalidPrefix
      | Some segs =>
          if (length segs =? 0)%nat then inr ErrInvalidPrefix
          else if forallb (fun s => String.eqb s "*") segs then inr ErrInvalidPrefix
          else inl (insertAt segs prefix v t)
      end
  end.

(** The captured variables [bestDepth] and [bestVal] that the closure [dfs] of
    [Match] updates. *)
Record best : Type := mkBest { bestDepth : Z; bestVal : T }.

(** [if n.hasVal && depth > bestDepth { bestDepth = depth; bestVal = n.val }] *)
Definition visit (n : Trie T) (depth : Z) (st : best) : best :=
  if hasVal n && (bestDepth st <? depth) then mkBest depth (val n) else st.

(** The inner [for i < len(reason)] loop: [rest] is [reason[i:]]. *)
Fixpoint scanLoop (rest : string) (i : nat) : option nat :=
  match rest with
  | EmptyString => Some i
  | String c rest' =>
      if isDot c then Some i
      else if negb (isSegChar c) then None
      else scanLoop rest' (S i)
  end.

(** Parsing of the segment that starts at [off < len(reason)]: the offset [i]
    just after it, or [None] where the source returns early. *)
Definition scanSegment (reason : string) (off : nat) : option nat :=
  match String.get off reason with
  | None => None
  | Some c =>
      if negb (isLower c) then None
      else scanLoop (drop (S off) reason) (S off)
  end.

(** [nextOff := i; if nextOff < len(reason) && reason[nextOff] == '.' { nextOff++ }] *)
Definition skipDot (reason : string) (i : nat) : nat :=
  match String.get i reason with
  | Some c => if isDot c then S i else i
  | None => i
  end.

(** The closure [dfs] of [Match].  Each call consumes at least one byte of the
    reason, so [S (len(reason) - off)] steps of [fuel] are enough
    (lemma [dfs_fuel]). *)
Fixpoint dfs (fuel : nat) (reason : string) (n : Trie T) (off : nat) (depth : Z)
    (st : best) : best :=
  match fuel with
  | O => st
  | S fuel' =>
      let st := visit n depth st in
      if (String.length reason <=? off)%nat then st
      else
        match scanSegment reason off with
        | None => st
        | Some i =>
            let seg := substring off (i - off) reason in
            let st :=
              match children n !! seg with
              | Some next => dfs fuel' reason next (skipDot reason i) (depth + 1) st
              | None => st
              end in
            match children n !! "*" with
            | Some next => dfs fuel' reason next (skipDot reason i) (depth + 1) st
            | None => st
            end
        end
  end.

(** [Match] *)
Definition Match (t : option (Trie T)) (reason : string) : T * bool :=
  match t with
  | None => (zero, false)
  | Some t =>
      let st := dfs (S (String.length reason)) reason t 0 0 (mkBest (-1) zero) in
      if bestDepth st <? 0 then (zero, false) else (bestVal st, true)
  end.

(** The captured variables of [MatchWithPattern]: [bestDepth], [bestVal] and
    [bestPat]. *)
Record bestP : Type := mkBestP { pDepth : Z; pVal : T; pPat : string }.

Definition visitP (n : Trie T) (depth : Z) (st : bestP) : bestP :=
  if hasVal n && (pDepth st <? depth) then mkBestP depth (val n) (pattern n) else st.

(** The closure [dfs] of [MatchWithPattern]: the same traversal, keeping the
    pattern of the best node as well. *)
Fixpoint dfsP (fuel : nat) (reason : string) (n : Trie T) (off : nat) (depth : Z)
    (st : bestP) : bestP :=
  match fuel with
  | O => st
  | S fuel' =>
      let st := visitP n depth st in
      if (String.length reason <=? off)%nat then st
      else
        match scanSegment reason off with
        | None => st
        | Some i =>
            let seg := substring off (i - off) reason in
            let nextOff := skipDot reason i in
            let st :=
              match children n !! seg with
              | Some next => dfsP fuel' reason next nextOff (depth + 1) st
              | None => st
              end in
            match children n !! "*" with
            | Some next => dfsP fuel' reason next nextOff (depth + 1) st
            | None => st
            end
        end
  end.

(** [MatchWithPattern] *)
Definition MatchWithPattern (t : option (Trie T)) (reason : string) : T * bool * string :=
  match t with
  | None => (zero, false, "")
  | Some t =>
      let st := dfsP (S (String.length reason)) reason t 0 0 (mkBestP (-1) zero "") in
      if pDepth st <? 0 then (zero, false, "") else (pVal st, true, pPat st)
  end.

End Generic.

Arguments best : clear implicits.
Arguments bestP : clear implicits.

End segmenttrie.

(** ** The collaborators at the boundary of the mapper *)

(** What the mapper takes from Go's standard library and from grpc's [codes]
    package, none of which belongs to this repository. *)
Class Runtime : Type := {
  strings_TrimSpace : string -> string;
  strings_ToLower : string -> string;
  strings_ToUpper : string -> string;
  (** the verbs [%q] and [%d] of package [fmt] *)
  fmt_q : string -> string;
  fmt_d : Z -> string;
  (** [codes.Code.String] *)
  codes_String : Z -> string
}.

(** Package [code]: [type Code string] and the well-known codes. *)
Module code.
Abbreviation Code := string.
Definition Internal : Code := "internal".
Definition Invalid : Code := "invalid".
Definition Missing : Code := "missing".
Definition Unsupported : Code := "unsupported".
Definition Unavailable : Code := "unavailable".
Definition Timeout : Code := "timeout".
Definition Canceled : Code := "canceled".
Definition DependencyFailed : Code := "dependency_failed".
Definition NotReady : Code := "not_ready".
Definition Draining : Code := "draining".
Definition Overloaded : Code := "overloaded".
Definition Throttled : Code := "throttled".
Definition NotFound : Code := "not_found".
Definition AlreadyExists : Code := "already_exists".
Definition Conflict : Code := "conflict".
Definition PreconditionFailed : Code := "precondition_failed".
Definition Gone : Code := "gone".
Definition StaleVersion : Code := "stale_version".
Definition DeprecationRejected : Code := "deprecation_rejected".
Definition Unauthenticated : Code := "unauthenticated".
Definition InvalidCredentials : Code := "invalid_credentials".
Definition PermissionDenied : Code := "permission_denied".
Definition TokenInvalid : Code := "token_invalid".
Definition TokenExpired : Code := "token_expired".
Definition TokenRevoked : Code := "token_revoked".
Definition SessionExpired : Code := "session_expired".
Definition Expired : Code := "expired".
Definition TooEarly : Code := "too_early".
Definition RateLimited : Code := "rate_limited".
Definition QuotaExceeded : Code := "quota_exceeded".
End code.

(** The status constants of [net/http] that the default table uses. *)
Module http.
Definition StatusBadRequest : Z := 400.
Definition StatusUnauthorized : Z := 401.
Definition StatusForbidden : Z := 403.
Definition StatusNotFound : Z := 404.
Definition StatusRequestTimeout : Z := 408.
Definition StatusConflict : Z := 409.
Definition StatusGone : Z := 410.
Definition StatusPreconditionFailed : Z := 412.
Definition StatusTooEarly : Z := 425.
Definition StatusTooManyRequests : Z := 429.
Definition StatusInternalServerError : Z := 500.
Definition StatusBadGateway : Z := 502.
Definition StatusServiceUnavailable : Z := 503.
Definition StatusGatewayTimeout : Z := 504.
End http.

(** grpc's [codes.Code], a [uint32]. *)
Module codes.
Abbreviation Code := Z.
Definition Canceled : Code := 1.
Definition InvalidArgument : Code := 3.
Definition DeadlineExceeded : Code := 4.
Definition NotFound : Code := 5.
Definition AlreadyExists : Code := 6.
Definition PermissionDenied : Code := 7.
Definition ResourceExhausted : Code := 8.
Definition FailedPrecondition : Code := 9.
Definition Aborted : Code := 10.
Definition Internal : Code := 13.
Definition Unavailable : Code := 14.
Definition Unauthenticated : Code := 16.
(** The conversion [codes.Code(v)] of an [int]: the low 32 bits. *)
Definition ofInt (v : Z) : Code := v mod 2 ^ 32.
End codes.

(** Package [reason]: [type Reason string] and [Normalize]. *)
Module reason.
Abbreviation Reason := string.
Definition Empty : Reason := "".

(** [strings.ReplaceAll(s, old, new)] for single bytes [old] and [new]. *)
Fixpoint ReplaceAll (s : string) (old new : ascii) : string :=
  match s with
  | EmptyString => EmptyString
  | String c s' => String (if Ascii.eqb c old then new else c) (ReplaceAll s' old new)
  end.

Definition Normalize `{Runtime} (s : string) : string :=
  let s := strings_TrimSpace s in
  if String.eqb s "" then ""
  else
    let s := strings_ToLower s in
    let s := ReplaceAll s "/" "." in
    let s := ReplaceAll s "-" "_" in
    s.

(** [MinLength], [MaxLength] *)
Definition MinLength : nat := 3%nat.
Definition MaxLength : nat := 128%nat.

(** [ErrReasonInvalidFormat], [ErrReasonInvalidLength] *)
Inductive error : Type := ErrReasonInvalidFormat | ErrReasonInvalidLength.

(** [reasonRe.MatchString] for the expression [reasonFmt]: anchored at both
    ends, a segment (a lowercase letter, then letters, digits and
    underscores), then at most three times a dot and another segment.  After
    a segment only a dot or the end of the text can follow, and neither is a
    byte of a segment, so the longest run of segment bytes is the only way
    the star can match. *)
Fixpoint skipSegChars (s : string) : string :=
  match s with
  | String c s' => if isSegChar c then skipSegChars s' else s
  | EmptyString => EmptyString
  end.

(** One segment at the head of [s]: what follows it. *)
Definition segmentAt (s : string) : option string :=
  match s with
  | String c s' => if isLower c then Some (skipSegChars s') else None
  | EmptyString => None
  end.

(** At most [n] times a dot and a segment, then the end of the text. *)
Fixpoint moreSegments (n : nat) (s : string) : bool :=
  match s with
  | EmptyString => true
  | String c s' =>
      match n with
      | O => false
      | S n' =>
          isDot c &&
          match segmentAt s' with
          | Some rest => moreSegments n' rest
          | None => false
          end
      end
  end.

Definition reasonRe_MatchString (s : string) : bool :=
  match segmentAt s with
  | Some rest => moreSegments 3 rest
  | None => false
  end.

(** [validate]: [None] is the nil error. *)
Definition validate (s : string) : option error :=
  if (String.length s <? MinLength)%nat || (MaxLength <? String.length s)%nat
  then Some ErrReasonInvalidLength
  else if negb (reasonRe_MatchString s) then Some ErrReasonInvalidFormat
  else None.

(** [Parse]; with an error the source returns [Empty] beside it. *)
Definition Parse `{Runtime} (s : string) : Reason + error :=
  let s := Normalize s in
  if String.eqb s "" then inl Empty
  else
    match validate s with
    | Some err => inr err
    | None => inl s
    end.

(** [MustParse] panics with the error of [Parse], or on the empty reason. *)
Inductive panic : Type := PanicError (err : error) | PanicEmptyReason.

Definition MustParse `{Runtime} (s : string) : Reason + panic :=
  match Parse s with
  | inr err => inr (PanicError err)
  | inl r => if String.eqb r Empty then inr PanicEmptyReason else inl r
  end.

(** [Validate] *)
Definition Validate (r : Reason) : option error :=
  if String.eqb r Empty then None else validate r.

(** [MarshalText]: the bytes of the text, or the error of [Validate]. *)
Definition MarshalText (r : Reason) : string + error :=
  match Validate r with
  | Some err => inr err
  | None => if String.eqb r Empty then inl EmptyString else inl r
  end.

(** [UnmarshalText] on the receiver [r]: the reason stored afterwards and the
    error returned.  [bytes.TrimSpace] trims the bytes that
    [strings.TrimSpace] trims in the same text. *)
Definition UnmarshalText `{Runtime} (r : Reason) (text : string) : Reason * option error :=
  let s := strings_TrimSpace text in
  match Parse s with
  | inr err => (r, Some err)
  | inl parsed => (parsed, None)
  end.
End reason.

(** ** Package mapper *)

Module mapper.
Import segmenttrie.

(** [prefixRule]: the raw prefix and the numeric status. *)
Record prefixRule : Type := mkRule { prefix : string; ruleVal : Z }.

(** [builder] *)
Record builder : Type := mkBuilder {
  httpDefaults : gmap code.Code Z;
  grpcDefaults : gmap code.Code Z;
  bHttpOverride : gmap code.Code Z;
  bGrpcOverride : gmap code.Code Z;
  httpPrefixes : gmap code.Code (list prefixRule);
  grpcPrefixes : gmap code.Code (list prefixRule);
  bFallbackHTTP : Z;
  bFallbackGRPC : codes.Code
}.

Definition newBuilder : builder :=
  mkBuilder ∅ ∅ ∅ ∅ ∅ ∅ http.StatusInternalServerError codes.Internal.

(** [defaultHTTP] *)
Definition defaultHTTP : gmap code.Code Z :=
  list_to_map [
    (code.Internal, http.StatusInternalServerError);
    (code.Unavailable, http.StatusServiceUnavailable);
    (code.NotReady, http.StatusServiceUnavailable);
    (code.Draining, http.StatusServiceUnavailable);
    (code.Overloaded, http.StatusServiceUnavailable);
    (code.DependencyFailed, http.StatusBadGateway);
    (code.Timeout, http.StatusGatewayTimeout);
    (code.Canceled, http.StatusRequestTimeout);
    (code.Invalid, http.StatusBadRequest);
    (code.Missing, http.StatusBadRequest);
    (code.Unsupported, http.StatusBadRequest);
    (code.Expired, http.StatusBadRequest);
    (code.DeprecationRejected, http.StatusBadRequest);
    (code.TooEarly, http.StatusTooEarly);
    (code.NotFound, http.StatusNotFound);
    (code.Gone, http.StatusGone);
    (code.AlreadyExists, http.StatusConflict);
    (code.Conflict, http.StatusConflict);
    (code.StaleVersion, http.StatusConflict);
    (code.PreconditionFailed, http.StatusPreconditionFailed);
    (code.Unauthenticated, http.StatusUnauthorized);
    (code.InvalidCredentials, http.StatusUnauthorized);
    (code.TokenInvalid, http.StatusUnauthorized);
    (code.TokenExpired, http.StatusUnauthorized);
    (code.TokenRevoked, http.StatusUnauthorized);
    (code.SessionExpired, http.StatusUnauthorized);
    (code.PermissionDenied, http.StatusForbidden);
    (code.Throttled, http.StatusTooManyRequests);
    (code.RateLimited, http.StatusTooManyRequests);
    (code.QuotaExceeded, http.StatusTooManyRequests)
  ].

(** [defaultGRPC] *)
Definition defaultGRPC : gmap code.Code codes.Code :=
  list_to_map [
    (code.Internal, codes.Internal);
    (code.Invalid, codes.InvalidArgument);
    (code.Missing, codes.InvalidArgument);
    (code.Unsupported, codes.InvalidArgument);
    (code.PreconditionFailed, codes.FailedPrecondition);
    (code.DependencyFailed, codes.FailedPrecondition);
    (code.Expired, codes.FailedPrecondition);
    (code.TooEarly, codes.FailedPrecondition);
    (code.NotFound, codes.NotFound);
    (code.Gone, codes.NotFound);
    (code.DeprecationRejected, codes.FailedPrecondition);
    (code.AlreadyExists, codes.AlreadyExists);
    (code.Conflict, codes.Aborted);
    (code.StaleVersion, codes.Aborted);
    (code.Unauthenticated, codes.Unauthenticated);
    (code.InvalidCredentials, codes.Unauthenticated);
    (code.TokenInvalid, codes.Unauthenticated);
    (code.TokenExpired, codes.Unauthenticated);
    (code.TokenRevoked, codes.Unauthenticated);
    (code.SessionExpired, codes.Unauthenticated);
    (code.PermissionDenied, codes.PermissionDenied);
    (code.Unavailable, codes.Unavailable);
    (code.NotReady, codes.Unavailable);
    (code.Draining, codes.Unavailable);
    (code.Overloaded, codes.Unavailable);
    (code.Timeout, codes.DeadlineExceeded);
    (code.Canceled, codes.Canceled);
    (code.Throttled, codes.ResourceExhausted);
    (code.RateLimited, codes.ResourceExhausted);
    (code.QuotaExceeded, codes.ResourceExhausted)
  ].

(** [type Option]: a closure over the builder in the source; here the six
    constructors of options, each with the update its closure performs. *)
Inductive Option : Type :=
  | WithHTTPDefault (c : code.Code) (http : Z)
  | WithGRPCDefault (c : code.Code) (grpc : Z)
  | WithHTTPOverride (c : code.Code) (http : Z)
  | WithGRPCOverride (c : code.Code) (grpc : Z)
  | WithHTTPPrefix (c : code.Code) (prefix : string) (http : Z)
  | WithGRPCPrefix (c : code.Code) (prefix : string) (grpc : Z).

(** [b.httpPrefixes[c]] of a possibly absent key: the nil slice. *)
Definition rulesOf (m : gmap code.Code (list prefixRule)) (c : code.Code) : list prefixRule :=
  match m !! c with Some rs => rs | None => [] end.

Definition applyOption (opt : Option) (b : builder) : builder :=
  match opt with
  | WithHTTPDefault c v =>
      mkBuilder (<[c := v]> (httpDefaults b)) (grpcDefaults b) (bHttpOverride b)
        (bGrpcOverride b) (httpPrefixes b) (grpcPrefixes b) (bFallbackHTTP b) (bFallbackGRPC b)
  | WithGRPCDefault c v =>
      mkBuilder (httpDefaults b) (<[c := v]> (grpcDefaults b)) (bHttpOverride b)
        (bGrpcOverride b) (httpPrefixes b) (grpcPrefixes b) (bFallbackHTTP b) (bFallbackGRPC b)
  | WithHTTPOverride c v =>
      mkBuilder (httpDefaults b) (grpcDefaults b) (<[c := v]> (bHttpOverride b))
        (bGrpcOverride b) (httpPrefixes b) (grpcPrefixes b) (bFallbackHTTP b) (bFallbackGRPC b)
  | WithGRPCOverride c v =>
      mkBuilder (httpDefaults b) (grpcDefaults b) (bHttpOverride b)
        (<[c := v]> (bGrpcOverride b)) (httpPrefixes b) (grpcPrefixes b) (bFallbackHTTP b)
        (bFallbackGRPC b)
  | WithHTTPPrefix c p v =>
      mkBuilder (httpDefaults b) (grpcDefaults b) (bHttpOverride b) (bGrpcOverride b)
        (<[c := (rulesOf (httpPrefixes b) c ++ [mkRule p v])%list]> (httpPrefixes b))
        (grpcPrefixes b) (bFallbackHTTP b) (bFallbackGRPC b)
  | WithGRPCPrefix c p v =>
      mkBuilder (httpDefaults b) (grpcDefaults b) (bHttpOverride b) (bGrpcOverride b)
        (httpPrefixes b)
        (<[c := (rulesOf (grpcPrefixes b) c ++ [mkRule p v])%list]> (grpcPrefixes b))
        (bFallbackHTTP b) (bFallbackGRPC b)
  end.

(** Steps (0)-(2) of [New]: the builder seeded with the library defaults, then
    the options applied in order. *)
Definition seeded : builder :=
  mkBuilder (defaultHTTP ∪ httpDefaults newBuilder)
            (defaultGRPC ∪ grpcDefaults newBuilder)
            (bHttpOverride newBuilder) (bGrpcOverride newBuilder)
            (httpPrefixes newBuilder) (grpcPrefixes newBuilder)
            (bFallbackHTTP newBuilder) (bFallbackGRPC newBuilder).

Definition configure (opts : list Option) : builder :=
  fold_left (fun b opt => applyOption opt b) opts seeded.

(** [validPrefixSegment] *)
Definition validPrefixSegment (seg : string) : bool :=
  match seg with
  | EmptyString => false
  | String c rest =>
      if String.eqb seg "*" then true
      else if negb (isLower c) then false
      else forallb isSegChar (list_ascii_of_string rest)
  end.

(** The three errors of [normalizeAndValidatePrefix]. *)
Inductive prefixCause : Type :=
  | EmptyPrefix
  | InvalidSegment (seg : string)
  | OnlyWildcards.

(** The loop of [normalizeAndValidatePrefix] over the segments, with the flag
    [allWild]: the first invalid segment, or the final flag. *)
Fixpoint checkSegments (segs : list string) (allWild : bool) : prefixCause + bool :=
  match segs with
  | [] => inr allWild
  | seg :: segs' =>
      if negb (validPrefixSegment seg) then inl (InvalidSegment seg)
      else checkSegments segs' (if negb (String.eqb seg "*") then false else allWild)
  end.

Definition normalizeAndValidatePrefix `{Runtime} (raw : string) : string + prefixCause :=
  let p := reason.Normalize raw in
  if String.eqb p "" then inr EmptyPrefix
  else
    match checkSegments (Split p) true with
    | inl e => inr e
    | inr allWild => if allWild then inr OnlyWildcards else inl p
    end.

(** The two transports. *)
Inductive family : Type := HTTP | GRPC.

(** The errors of [New].  In the source they are messages built by
    [fmt.Errorf]; each carries the transport, the pattern text, the code and
    the wrapped cause that the message shows. *)
Inductive buildError : Type :=
  | InvalidReasonPrefix (f : family) (rawPrefix : string) (c : code.Code) (cause : prefixCause)
  | CannotInsertPrefix (f : family) (p : string) (c : code.Code) (cause : segmenttrie.error).

Definition errCode (e : buildError) : code.Code :=
  match e with
  | InvalidReasonPrefix _ _ c _ => c
  | CannotInsertPrefix _ _ c _ => c
  end.

Definition errPattern (e : buildError) : string :=
  match e with
  | InvalidReasonPrefix _ p _ _ => p
  | CannotInsertPrefix _ p _ _ => p
  end.

Definition errFamily (e : buildError) : family :=
  match e with
  | InvalidReasonPrefix f _ _ _ => f
  | CannotInsertPrefix f _ _ _ => f
  end.

Section Build.
Context `{Runtime}.
Context {T : Type} (zero : T) (conv : Z -> T) (f : family).

(** The inner loop [for _, r := range rules] of [New] for one code. *)
Fixpoint insertRules (c : code.Code) (rules : list prefixRule) (t : Trie T)
    : Trie T + buildError :=
  match rules with
  | [] => inl t
  | r :: rules' =>
      match normalizeAndValidatePrefix (prefix r) with
      | inr e => inr (InvalidReasonPrefix f (prefix r) c e)
      | inl p =>
          match Insert zero (Some t) p (conv (ruleVal r)) with
          | inr e => inr (CannotInsertPrefix f p c e)
          | inl t' => insertRules c rules' t'
          end
      end
  end.

(** The outer loop [for c, rules := range prefixes] of [New], over the entries
    of the map in the order the iteration yields them. *)
Fixpoint buildTries (entries : list (code.Code * list prefixRule))
    (acc : gmap code.Code (option (Trie T))) : gmap code.Code (option (Trie T)) + buildError :=
  match entries with
  | [] => inl acc
  | (c, rules) :: entries' =>
      if (length rules =? 0)%nat then buildTries entries' acc
      else
        match insertRules c rules (segmenttrie.New zero) with
        | inr e => inr e
        | inl t => buildTries entries' (<[c := Some t]> acc)
        end
  end.

End Build.

(** [mapper] *)
Record mapper : Type := mkMapper {
  httpDefault : gmap code.Code Z;
  grpcDefault : gmap code.Code codes.Code;
  httpOverride : gmap code.Code Z;
  grpcOverride : gmap code.Code codes.Code;
  httpTrie : gmap code.Code (option (Trie Z));
  grpcTrie : gmap code.Code (option (Trie codes.Code));
  fallbackHTTP : Z;
  fallbackGRPC : codes.Code
}.

(** The [freeze...] helpers copy a map into a fresh one (nil when empty, which
    reads like the empty map); the gRPC ones convert each value on the way. *)
Definition freezeHTTPDefaults (src : gmap code.Code Z) : gmap code.Code Z := src.
Definition freezeGRPCDefaults (src : gmap code.Code Z) : gmap code.Code codes.Code :=
  codes.ofInt <$> src.
Definition freezeHTTPOverrides (src : gmap code.Code Z) : gmap code.Code Z := src.
Definition freezeGRPCOverrides (src : gmap code.Code Z) : gmap code.Code codes.Code :=
  codes.ofInt <$> src.
Definition freezeHTTPTrie (src : gmap code.Code (option (Trie Z))) := src.
Definition freezeGRPCTrie (src : gmap code.Code (option (Trie codes.Code))) := src.

(** Steps (3)-(5) of [New] on a configured builder.  Go leaves the order of
    [range] over a map open; [map_to_list] stands for the order taken. *)
Definition freeze `{Runtime} (b : builder) : mapper + buildError :=
  match buildTries 0 (fun v => v) HTTP (map_to_list (httpPrefixes b)) ∅ with
  | inr e => inr e
  | inl httpTrie =>
      match buildTries 0 codes.ofInt GRPC (map_to_list (grpcPrefixes b)) ∅ with
      | inr e => inr e
      | inl grpcTrie =>
          inl (mkMapper (freezeHTTPDefaults (httpDefaults b))
                        (freezeGRPCDefaults (grpcDefaults b))
                        (freezeHTTPOverrides (bHttpOverride b))
                        (freezeGRPCOverrides (bGrpcOverride b))
                        (freezeHTTPTrie httpTrie)
                        (freezeGRPCTrie grpcTrie)
                        (bFallbackHTTP b) (bFallbackGRPC b))
      end
  end.

(** [New] *)
Definition New `{Runtime} (opts : list Option) : mapper + buildError :=
  freeze (configure opts).

(** [HTTPStatus] *)
Definition HTTPStatus (m : mapper) (c : code.Code) (r : reason.Reason) : Z :=
  match httpOverride m !! c with
  | Some v => v
  | None =>
      let fromDefault :=
        match httpDefault m !! c with
        | Some v => v
        | None => 500
        end in
      match httpTrie m !! c with
      | Some (Some idx) =>
          match Match 0 (Some idx) r with
          | (v, true) => v
          | (_, false) => fromDefault
          end
      | _ => fromDefault
      end
  end.

(** [GRPCStatus] *)
Definition GRPCStatus (m : mapper) (c : code.Code) (r : reason.Reason) : codes.Code :=
  match grpcOverride m !! c with
  | Some v => v
  | None =>
      let fromDefault :=
        match grpcDefault m !! c with
        | Some v => v
        | None => codes.Internal
        end in
      match grpcTrie m !! c with
      | Some (Some idx) =>
          match Match 0 (Some idx) r with
          | (v, true) => v
          | (_, false) => fromDefault
          end
      | _ => fromDefault
      end
  end.

(** [Status] and [apis.Status] *)
Record Status : Type := mkStatus { statusHTTP : Z; statusGRPC : codes.Code }.

Definition status (m : mapper) (c : code.Code) (r : reason.Reason) : Status :=
  mkStatus (HTTPStatus m c r) (GRPCStatus m c r).

Section Explaining.
Context `{Runtime}.

(** [explainHTTP] *)
Definition explainHTTP (m : mapper) (c : code.Code) (r : reason.Reason) : string * string :=
  match httpOverride m !! c with
  | Some v => ("override", "http: source=override -> " +:+ fmt_d v)
  | None =>
      let fromDefault :=
        match httpDefault m !! c with
        | Some v => ("default", "http: source=default -> " +:+ fmt_d v)
        | None => ("fallback", "http source=fallback -> " +:+ fmt_d (fallbackHTTP m))
        end in
      match httpTrie m !! c with
      | Some (Some idx) =>
          match MatchWithPattern 0 (Some idx) r with
          | (v, true, pat) =>
              ("prefix", "http: source=prefix pattern=" +:+ fmt_q pat +:+ " -> " +:+ fmt_d v)
          | (_, false, _) => fromDefault
          end
      | _ => fromDefault
      end
  end.

(** [strings.ToUpper(v.String())] followed by [(int(v))], the rendering of a
    gRPC code by the verbs [%s(%d)]. *)
Definition grpcText (v : codes.Code) : string :=
  strings_ToUpper (codes_String v) +:+ "(" +:+ fmt_d v +:+ ")".

(** [explainGRPC] *)
Definition explainGRPC (m : mapper) (c : code.Code) (r : reason.Reason) : string * string :=
  match grpcOverride m !! c with
  | Some v => ("override", "grpc: source=override -> " +:+ grpcText v)
  | None =>
      let fromDefault :=
        match grpcDefault m !! c with
        | Some v => ("default", "grpc: source=default -> " +:+ grpcText v)
        | None => ("fallback", "grpc: source=fallback -> " +:+ grpcText (fallbackGRPC m))
        end in
      match grpcTrie m !! c with
      | Some (Some idx) =>
          match MatchWithPattern 0 (Some idx) r with
          | (v, true, pat) =>
              ("prefix", "grpc: source=prefix pattern=" +:+ fmt_q pat +:+ " -> " +:+ grpcText v)
          | (_, false, _) => fromDefault
          end
      | _ => fromDefault
      end
  end.

(** The line feed that [Fprintln] and the header's format end with. *)
Definition nl : string := String (ascii_of_nat 10) EmptyString.

(** [strings.TrimSuffix] *)
Fixpoint TrimSuffix (s suffix : string) : string :=
  match s with
  | EmptyString => EmptyString
  | String c s' => if String.eqb s suffix then EmptyString else String c (TrimSuffix s' suffix)
  end.

Definition knownSource (src : string) : bool :=
  String.eqb src "override" || String.eqb src "prefix"
  || String.eqb src "default" || String.eqb src "fallback".

(** [Explain] *)
Definition Explain (m : mapper) (c : code.Code) (r : reason.Reason) : string :=
  let b := "code=" +:+ fmt_q c +:+ " reason=" +:+ fmt_q r +:+ nl in
  let b :=
    let '(src, httpLine) := explainHTTP m c r in
    if knownSource src then b +:+ httpLine +:+ nl
    else b +:+ "http:  source=unknown" +:+ nl in
  let b :=
    let '(src, grpcLine) := explainGRPC m c r in
    if knownSource src then b +:+ grpcLine +:+ nl
    else b +:+ "grpc:  source=unknown" +:+ nl in
  TrimSuffix b nl.

End Explaining.

End mapper.

(** ** Specification-level notions for the trie *)

Module TrieSpec.
Import segmenttrie.

(** A literal segment, [[a-z][a-z0-9_]*]. *)
Definition literal (seg : string) : bool :=
  match seg with
  | EmptyString => false
  | String c rest => isLower c && forallb isSegChar (list_ascii_of_string rest)
  end.

(** A string without a dot. *)
Definition dotless (s : string) : bool :=
  forallb (fun c => negb (isDot c)) (list_ascii_of_string s).

(** A segment of a pattern: a literal or the wildcard. *)
Definition patternSegment (s : string) : Prop := literal s = true \/ s = "*".

(** What may follow a segment in a reason: the end, or a dot and anything. *)
Definition boundary (rest : string) : Prop :=
  rest = "" \/ exists rest', rest = String "." rest'.

Section Generic.
Context {T : Type}.

(** The segments that the traversal of [reason] consumes from offset [off]
    on: the syntactically valid ones up to the end or to the first invalid
    one. *)
Fixpoint segmentsFrom (fuel : nat) (reason : string) (off : nat) : list string :=
  match fuel with
  | O => []
  | S fuel' =>
      if (String.length reason <=? off)%nat then []
      else
        match scanSegment reason off with
        | None => []
        | Some i => substring off (i - off) reason :: segmentsFrom fuel' reason (skipDot reason i)
        end
  end.

Definition segmentsAt (reason : string) (off : nat) : list string :=
  segmentsFrom (S (String.length reason)) reason off.

Definition segmentsOf (reason : string) : list string := segmentsAt reason 0.

(** The traversal over a list of segments already cut out of the reason. *)
Fixpoint walk (segs : list string) (n : Trie T) (depth : Z) (st : bestP T) : bestP T :=
  let st := visitP n depth st in
  match segs with
  | [] => st
  | seg :: segs' =>
      let st :=
        match children n !! seg with
        | Some next => walk segs' next (depth + 1) st
        | None => st
        end in
      match children n !! "*" with
      | Some next => walk segs' next (depth + 1) st
      | None => st
      end
  end.

(** The node reached from [t] along the edges [ks]. *)
Fixpoint nodeAt (ks : list string) (t : Trie T) : option (Trie T) :=
  match ks with
  | [] => Some t
  | k :: ks' =>
      match children t !! k with
      | Some next => nodeAt ks' next
      | None => None
      end
  end.

(** The node that held a pattern before an insertion, a fresh one if there
    was none. *)
Definition nodeBefore (zero : T) (segs : list string) (t : Trie T) : Trie T :=
  match nodeAt segs t with
  | Some n => n
  | None => New zero
  end.

(** An edge label matches a segment when it is the wildcard or the segment
    itself. *)
Definition edgeMatches (k seg : string) : Prop := k = "*" \/ k = seg.

(** The pattern [ks] matches a segment-aligned prefix of [segs]. *)
Definition matchesPrefix (ks segs : list string) : Prop :=
  exists pre post, segs = (pre ++ post)%list /\ Forall2 edgeMatches ks pre.

(** Among the patterns that match a path, [ks'] is visited before [ks] when,
    at the first edge where they differ, [ks'] takes the literal edge and
    [ks] the wildcard edge. *)
Fixpoint earlier (segs ks' ks : list string) : Prop :=
  match segs, ks', ks with
  | seg :: segs', k' :: ks'r, k :: ksr =>
      (k' = seg /\ k = "*" /\ seg <> "*") \/ (k' = k /\ earlier segs' ks'r ksr)
  | _, _, _ => False
  end.

(** [ks] is a registered pattern of [t] that matches a prefix of [segs], and
    [n] is its node. *)
Definition registered (t : Trie T) (segs ks : list string) (n : Trie T) : Prop :=
  nodeAt ks t = Some n /\ hasVal n = true /\ matchesPrefix ks segs.

(** The value-carrying nodes in the order the traversal visits them, each with
    its depth, value and pattern. *)
Fixpoint found (segs : list string) (n : Trie T) (depth : Z) : list (Z * T * string) :=
  ((if hasVal n then [(depth, val n, pattern n)] else []) ++
   match segs with
   | [] => []
   | seg :: segs' =>
       (match children n !! seg with
        | Some next => found segs' next (depth + 1)
        | None => []
        end) ++
       (match children n !! "*" with
        | Some next => found segs' next (depth + 1)
        | None => []
        end)
   end)%list.

Definition depthOf (c : Z * T * string) : Z := fst (fst c).

(** The greatest depth among candidates, [-1] when there is none. *)
Definition maxDepth (cs : list (Z * T * string)) : Z :=
  fold_right (fun c d => Z.max (depthOf c) d) (-1) cs.

(** The first, respectively the last, candidate of greatest depth. *)
Definition firstDeepest (cs : list (Z * T * string)) : option (Z * T * string) :=
  List.find (fun c => depthOf c =? maxDepth cs) cs.

Definition lastDeepest (cs : list (Z * T * string)) : option (Z * T * string) :=
  List.find (fun c => depthOf c =? maxDepth cs) (rev cs).

(** The state of [Match] is the state of [MatchWithPattern] without the
    pattern. *)
Definition forget (st : bestP T) : best T := mkBest (pDepth st) (pVal st).

Definition stateOf (st : bestP T) : Z * T * string := (pDepth st, pVal st, pPat st).

(** The candidates of a walk that starts at depth [depth] in [t]: the
    registered patterns that match, each with the depth of its node. *)
Definition candidateOf (segs : list string) (t : Trie T) (depth : Z) (c : Z * T * string) : Prop :=
  exists ks n, registered t segs ks n /\ c = (depth + Z.of_nat (length ks), val n, pattern n).

(** [st'] comes from [st] by a traversal whose candidates are [C]: it is [st]
    itself or a strictly deeper candidate, and no candidate is deeper than it. *)
Definition improves (C : Z * T * string -> Prop) (st st' : bestP T) : Prop :=
  (st' = st \/ (C (stateOf st') /\ pDepth st < pDepth st')) /\
  (forall c, C c -> depthOf c <= pDepth st').

(** The update of the best state by one candidate. *)
Definition update (st : bestP T) (c : Z * T * string) : bestP T :=
  if pDepth st <? depthOf c then mkBestP (fst (fst c)) (snd (fst c)) (snd c) else st.

(** The final state of the walk from the root. *)
Definition finalState (zero : T) (t : Trie T) (reason : string) : bestP T :=
  walk (segmentsOf reason) t 0 (mkBestP (-1) zero "").

(** The result that [MatchWithPattern] reports for a chosen candidate. *)
Definition report (zero : T) (c : option (Z * T * string)) : T * bool * string :=
  match c with
  | Some (_, v, p) => (v, true, p)
  | None => (zero, false, "")
  end.

(** Inserting rules in order, stopping at the first error, the way the tests
    of the package build their tries. *)
Fixpoint insertAll (zero : T) (rules : list (string * T)) (t : Trie T) : Trie T + error :=
  match rules with
  | [] => inl t
  | (p, v) :: rules' =>
      match Insert zero (Some t) p v with
      | inl t' => insertAll zero rules' t'
      | inr e => inr e
      end
  end.

End Generic.

(** The rule sets of [TestWildcard_OneSegment] and of
    [TestLPM_PrefersDeeperEvenIfExactBranchExists], with the values of the
    specification. *)
Definition wildcardRules : list (string * Z) :=
  [("auth.*.verify", 1); ("auth.jwt.verify", 2)].

Definition depthRules : list (string * Z) := [("a.*.c", 7); ("a.b", 1)].

End TrieSpec.

(** ** Specification-level notions for the mapper *)

Module MapperSpec.
Import segmenttrie TrieSpec mapper.

(** The four tiers of the resolution. *)
Inductive tier : Type := Override | Prefix | Default | Fallback.

Definition tierName (s : tier) : string :=
  match s with
  | Override => "override"
  | Prefix => "prefix"
  | Default => "default"
  | Fallback => "fallback"
  end.

Section Tiers.
Context {V : Type} (zero : V).
Variables (override : gmap code.Code V) (tries : gmap code.Code (option (Trie V)))
          (default : gmap code.Code V) (fallback : V).

(** The prefix tier has nothing to say: no trie for the code, a nil trie, or
    no match. *)
Definition noPrefixHit (c : code.Code) (r : reason.Reason) : Prop :=
  forall t, tries !! c = Some (Some t) -> snd (Match zero (Some t) r) = false.

(** The precedence of the specification, as a property of the [result] of a
    resolution of [(c, r)]:
      1. the exact override of the code, if present;
      2. otherwise the value of the prefix match, if the code has a trie and
         the match succeeds;
      3. otherwise the default of the code, if present;
      4. otherwise the global fallback. *)
Definition fourTier (c : code.Code) (r : reason.Reason) (result : V) : Prop :=
  (forall v, override !! c = Some v -> result = v) /\
  (override !! c = None ->
   forall t v, tries !! c = Some (Some t) -> Match zero (Some t) r = (v, true) -> result = v) /\
  (override !! c = None -> noPrefixHit c r ->
   forall v, default !! c = Some v -> result = v) /\
  (override !! c = None -> noPrefixHit c r -> default !! c = None -> result = fallback).

(** What an explanation [(src, line)] of the resolution of [(c, r)] to
    [resolved] must say: the name of the tier that decided, and a line that
    [render]s this tier with the resolved value and, for a prefix hit, with
    the pattern text stored at the winning node of the trie. *)
Definition explains (render : tier -> V -> string -> string)
    (c : code.Code) (r : reason.Reason) (resolved : V) (src line : string) : Prop :=
  (override !! c = Some resolved /\
   src = tierName Override /\ line = render Override resolved "")
  \/
  (override !! c = None /\
   (exists t pat ks n,
       tries !! c = Some (Some t) /\
       MatchWithPattern zero (Some t) r = (resolved, true, pat) /\
       registered t (segmentsOf r) ks n /\ val n = resolved /\ pattern n = pat /\
       src = tierName Prefix /\ line = render Prefix resolved pat))
  \/
  (override !! c = None /\ noPrefixHit c r /\ default !! c = Some resolved /\
   src = tierName Default /\ line = render Default resolved "")
  \/
  (override !! c = None /\ noPrefixHit c r /\ default !! c = None /\
   resolved = fallback /\
   src = tierName Fallback /\ line = render Fallback resolved "").

End Tiers.

Section Lines.
Context `{Runtime}.

(** The line of [Explain] for a decision, per transport. *)
Definition httpLine (s : tier) (v : Z) (pat : string) : string :=
  match s with
  | Override => "http: source=override -> " +:+ fmt_d v
  | Prefix => "http: source=prefix pattern=" +:+ fmt_q pat +:+ " -> " +:+ fmt_d v
  | Default => "http: source=default -> " +:+ fmt_d v
  | Fallback => "http source=fallback -> " +:+ fmt_d v
  end.

(** How an explanation shows a gRPC code: its name in upper case, then its
    number, in decimal, between parentheses. *)
Definition grpcShown (v : codes.Code) : string :=
  strings_ToUpper (codes_String v) +:+ "(" +:+ fmt_d v +:+ ")".

Definition grpcLine (s : tier) (v : codes.Code) (pat : string) : string :=
  match s with
  | Override => "grpc: source=override -> " +:+ grpcShown v
  | Prefix => "grpc: source=prefix pattern=" +:+ fmt_q pat +:+ " -> " +:+ grpcShown v
  | Default => "grpc: source=default -> " +:+ grpcShown v
  | Fallback => "grpc: source=fallback -> " +:+ grpcShown v
  end.

(** A line of an explanation ends with the number [v] of the HTTP status. *)
Definition showsHTTP (line : string) (v : Z) : Prop :=
  exists before, line = before +:+ " -> " +:+ fmt_d v.

(** A line of an explanation ends with the gRPC code [v]: its name and its
    number. *)
Definition showsGRPC (line : string) (v : codes.Code) : Prop :=
  exists before, line = before +:+ " -> " +:+ grpcShown v.

(** A malformed prefix pattern: empty after normalization, with an empty
    segment, with a segment that is neither the wildcard nor a literal (an
    invalid character), or made of wildcards only. *)
Definition malformed (raw : string) : Prop :=
  let p := reason.Normalize raw in
  p = ""
  \/ In "" (Split p)
  \/ (exists seg, In seg (Split p) /\ seg <> "" /\ seg <> "*" /\ literal seg = false)
  \/ Forall (fun seg => seg = "*") (Split p).

End Lines.

(** Every trie of a snapshot is a real trie whose root carries no value. *)
Definition rootless {T : Type} (tries : gmap code.Code (option (Trie T))) : Prop :=
  forall c o, tries !! c = Some o -> exists t, o = Some t /\ hasVal t = false.

(** The prefix rules that the options register, per transport. *)
Definition registers (f : family) (opts : list Option) (c : code.Code) (raw : string) : Prop :=
  exists v, In (match f with
                | HTTP => WithHTTPPrefix c raw v
                | GRPC => WithGRPCPrefix c raw v
                end) opts.

(** An executable instance of the boundary, exact on ASCII text without
    characters that [%q] escapes; the examples run on it. *)
Module Ascii7.

Definition isSpace (c : ascii) : bool :=
  let n := nat_of_ascii c in
  (n =? 32)%nat || ((9 <=? n)%nat && (n <=? 13)%nat).

Fixpoint trimLeft (s : string) : string :=
  match s with
  | String c s' => if isSpace c then trimLeft s' else s
  | EmptyString => EmptyString
  end.

Fixpoint trimRight (s : string) : string :=
  match s with
  | EmptyString => EmptyString
  | String c s' =>
      match trimRight s' with
      | EmptyString => if isSpace c then EmptyString else String c EmptyString
      | s'' => String c s''
      end
  end.

Definition TrimSpace (s : string) : string := trimRight (trimLeft s).

Definition lowerByte (c : ascii) : ascii :=
  let n := nat_of_ascii c in
  if (65 <=? n)%nat && (n <=? 90)%nat then ascii_of_nat (n + 32) else c.

Definition upperByte (c : ascii) : ascii :=
  let n := nat_of_ascii c in
  if (97 <=? n)%nat && (n <=? 122)%nat then ascii_of_nat (n - 32) else c.

Fixpoint mapBytes (f : ascii -> ascii) (s : string) : string :=
  match s with
  | EmptyString => EmptyString
  | String c s' => String (f c) (mapBytes f s')
  end.

Definition quoteMark : string := String (ascii_of_nat 34) EmptyString.

Definition decimal (v : Z) : string := NilZero.string_of_int (Z.to_int v).

Definition codeName (v : Z) : string :=
  match v with
  | 0 => "OK"
  | 1 => "Canceled"
  | 2 => "Unknown"
  | 3 => "InvalidArgument"
  | 4 => "DeadlineExceeded"
  | 5 => "NotFound"
  | 6 => "AlreadyExists"
  | 7 => "PermissionDenied"
  | 8 => "ResourceExhausted"
  | 9 => "FailedPrecondition"
  | 10 => "Aborted"
  | 11 => "OutOfRange"
  | 12 => "Unimplemented"
  | 13 => "Internal"
  | 14 => "Unavailable"
  | 15 => "DataLoss"
  | 16 => "Unauthenticated"
  | _ => "Code(" +:+ decimal v +:+ ")"
  end.

#[export] Instance runtime : Runtime := {|
  strings_TrimSpace := TrimSpace;
  strings_ToLower := mapBytes lowerByte;
  strings_ToUpper := mapBytes upperByte;
  fmt_q := fun s => quoteMark +:+ s +:+ quoteMark;
  fmt_d := decimal;
  codes_String := codeName
|}.

End Ascii7.

End MapperSpec.

(** ** Further specification-level notions *)

Module MoreSpec.
Import segmenttrie TrieSpec mapper MapperSpec.

Section Generic.
Context {T : Type}.

(** A well-formed prefix: non-empty, every segment a literal or the wildcard,
    and not wildcards only. *)
Definition wellFormedPrefix (p : string) : Prop :=
  p <> "" /\ Forall patternSegment (Split p) /\ Exists (fun s => s <> "*") (Split p).

(** The rules that a list of insertions leaves: per pattern, given by its
    segments, the value written last. *)
Definition ruleMap (rules : list (string * T)) : gmap (list string) T :=
  fold_left (fun M pv => <[Split (fst pv) := snd pv]> M) rules ∅.

(** [ks] is a longest pattern of [M] that matches a prefix of [segs], and [v]
    is its value. *)
Definition longestMatch (M : gmap (list string) T) (segs ks : list string) (v : T) : Prop :=
  M !! ks = Some v /\ matchesPrefix ks segs /\
  forall ks' v', M !! ks' = Some v' -> matchesPrefix ks' segs -> (length ks' <= length ks)%nat.

(** The trie [t] holds exactly the rules [M]: the node of a pattern of [M]
    carries its value and its text, and every other node, present or not,
    carries nothing. *)
Definition holds (zero : T) (t : Trie T) (M : gmap (list string) T) : Prop :=
  forall ks,
    let n := nodeBefore zero ks t in
    match M !! ks with
    | Some v => nodeAt ks t = Some n /\ hasVal n = true /\ val n = v /\ pattern n = Join ks
    | None => hasVal n = false /\ pattern n = ""
    end.

End Generic.

(** A reason in canonical form: of the allowed length, with at most four
    segments, each a literal. *)
Definition canonical (s : string) : Prop :=
  (reason.MinLength <= String.length s <= reason.MaxLength)%nat /\
  (length (Split s) <= 4)%nat /\
  Forall (fun seg => literal seg = true) (Split s).

(** The bytes of canonical text: those of a segment, and the dot. *)
Definition canonicalByte (c : ascii) : Prop := isSegChar c = true \/ isDot c = true.

(** A string read byte by byte. *)
Definition bytesOf (s : string) : list ascii := list_ascii_of_string s.

(** The text that follows the first segment of a joined list: each further
    segment behind a dot. *)
Fixpoint dotted (segs : list string) : string :=
  match segs with
  | [] => ""
  | seg :: segs' => String "." (seg +:+ dotted segs')
  end.

(** The two kinds of option that set one value for a code. *)
Inductive slot : Type := DefaultSlot | OverrideSlot.

(** The code and the value that an option sets in slot [k] of transport [f],
    if it is such an option. *)
Definition setting (f : family) (k : slot) (opt : Option) : option (code.Code * Z) :=
  match f, k, opt with
  | HTTP, DefaultSlot, WithHTTPDefault c v => Some (c, v)
  | GRPC, DefaultSlot, WithGRPCDefault c v => Some (c, v)
  | HTTP, OverrideSlot, WithHTTPOverride c v => Some (c, v)
  | GRPC, OverrideSlot, WithGRPCOverride c v => Some (c, v)
  | _, _, _ => None
  end.

(** The value that the options set last for [c] in slot [k] of transport
    [f]. *)
Fixpoint lastSet (f : family) (k : slot) (opts : list Option) (c : code.Code) : option Z :=
  match opts with
  | [] => None
  | opt :: opts' =>
      match lastSet f k opts' c with
      | Some v => Some v
      | None =>
          match setting f k opt with
          | Some (c', v) => if decide (c' = c) then Some v else None
          | None => None
          end
      end
  end.

(** The first of two optional values that is present. *)
Definition orElse {A : Type} (o d : option A) : option A :=
  match o with
  | Some v => Some v
  | None => d
  end.

(** The prefix rule that an option registers on transport [f], with its
    code. *)
Definition ruleOf (f : family) (opt : Option) : option (code.Code * prefixRule) :=
  match f, opt with
  | HTTP, WithHTTPPrefix c p v => Some (c, mkRule p v)
  | GRPC, WithGRPCPrefix c p v => Some (c, mkRule p v)
  | _, _ => None
  end.

(** The prefix rules that the options register for [c] on transport [f], in
    the order of the options. *)
Fixpoint rulesIn (f : family) (opts : list Option) (c : code.Code) : list prefixRule :=
  match opts with
  | [] => []
  | opt :: opts' =>
      match ruleOf f opt with
      | Some (c', r) => if decide (c' = c) then r :: rulesIn f opts' c else rulesIn f opts' c
      | None => rulesIn f opts' c
      end
  end.

(** The rules of one code as its trie holds them: each pattern normalised and
    cut into segments, each value converted, a later rule replacing an
    earlier one with the same pattern. *)
Definition compiled `{Runtime} {T : Type} (conv : Z -> T) (rules : list prefixRule)
    : gmap (list string) T :=
  ruleMap (map (fun r => (reason.Normalize (prefix r), conv (ruleVal r))) rules).

(** The transport that an option configures. *)
Definition familyOf (opt : Option) : family :=
  match opt with
  | WithHTTPDefault _ _ | WithHTTPOverride _ _ | WithHTTPPrefix _ _ _ => HTTP
  | WithGRPCDefault _ _ | WithGRPCOverride _ _ | WithGRPCPrefix _ _ _ => GRPC
  end.

Definition sameFamily (f g : family) : bool :=
  match f, g with
  | HTTP, HTTP | GRPC, GRPC => true
  | _, _ => false
  end.

(** The options of one transport, in order. *)
Definition optionsOf (f : family) (opts : list Option) : list Option :=
  List.filter (fun opt => sameFamily (familyOf opt) f) opts.

(** What the cause wrapped in an error of [New] says about the raw prefix:
    the normalised text is empty; or [seg] is its first segment that is
    neither a literal nor the wildcard; or all its segments are wildcards. *)
Definition causeOf `{Runtime} (raw : string) (cause : prefixCause) : Prop :=
  let p := reason.Normalize raw in
  match cause with
  | EmptyPrefix => p = ""
  | InvalidSegment seg =>
      p <> "" /\
      exists before after,
        Split p = (before ++ seg :: after)%list /\
        Forall patternSegment before /\ ~ patternSegment seg
  | OnlyWildcards => p <> "" /\ Forall (fun seg => seg = "*") (Split p)
  end.

End MoreSpec.

(** * Part II: the properties *)

Import Bytes segmenttrie TrieSpec.

(** * Facts about byte strings *)

Section StringFacts.

Lemma str_app_cons (c : ascii) (a b : string) : String c a +:+ b = String c (a +:+ b).
Proof. reflexivity. Qed.

Lemma str_app_nil_l (b : string) : "" +:+ b = b.
Proof. reflexivity. Qed.

Lemma str_length_app (a b : string) :
  String.length (a +:+ b) = (String.length a + String.length b)%nat.
Proof.
  induction a as [|c a IH]; [reflexivity|].
  rewrite str_app_cons. simpl. now rewrite IH.
Qed.

Lemma str_app_assoc (a b c : string) : (a +:+ b) +:+ c = a +:+ (b +:+ c).
Proof.
  induction a as [|x a IH]; [reflexivity|].
  rewrite !str_app_cons. now rewrite IH.
Qed.

Lemma str_app_nil_r (a : string) : a +:+ "" = a.
Proof.
  induction a as [|x a IH]; [reflexivity|].
  rewrite str_app_cons. now rewrite IH.
Qed.

Lemma str_get_app_here (pre : string) (c : ascii) (x : string) :
  String.get (String.length pre) (pre +:+ String c x) = Some c.
Proof. induction pre as [|y pre IH]; [reflexivity | rewrite str_app_cons; exact IH]. Qed.

Lemma str_get_length (pre : string) : String.get (String.length pre) pre = None.
Proof. induction pre as [|y pre IH]; [reflexivity | exact IH]. Qed.

Lemma str_drop_S_app (pre : string) (c : ascii) (x : string) :
  drop (S (String.length pre)) (pre +:+ String c x) = x.
Proof. induction pre as [|y pre IH]; [reflexivity | rewrite str_app_cons; exact IH]. Qed.

Lemma str_substring_here (s x : string) : substring 0 (String.length s) (s +:+ x) = s.
Proof.
  induction s as [|c s IH]; [now destruct x|].
  rewrite str_app_cons. simpl. now rewrite IH.
Qed.

Lemma str_substring_app (pre s x : string) :
  substring (String.length pre) (String.length s) (pre +:+ s +:+ x) = s.
Proof.
  induction pre as [|y pre IH]; [exact (str_substring_here s x) | rewrite str_app_cons; exact IH].
Qed.

Lemma isSegChar_not_dot (c : ascii) : isSegChar c = true -> isDot c = false.
Proof.
  intros Hc. destruct (isDot c) eqn:Hd; [|reflexivity].
  apply Ascii.eqb_eq in Hd. subst c. discriminate Hc.
Qed.

Lemma isLower_segChar (c : ascii) : isLower c = true -> isSegChar c = true.
Proof. intros Hc. unfold isSegChar. now rewrite Hc. Qed.

End StringFacts.

(** * The scanner of [dfs] *)

Section Scanner.

Lemma length_drop (n : nat) (s : string) :
  String.length (drop n s) = (String.length s - n)%nat.
Proof.
  revert s. induction n as [|n IH]; intros s; simpl; [lia|].
  destruct s as [|c s]; simpl; [reflexivity | apply IH].
Qed.

Lemma get_Some_lt (n : nat) (s : string) (c : ascii) :
  String.get n s = Some c -> (n < String.length s)%nat.
Proof.
  revert n. induction s as [|x s IH]; intros n Hn; simpl in *; [discriminate|].
  destruct n as [|n]; [lia|]. apply IH in Hn. lia.
Qed.

Lemma get_None_ge (n : nat) (s : string) :
  String.get n s = None -> (String.length s <= n)%nat.
Proof.
  revert n. induction s as [|x s IH]; intros n Hn; simpl in *; [lia|].
  destruct n as [|n]; [discriminate|]. apply IH in Hn. lia.
Qed.

Lemma scanLoop_bounds (rest : string) (i j : nat) :
  scanLoop rest i = Some j -> (i <= j <= i + String.length rest)%nat.
Proof.
  revert i. induction rest as [|c rest IH]; intros i Hs; simpl in *.
  - injection Hs as <-. lia.
  - destruct (isDot c); [injection Hs as <-; lia|].
    destruct (isSegChar c); simpl in Hs; [|discriminate].
    apply IH in Hs. lia.
Qed.

Lemma scanSegment_bounds (reason : string) (off i : nat) :
  scanSegment reason off = Some i -> (off < i <= String.length reason)%nat.
Proof.
  unfold scanSegment. destruct (String.get off reason) as [c|] eqn:Hg; [|discriminate].
  apply get_Some_lt in Hg.
  destruct (isLower c); cbn [negb]; [|discriminate].
  intros Hs. apply scanLoop_bounds in Hs. rewrite length_drop in Hs. lia.
Qed.

Lemma skipDot_bounds (reason : string) (i : nat) :
  (i <= skipDot reason i <= S i)%nat.
Proof.
  unfold skipDot. destruct (String.get i reason) as [c|]; [destruct (isDot c)|]; lia.
Qed.

Lemma skipDot_length (reason : string) (i : nat) :
  (i <= String.length reason -> skipDot reason i <= String.length reason)%nat.
Proof.
  unfold skipDot. intros Hi. destruct (String.get i reason) as [c|] eqn:Hg; [|lia].
  apply get_Some_lt in Hg. destruct (isDot c); lia.
Qed.

(** Scanning a run of segment characters that ends at a boundary. *)
Lemma scanLoop_run (s x : string) (i : nat) :
  forallb isSegChar (list_ascii_of_string s) = true ->
  boundary x ->
  scanLoop (s +:+ x) i = Some (i + String.length s)%nat.
Proof.
  intros Hs Hx. revert i. induction s as [|c s IH]; intros i.
  - rewrite str_app_nil_l. simpl. destruct Hx as [-> | [x' ->]]; simpl; f_equal; lia.
  - rewrite str_app_cons. simpl in Hs. apply andb_true_iff in Hs as [Hc Hs].
    simpl. rewrite (isSegChar_not_dot _ Hc), Hc. simpl.
    rewrite (IH Hs). f_equal. lia.
Qed.

Lemma scanSegment_literal (pre seg x : string) :
  literal seg = true ->
  boundary x ->
  scanSegment (pre +:+ seg +:+ x) (String.length pre)
  = Some (String.length pre + String.length seg)%nat.
Proof.
  intros Hl Hx. destruct seg as [|c seg]; [discriminate|].
  simpl in Hl. apply andb_true_iff in Hl as [Hc Hs].
  unfold scanSegment. rewrite str_app_cons, str_get_app_here, Hc. cbn [negb].
  rewrite str_drop_S_app, (scanLoop_run _ _ _ Hs Hx). f_equal. simpl. lia.
Qed.

(** A first byte outside [a-z] stops the scan at once. *)
Lemma scanSegment_bad_first (pre : string) (c : ascii) (x : string) :
  isLower c = false -> scanSegment (pre +:+ String c x) (String.length pre) = None.
Proof. intros Hc. unfold scanSegment. now rewrite str_get_app_here, Hc. Qed.

(** A byte outside [a-z0-9_] before the next dot makes the scan fail. *)
Lemma scanLoop_bad (s x : string) (i : nat) :
  dotless s = true ->
  forallb isSegChar (list_ascii_of_string s) = false ->
  scanLoop (s +:+ x) i = None.
Proof.
  revert i. induction s as [|c s IH]; intros i Hd Hs; [discriminate|].
  rewrite str_app_cons. unfold dotless in Hd. simpl in Hd, Hs.
  apply andb_true_iff in Hd as [Hc Hd]. apply negb_true_iff in Hc.
  simpl. rewrite Hc. destruct (isSegChar c); simpl in *; [|reflexivity].
  now apply IH.
Qed.

Lemma skipDot_dot (pre x : string) :
  skipDot (pre +:+ String "." x) (String.length pre) = S (String.length pre).
Proof. unfold skipDot. now rewrite str_get_app_here. Qed.

Lemma skipDot_end (pre : string) : skipDot pre (String.length pre) = String.length pre.
Proof. unfold skipDot. now rewrite str_get_length. Qed.

End Scanner.

(** * The traversal, seen over the list of segments *)

Section Traversal.
Context {T : Type}.

Lemma segmentsFrom_fuel (reason : string) (f1 f2 off : nat) :
  (String.length reason - off < f1)%nat ->
  (String.length reason - off < f2)%nat ->
  segmentsFrom f1 reason off = segmentsFrom f2 reason off.
Proof.
  revert f2 off. induction f1 as [|f1 IH]; intros f2 off H1 H2; [lia|].
  destruct f2 as [|f2]; [lia|]. simpl.
  destruct (String.length reason <=? off)%nat eqn:Hle; [reflexivity|].
  apply Nat.leb_gt in Hle.
  destruct (scanSegment reason off) as [i|] eqn:Hs; [|reflexivity].
  apply scanSegment_bounds in Hs. pose proof (skipDot_bounds reason i).
  f_equal. apply IH; lia.
Qed.

(** [dfs] of [MatchWithPattern] is the walk over the segments it scans. *)
Lemma dfsP_walk (reason : string) (fuel : nat) (n : Trie T) (off : nat) (depth : Z)
    (st : bestP T) :
  (String.length reason - off < fuel)%nat ->
  dfsP fuel reason n off depth st = walk (segmentsFrom fuel reason off) n depth st.
Proof.
  revert n off depth st. induction fuel as [|fuel IH]; intros n off depth st Hf; [lia|].
  simpl. destruct (String.length reason <=? off)%nat eqn:Hle; [reflexivity|].
  apply Nat.leb_gt in Hle.
  destruct (scanSegment reason off) as [i|] eqn:Hs; [|reflexivity].
  apply scanSegment_bounds in Hs. pose proof (skipDot_bounds reason i).
  simpl.
  destruct (children n !! substring off (i - off) reason) as [next|];
    destruct (children n !! "*") as [star|]; rewrite ?IH by lia; reflexivity.
Qed.

(** Enough fuel: any larger amount gives the same result, so the traversal
    never stops for lack of it. *)
Lemma dfsP_fuel (reason : string) (f1 f2 : nat) (n : Trie T) (off : nat) (depth : Z)
    (st : bestP T) :
  (String.length reason - off < f1)%nat ->
  (String.length reason - off < f2)%nat ->
  dfsP f1 reason n off depth st = dfsP f2 reason n off depth st.
Proof.
  intros H1 H2. rewrite !dfsP_walk by assumption.
  now rewrite (segmentsFrom_fuel reason f1 f2 off).
Qed.

Lemma visit_forget (n : Trie T) (depth : Z) (st : bestP T) :
  visit n depth (forget st) = forget (visitP n depth st).
Proof. unfold visit, visitP, forget. simpl. now destruct (hasVal n && _). Qed.

Lemma dfs_forget (reason : string) (fuel : nat) (n : Trie T) (off : nat) (depth : Z)
    (st : bestP T) :
  dfs fuel reason n off depth (forget st) = forget (dfsP fuel reason n off depth st).
Proof.
  revert n off depth st. induction fuel as [|fuel IH]; intros n off depth st; [reflexivity|].
  simpl. rewrite visit_forget.
  destruct (String.length reason <=? off)%nat; [reflexivity|].
  destruct (scanSegment reason off) as [i|]; [|reflexivity].
  destruct (children n !! substring off (i - off) reason) as [next|];
    destruct (children n !! "*") as [star|]; rewrite ?IH; reflexivity.
Qed.

Lemma dfs_fuel (reason : string) (f1 f2 : nat) (n : Trie T) (off : nat) (depth : Z)
    (st : best T) :
  (String.length reason - off < f1)%nat ->
  (String.length reason - off < f2)%nat ->
  dfs f1 reason n off depth st = dfs f2 reason n off depth st.
Proof.
  intros H1 H2. destruct st as [d v].
  change (mkBest d v) with (forget (mkBestP d v "")).
  rewrite !dfs_forget. f_equal. now apply dfsP_fuel.
Qed.

Variable zero : T.

Lemma MatchWithPattern_walk (t : Trie T) (reason : string) :
  MatchWithPattern zero (Some t) reason =
  let st := finalState zero t reason in
  if pDepth st <? 0 then (zero, false, "") else (pVal st, true, pPat st).
Proof.
  unfold MatchWithPattern, finalState, segmentsOf, segmentsAt. rewrite dfsP_walk by lia. reflexivity.
Qed.

(** [Match] returns what [MatchWithPattern] returns, without the pattern. *)
Lemma Match_MatchWithPattern (t : option (Trie T)) (reason : string) :
  Match zero t reason = fst (MatchWithPattern zero t reason).
Proof.
  destruct t as [t|]; [|reflexivity]. unfold Match, MatchWithPattern.
  change (mkBest (-1) zero) with (forget (mkBestP (-1) zero "")).
  rewrite dfs_forget. simpl.
  now destruct (pDepth _ <? 0).
Qed.

End Traversal.

(** * The segments of a dotted path *)

Section Segments.

Lemma segmentsOf_at (reason : string) : segmentsOf reason = segmentsAt reason 0.
Proof. reflexivity. Qed.

Lemma segmentsAt_eq (reason : string) (off : nat) :
  segmentsAt reason off =
  if (String.length reason <=? off)%nat then []
  else match scanSegment reason off with
       | None => []
       | Some i => substring off (i - off) reason :: segmentsAt reason (skipDot reason i)
       end.
Proof.
  unfold segmentsAt at 1. simpl.
  destruct (String.length reason <=? off)%nat eqn:Hle; [reflexivity|].
  apply Nat.leb_gt in Hle.
  destruct (scanSegment reason off) as [i|] eqn:Hs; [|reflexivity].
  apply scanSegment_bounds in Hs. pose proof (skipDot_bounds reason i).
  f_equal. apply segmentsFrom_fuel; lia.
Qed.

Lemma Join_cons (s : string) (l : list string) :
  l <> [] -> Join (s :: l) = s +:+ "." +:+ Join l.
Proof. destruct l; [congruence | reflexivity]. Qed.

(** One literal segment followed by a dot. *)
Lemma segmentsAt_step (pre s x : string) :
  literal s = true ->
  segmentsAt (pre +:+ s +:+ String "." x) (String.length pre)
  = s :: segmentsAt ((pre +:+ s +:+ ".") +:+ x) (String.length (pre +:+ s +:+ ".")).
Proof.
  intros Hs. rewrite segmentsAt_eq.
  assert (Hlen : (String.length (pre +:+ s +:+ String "." x) <=? String.length pre)%nat = false).
  { apply Nat.leb_gt. rewrite !str_length_app. simpl. lia. }
  rewrite Hlen, (scanSegment_literal pre s (String "." x) Hs) by (right; eauto).
  replace (String.length pre + String.length s - String.length pre)%nat
    with (String.length s) by lia.
  rewrite str_substring_app. f_equal.
  assert (Hre : pre +:+ s +:+ String "." x = (pre +:+ s) +:+ String "." x)
    by now rewrite str_app_assoc.
  rewrite <- str_length_app. rewrite Hre at 2. rewrite skipDot_dot.
  assert (Hre2 : (pre +:+ s +:+ ".") +:+ x = pre +:+ s +:+ String "." x).
  { rewrite !str_app_assoc. reflexivity. }
  rewrite Hre2. f_equal. rewrite !str_length_app. simpl. lia.
Qed.

(** The last literal segment of a path. *)
Lemma segmentsAt_last (pre s : string) :
  literal s = true -> segmentsAt (pre +:+ s) (String.length pre) = [s].
Proof.
  intros Hs.
  assert (Hne : (0 < String.length s)%nat) by (destruct s; [discriminate | simpl; lia]).
  assert (Hscan : scanSegment (pre +:+ s) (String.length pre)
                  = Some (String.length pre + String.length s)%nat).
  { pose proof (scanSegment_literal pre s "" Hs (or_introl eq_refl)) as Hx.
    now rewrite str_app_nil_r in Hx. }
  assert (Hsub : substring (String.length pre) (String.length s) (pre +:+ s) = s).
  { pose proof (str_substring_app pre s "") as Hx. now rewrite str_app_nil_r in Hx. }
  rewrite segmentsAt_eq, Hscan.
  assert (Hlen : (String.length (pre +:+ s) <=? String.length pre)%nat = false).
  { apply Nat.leb_gt. rewrite str_length_app. lia. }
  rewrite Hlen.
  replace (String.length pre + String.length s - String.length pre)%nat
    with (String.length s) by lia.
  rewrite Hsub. f_equal.
  rewrite <- str_length_app, skipDot_end, segmentsAt_eq.
  now rewrite Nat.leb_refl.
Qed.

(** A segment that is not a literal ends the list of segments. *)
Lemma segmentsAt_bad (pre bad rest : string) :
  literal bad = false -> dotless bad = true -> boundary rest ->
  segmentsAt (pre +:+ bad +:+ rest) (String.length pre) = [].
Proof.
  intros Hb Hd Hr. rewrite segmentsAt_eq.
  destruct (String.length (pre +:+ bad +:+ rest) <=? String.length pre)%nat; [reflexivity|].
  destruct bad as [|c bad].
  - rewrite str_app_nil_l. destruct Hr as [-> | [x ->]].
    + rewrite str_app_nil_r. unfold scanSegment. now rewrite str_get_length.
    + now rewrite scanSegment_bad_first.
  - rewrite str_app_cons. simpl in Hb. destruct (isLower c) eqn:Hc.
    + simpl in Hb. unfold scanSegment. rewrite str_get_app_here, Hc. cbn [negb].
      rewrite str_drop_S_app, scanLoop_bad; [reflexivity | | assumption].
      unfold dotless in *. simpl in Hd. now apply andb_true_iff in Hd as [_ Hd].
    + now rewrite scanSegment_bad_first.
Qed.

(** The segments of a path of literal segments are these segments. *)
Lemma segmentsAt_Join (segs : list string) (pre : string) :
  Forall (fun s => literal s = true) segs ->
  segmentsAt (pre +:+ Join segs) (String.length pre) = segs.
Proof.
  intros Hall. revert pre. induction Hall as [|s l Hs Hl IH]; intros pre.
  - unfold Join. simpl. rewrite str_app_nil_r, segmentsAt_eq, Nat.leb_refl. reflexivity.
  - destruct l as [|s' l].
    + unfold Join. simpl. now apply segmentsAt_last.
    + rewrite Join_cons by discriminate.
      change ("." +:+ Join (s' :: l)) with (String "." (Join (s' :: l))).
      rewrite segmentsAt_step by assumption. f_equal. apply IH.
Qed.

(** ... and an invalid segment hides itself and everything after it. *)
Lemma segmentsAt_Join_bad (segs : list string) (pre bad rest : string) :
  Forall (fun s => literal s = true) segs ->
  literal bad = false -> dotless bad = true -> boundary rest ->
  segmentsAt (pre +:+ Join (segs ++ [bad]) +:+ rest) (String.length pre) = segs.
Proof.
  intros Hall Hb Hd Hr. revert pre. induction Hall as [|s l Hs Hl IH]; intros pre.
  - unfold Join. simpl. now apply segmentsAt_bad.
  - change ((s :: l) ++ [bad])%list with (s :: (l ++ [bad]))%list.
    rewrite Join_cons by (destruct l; discriminate).
    rewrite !str_app_assoc.
    change ("." +:+ Join (l ++ [bad]) +:+ rest) with (String "." (Join (l ++ [bad]) +:+ rest)).
    rewrite segmentsAt_step by assumption. f_equal.
    exact (IH (pre +:+ s +:+ ".")).
Qed.

Lemma segmentsOf_Join (segs : list string) :
  Forall (fun s => literal s = true) segs -> segmentsOf (Join segs) = segs.
Proof. intros Hall. exact (segmentsAt_Join segs "" Hall). Qed.

Lemma segmentsOf_Join_bad (segs : list string) (bad rest : string) :
  Forall (fun s => literal s = true) segs ->
  literal bad = false -> dotless bad = true -> boundary rest ->
  segmentsOf (Join (segs ++ [bad]) +:+ rest) = segs.
Proof. intros Hall Hb Hd Hr. exact (segmentsAt_Join_bad segs "" bad rest Hall Hb Hd Hr). Qed.

End Segments.

(** * Longest-prefix matching *)

Section Matching.
Context {T : Type}.
Implicit Types (t n : Trie T) (st : bestP T) (segs ks : list string).

Lemma matchesPrefix_nil segs : matchesPrefix [] segs.
Proof. exists [], segs. split; [reflexivity | constructor]. Qed.

Lemma matchesPrefix_of_nil ks : matchesPrefix ks [] -> ks = [].
Proof.
  intros (pre & post & Heq & Hall). symmetry in Heq.
  apply app_eq_nil in Heq as [-> _]. now inversion Hall.
Qed.

Lemma matchesPrefix_cons k ks seg segs :
  matchesPrefix (k :: ks) (seg :: segs) <-> edgeMatches k seg /\ matchesPrefix ks segs.
Proof.
  split.
  - intros (pre & post & Heq & Hall). inversion Hall as [|? p ? pre' Hk Hks]; subst.
    simpl in Heq. injection Heq as -> ->. split; [assumption|]. now exists pre', post.
  - intros [Hk (pre & post & -> & Hall)]. exists (seg :: pre), post.
    split; [reflexivity | now constructor].
Qed.

Lemma matchesPrefix_length ks segs : matchesPrefix ks segs -> (length ks <= length segs)%nat.
Proof.
  intros (pre & post & -> & Hall). apply Forall2_length in Hall.
  rewrite length_app. lia.
Qed.

Lemma candidateOf_here segs t depth :
  hasVal t = true -> candidateOf segs t depth (depth, val t, pattern t).
Proof.
  intros Hv. exists [], t. split.
  - split; [reflexivity | split; [assumption | apply matchesPrefix_nil]].
  - simpl. now rewrite Z.add_0_r.
Qed.

Lemma candidateOf_child k seg segs t next depth c :
  children t !! k = Some next -> edgeMatches k seg ->
  candidateOf segs next (depth + 1) c -> candidateOf (seg :: segs) t depth c.
Proof.
  intros Hch Hk (ks & n & (Hat & Hv & Hm) & ->). exists (k :: ks), n. split.
  - split; [simpl; now rewrite Hch | split; [assumption | now apply matchesPrefix_cons]].
  - simpl length. f_equal. f_equal. lia.
Qed.

Lemma candidateOf_nil t depth c :
  candidateOf [] t depth c -> hasVal t = true /\ c = (depth, val t, pattern t).
Proof.
  intros (ks & n & (Hat & Hv & Hm) & ->). apply matchesPrefix_of_nil in Hm. subst ks.
  simpl in Hat. injection Hat as <-. split; [assumption|]. simpl. now rewrite Z.add_0_r.
Qed.

Lemma candidateOf_cons seg segs t depth c :
  candidateOf (seg :: segs) t depth c ->
  (hasVal t = true /\ c = (depth, val t, pattern t))
  \/ (exists next, children t !! seg = Some next /\ candidateOf segs next (depth + 1) c)
  \/ (exists next, children t !! "*" = Some next /\ candidateOf segs next (depth + 1) c).
Proof.
  intros (ks & n & (Hat & Hv & Hm) & ->). destruct ks as [|k ks].
  - left. simpl in Hat. injection Hat as <-. split; [assumption|]. simpl. now rewrite Z.add_0_r.
  - right. simpl in Hat. destruct (children t !! k) as [next|] eqn:Hch; [|discriminate].
    apply matchesPrefix_cons in Hm as [[-> | ->] Hm]; [right | left]; exists next;
      (split; [assumption|]); exists ks, n;
      (split; [now repeat split | simpl length; f_equal; f_equal; lia]).
Qed.

Lemma candidateOf_depth segs t depth c : candidateOf segs t depth c -> depth <= depthOf c.
Proof. intros (ks & n & _ & ->). unfold depthOf. simpl. lia. Qed.

Lemma improves_mono (C : Z * T * string -> Prop) st st' :
  improves C st st' -> pDepth st <= pDepth st'.
Proof. intros [[-> | [_ Hlt]] _]; lia. Qed.

Lemma improves_seq (C1 C2 C : Z * T * string -> Prop) st st1 st2 :
  improves C1 st st1 -> improves C2 st1 st2 ->
  (forall c, C1 c -> C c) -> (forall c, C2 c -> C c) ->
  (forall c, C c -> C1 c \/ C2 c) ->
  improves C st st2.
Proof.
  intros H1 H2 HC1 HC2 HC.
  pose proof (improves_mono _ _ _ H1) as Hm1. pose proof (improves_mono _ _ _ H2) as Hm2.
  destruct H1 as [Hs1 Hb1], H2 as [Hs2 Hb2]. split.
  - destruct Hs2 as [-> | [Hc2 Hlt2]].
    + destruct Hs1 as [-> | [Hc1 Hlt1]]; [now left | right; auto].
    + right. split; [auto | lia].
  - intros c Hc. apply HC in Hc as [Hc | Hc]; [apply Hb1 in Hc; lia | now apply Hb2].
Qed.

Lemma improves_none st : improves (fun _ => False) st st.
Proof. split; [now left | intros c []]. Qed.

Lemma improves_visit n depth st :
  improves (fun c => hasVal n = true /\ c = (depth, val n, pattern n)) st (visitP n depth st).
Proof.
  unfold visitP. destruct (hasVal n) eqn:Hv; simpl.
  - destruct (pDepth st <? depth) eqn:Hlt.
    + apply Z.ltb_lt in Hlt. split; [right; simpl; auto | intros c [_ ->]; simpl; reflexivity].
    + apply Z.ltb_ge in Hlt. split; [now left | intros c [_ ->]; exact Hlt].
  - split; [now left | intros c [Hf _]; discriminate].
Qed.

(** The walk ends in the start state or in a strictly deeper candidate, and in
    no case is a candidate deeper than the final state. *)
Lemma walk_improves segs t depth st :
  improves (candidateOf segs t depth) st (walk segs t depth st).
Proof.
  revert t depth st. induction segs as [|seg segs IH]; intros t depth st.
  - simpl. destruct (improves_visit t depth st) as [Hs Hb]. split.
    + destruct Hs as [-> | [[Hv Hc] Hlt]]; [now left | right].
      split; [|assumption]. rewrite Hc. now apply candidateOf_here.
    + intros c Hc. apply candidateOf_nil in Hc. now apply Hb.
  - simpl.
    set (C0 := fun c : Z * T * string => hasVal t = true /\ c = (depth, val t, pattern t)).
    set (C1 := fun c => exists next, children t !! seg = Some next
                                     /\ candidateOf segs next (depth + 1) c).
    set (C2 := fun c => exists next, children t !! "*" = Some next
                                     /\ candidateOf segs next (depth + 1) c).
    assert (H0 : improves C0 st (visitP t depth st)) by apply improves_visit.
    set (st0 := visitP t depth st) in *.
    assert (H1 : improves C1 st0
                   match children t !! seg with
                   | Some next => walk segs next (depth + 1) st0
                   | None => st0
                   end).
    { destruct (children t !! seg) as [next|] eqn:Hch.
      - destruct (IH next (depth + 1) st0) as [Hs Hb]. split.
        + destruct Hs as [-> | [Hc Hlt]]; [now left | right; split; [now exists next | exact Hlt]].
        + intros c (next' & Heq & Hc). injection Heq as <-. now apply Hb.
      - split; [now left | intros c (next' & Heq & _); discriminate]. }
    set (st1 := match children t !! seg with
                | Some next => walk segs next (depth + 1) st0
                | None => st0
                end) in *.
    assert (H2 : improves C2 st1
                   match children t !! "*" with
                   | Some next => walk segs next (depth + 1) st1
                   | None => st1
                   end).
    { destruct (children t !! "*") as [next|] eqn:Hch.
      - destruct (IH next (depth + 1) st1) as [Hs Hb]. split.
        + destruct Hs as [-> | [Hc Hlt]]; [now left | right; split; [now exists next | exact Hlt]].
        + intros c (next' & Heq & Hc). injection Heq as <-. now apply Hb.
      - split; [now left | intros c (next' & Heq & _); discriminate]. }
    assert (H01 : improves (fun c => C0 c \/ C1 c) st st1).
    { apply (improves_seq C0 C1 _ st st0 st1); auto. }
    apply (improves_seq (fun c => C0 c \/ C1 c) C2 _ st st1); auto.
    + intros c [[Hv ->] | (next & Hch & Hc)].
      * now apply candidateOf_here.
      * apply (candidateOf_child seg seg segs t next); [assumption | now right | assumption].
    + intros c (next & Hch & Hc).
      apply (candidateOf_child "*" seg segs t next); [assumption | now left | assumption].
    + intros c Hc. apply candidateOf_cons in Hc as [Hc | [Hc | Hc]]; auto.
Qed.

(** The walk keeps the first candidate it finds at the greatest depth: it is
    the fold of [update] over the candidates in the order of the visit. *)
Lemma walk_found segs n depth st :
  walk segs n depth st = fold_left update (found segs n depth) st.
Proof.
  revert n depth st. induction segs as [|seg segs IH]; intros n depth st; simpl.
  - rewrite app_nil_r. unfold visitP, update. destruct (hasVal n); reflexivity.
  - rewrite !fold_left_app.
    assert (Hv : visitP n depth st
                 = fold_left update (if hasVal n then [(depth, val n, pattern n)] else []) st).
    { unfold visitP, update. destruct (hasVal n); reflexivity. }
    rewrite <- Hv.
    destruct (children n !! seg) as [next|]; destruct (children n !! "*") as [star|];
      rewrite ?IH; reflexivity.
Qed.

Lemma found_depth segs n depth c : In c (found segs n depth) -> depth <= depthOf c.
Proof.
  revert n depth. induction segs as [|seg segs IH]; intros n depth; simpl.
  - rewrite app_nil_r. destruct (hasVal n); [intros [<- | []]; unfold depthOf; simpl; lia | intros []].
  - rewrite !in_app_iff. intros [Hc | [Hc | Hc]].
    + destruct (hasVal n); [destruct Hc as [<- | []]; unfold depthOf; simpl; lia | destruct Hc].
    + destruct (children n !! seg) as [next|]; [apply IH in Hc; lia | destruct Hc].
    + destruct (children n !! "*") as [next|]; [apply IH in Hc; lia | destruct Hc].
Qed.

Lemma maxDepth_ge (cs : list (Z * T * string)) : -1 <= maxDepth cs.
Proof. induction cs as [|c cs IH]; simpl; lia. Qed.

Lemma maxDepth_attained (cs : list (Z * T * string)) :
  -1 < maxDepth cs ->
  exists c, List.find (fun c => depthOf c =? maxDepth cs) cs = Some c.
Proof.
  intros Hlt.
  assert (Hin : exists c, In c cs /\ depthOf c = maxDepth cs).
  { induction cs as [|c cs IH]; [simpl in Hlt; lia|].
    change (maxDepth (c :: cs)) with (Z.max (depthOf c) (maxDepth cs)) in *.
    destruct (Z.max_spec (depthOf c) (maxDepth cs)) as [[Hle ->] | [Hle ->]].
    - destruct IH as (c' & Hc' & Heq); [lia|]. exists c'. split; [now right | assumption].
    - exists c. split; [now left | reflexivity]. }
  destruct Hin as (c & Hc & Heq).
  destruct (List.find _ cs) as [c'|] eqn:Hf; [now exists c'|].
  apply (find_none _ _ Hf) in Hc. apply Z.eqb_neq in Hc. contradiction.
Qed.

Lemma fold_update_first (cs : list (Z * T * string)) st :
  -1 <= pDepth st ->
  fold_left update cs st =
  if maxDepth cs <=? pDepth st then st
  else match List.find (fun c => depthOf c =? maxDepth cs) cs with
       | Some c => mkBestP (fst (fst c)) (snd (fst c)) (snd c)
       | None => st
       end.
Proof.
  revert st. induction cs as [|c cs IH]; intros st Hst.
  - simpl. destruct (-1 <=? pDepth st) eqn:Hle; [reflexivity | apply Z.leb_gt in Hle; lia].
  - pose proof (maxDepth_ge cs) as Hge.
    cbn [fold_left List.find]. change (maxDepth (c :: cs)) with (Z.max (depthOf c) (maxDepth cs)).
    unfold update at 2. destruct (pDepth st <? depthOf c) eqn:Hlt.
    + apply Z.ltb_lt in Hlt. rewrite IH by (simpl; unfold depthOf in Hlt; lia).
      change (pDepth (mkBestP (fst (fst c)) (snd (fst c)) (snd c))) with (depthOf c).
      destruct (Z.max (depthOf c) (maxDepth cs) <=? pDepth st) eqn:H1;
        [apply Z.leb_le in H1; lia|].
      destruct (maxDepth cs <=? depthOf c) eqn:H2.
      * apply Z.leb_le in H2. rewrite Z.max_l by lia. now rewrite Z.eqb_refl.
      * apply Z.leb_gt in H2. rewrite Z.max_r by lia.
        destruct (depthOf c =? maxDepth cs) eqn:H3; [apply Z.eqb_eq in H3; lia|].
        destruct (maxDepth_attained cs) as (c' & ->); [lia | reflexivity].
    + apply Z.ltb_ge in Hlt. rewrite IH by assumption.
      destruct (maxDepth cs <=? pDepth st) eqn:H2.
      * apply Z.leb_le in H2.
        destruct (Z.max (depthOf c) (maxDepth cs) <=? pDepth st) eqn:H1; [reflexivity|].
        apply Z.leb_gt in H1. lia.
      * apply Z.leb_gt in H2.
        destruct (Z.max (depthOf c) (maxDepth cs) <=? pDepth st) eqn:H1;
          [apply Z.leb_le in H1; lia|].
        rewrite Z.max_r by lia.
        destruct (depthOf c =? maxDepth cs) eqn:H3; [apply Z.eqb_eq in H3; lia | reflexivity].
Qed.

Variable zero : T.

(** [MatchWithPattern] reports the first candidate of greatest depth in the
    order of the visit. *)
Lemma MatchWithPattern_first (t : Trie T) (reason : string) :
  MatchWithPattern zero (Some t) reason
  = report zero (firstDeepest (found (segmentsOf reason) t 0)).
Proof.
  rewrite MatchWithPattern_walk. unfold finalState. cbv zeta.
  rewrite walk_found, fold_update_first by (simpl; lia).
  set (cs := found (segmentsOf reason) t 0).
  change (pDepth (mkBestP (-1) zero "")) with (-1).
  pose proof (maxDepth_ge cs) as Hge. unfold firstDeepest.
  destruct (maxDepth cs <=? -1) eqn:Hle.
  - apply Z.leb_le in Hle. simpl.
    destruct (List.find _ cs) as [c|] eqn:Hf; [|reflexivity].
    apply find_some in Hf as [Hin Heq]. apply Z.eqb_eq in Heq.
    apply found_depth in Hin. lia.
  - apply Z.leb_gt in Hle. destruct (maxDepth_attained cs Hle) as (c & Hf). rewrite Hf.
    apply find_some in Hf as [Hin Heq]. apply found_depth in Hin.
    destruct c as [[d v] p]. unfold depthOf in Hin. simpl in *.
    destruct (d <? 0) eqn:Hd; [apply Z.ltb_lt in Hd; lia | reflexivity].
Qed.

(** A successful match reports a registered pattern that matches, and no
    registered pattern that matches is longer. *)
Lemma MatchWithPattern_deepest (t : Trie T) (reason : string) (v : T) (pat : string) :
  MatchWithPattern zero (Some t) reason = (v, true, pat) ->
  exists ks n,
    registered t (segmentsOf reason) ks n /\ val n = v /\ pattern n = pat /\
    forall ks' n', registered t (segmentsOf reason) ks' n' -> (length ks' <= length ks)%nat.
Proof.
  pose proof (walk_improves (segmentsOf reason) t 0 (mkBestP (-1) zero "")) as [Hs Hb].
  rewrite MatchWithPattern_walk. unfold finalState. cbv zeta.
  set (st := walk (segmentsOf reason) t 0 (mkBestP (-1) zero "")) in *.
  destruct (pDepth st <? 0) eqn:Hd; [discriminate|]. apply Z.ltb_ge in Hd.
  intros [= <- <-].
  destruct Hs as [Heq | [(ks & n & Hreg & Hst) _]]; [rewrite Heq in Hd; simpl in Hd; lia|].
  unfold stateOf in Hst. injection Hst as Hdep Hval Hpat.
  exists ks, n. repeat split; try apply Hreg; auto.
  intros ks' n' Hreg'.
  assert (Hc : candidateOf (segmentsOf reason) t 0 (0 + Z.of_nat (length ks'), val n', pattern n'))
    by (exists ks', n'; now split).
  apply Hb in Hc. unfold depthOf in Hc. simpl in Hc. lia.
Qed.

(** It succeeds as soon as some registered pattern matches. *)
Lemma MatchWithPattern_finds (t : Trie T) (reason : string) ks n :
  registered t (segmentsOf reason) ks n ->
  exists v pat, MatchWithPattern zero (Some t) reason = (v, true, pat).
Proof.
  intros Hreg.
  pose proof (walk_improves (segmentsOf reason) t 0 (mkBestP (-1) zero "")) as [_ Hb].
  rewrite MatchWithPattern_walk. unfold finalState. cbv zeta.
  set (st := walk (segmentsOf reason) t 0 (mkBestP (-1) zero "")) in *.
  assert (Hc : candidateOf (segmentsOf reason) t 0 (0 + Z.of_nat (length ks), val n, pattern n))
    by (exists ks, n; now split).
  apply Hb in Hc. unfold depthOf in Hc. simpl in Hc.
  destruct (pDepth st <? 0) eqn:Hd; [apply Z.ltb_lt in Hd; lia | eauto].
Qed.

Lemma registered_child k seg segs t next ks n :
  children t !! k = Some next -> edgeMatches k seg ->
  registered next segs ks n -> registered t (seg :: segs) (k :: ks) n.
Proof.
  intros Hch Hk (Hat & Hv & Hm). split; [simpl; now rewrite Hch|].
  split; [assumption | now apply matchesPrefix_cons].
Qed.

(** A walk that starts at least as deep as anything it can find changes
    nothing. *)
Lemma walk_stays segs t depth st :
  (forall c, candidateOf segs t depth c -> depthOf c <= pDepth st) ->
  walk segs t depth st = st.
Proof.
  intros Hb. destruct (walk_improves segs t depth st) as [[Heq | [Hc Hlt]] _]; [assumption|].
  apply Hb in Hc. unfold depthOf, stateOf in Hc. simpl in Hc. lia.
Qed.

(** Among the registered patterns of greatest depth that match, the walk
    returns the one that no other precedes in the order of the visit. *)
Lemma walk_first segs ks t depth st n :
  nodeAt ks t = Some n -> hasVal n = true -> matchesPrefix ks segs ->
  (forall c, candidateOf segs t depth c -> depthOf c <= depth + Z.of_nat (length ks)) ->
  (forall ks' n', registered t segs ks' n' -> length ks' = length ks ->
                  ~ earlier segs ks' ks) ->
  pDepth st < depth + Z.of_nat (length ks) ->
  walk segs t depth st = mkBestP (depth + Z.of_nat (length ks)) (val n) (pattern n).
Proof.
  revert ks t depth st.
  induction segs as [|seg segs IH]; intros ks t depth st Hat Hv Hm Hb Hfirst Hst.
  - apply matchesPrefix_of_nil in Hm. subst ks. simpl in Hat. injection Hat as <-.
    simpl in *. unfold visitP. rewrite Hv, Z.add_0_r in *.
    apply Z.ltb_lt in Hst. now rewrite Hst.
  - assert (Hstay : forall k next st1, children t !! k = Some next -> edgeMatches k seg ->
              depth + Z.of_nat (length ks) <= pDepth st1 ->
              walk segs next (depth + 1) st1 = st1).
    { intros k next st1 Hch Hk Hle. apply walk_stays. intros c Hc.
      apply (candidateOf_child k seg segs t next depth) in Hc; [|assumption..].
      apply Hb in Hc. lia. }
    destruct ks as [|k ks].
    + simpl in Hat. injection Hat as <-. simpl length in *. rewrite Z.add_0_r in *.
      assert (Hvis : visitP t depth st = mkBestP depth (val t) (pattern t)).
      { unfold visitP. rewrite Hv. apply Z.ltb_lt in Hst. now rewrite Hst. }
      simpl. rewrite Hvis.
      set (st0 := mkBestP depth (val t) (pattern t)).
      assert (H1 : match children t !! seg with
                   | Some next => walk segs next (depth + 1) st0
                   | None => st0
                   end = st0).
      { destruct (children t !! seg) as [next|] eqn:Hch; [|reflexivity].
        apply (Hstay seg); [assumption | now right | simpl; lia]. }
      rewrite H1. destruct (children t !! "*") as [next|] eqn:Hch; [|reflexivity].
      apply (Hstay "*"); [assumption | now left | simpl; lia].
    + apply matchesPrefix_cons in Hm as [Hk Hm].
      simpl in Hat. destruct (children t !! k) as [next|] eqn:Hch; [|discriminate].
      simpl length in *.
      assert (Hst1 : pDepth (visitP t depth st) < depth + Z.of_nat (S (length ks))).
      { unfold visitP. destruct (hasVal t && (pDepth st <? depth)); simpl; lia. }
      assert (Hnext : forall st1, pDepth st1 < depth + Z.of_nat (S (length ks)) ->
                walk segs next (depth + 1) st1
                = mkBestP (depth + Z.of_nat (S (length ks))) (val n) (pattern n)).
      { intros st1 Hlt.
        replace (depth + Z.of_nat (S (length ks))) with (depth + 1 + Z.of_nat (length ks)) by lia.
        apply IH; [assumption.. | | | lia].
        - intros c Hc. apply (candidateOf_child k seg segs t next depth) in Hc; [|assumption..].
          apply Hb in Hc. lia.
        - intros ks' n' Hreg Hlen Hearly.
          apply (Hfirst (k :: ks') n'); [now apply (registered_child k seg segs t next) | | ].
          + simpl. now rewrite Hlen.
          + right. now split. }
      simpl. destruct (decide (k = seg)) as [-> | Hne].
      * rewrite Hch, Hnext by assumption.
        destruct (children t !! "*") as [star|] eqn:Hstar; [|reflexivity].
        apply (Hstay "*"); [assumption | now left | simpl; lia].
      * destruct Hk as [-> | ->]; [|congruence]. rewrite Hch. apply Hnext.
        destruct (children t !! seg) as [lit|] eqn:Hlit; [|assumption].
        destruct (walk_improves segs lit (depth + 1) (visitP t depth st))
          as [[-> | [(ks' & n' & Hreg & Hc) _]] _]; [assumption|].
        unfold stateOf in Hc. injection Hc as Hd _ _. rewrite Hd.
        assert (Hreg' : registered t (seg :: segs) (seg :: ks') n')
          by (apply (registered_child seg seg segs t lit); [assumption | now right | assumption]).
        assert (Hle : depthOf (depth + Z.of_nat (length (seg :: ks')), val n', pattern n')
                      <= depth + Z.of_nat (S (length ks)))
          by (apply Hb; now exists (seg :: ks'), n').
        unfold depthOf in Hle. simpl in Hle.
        destruct (decide (length ks' = length ks)) as [Heq | Hneq]; [|lia].
        exfalso. apply (Hfirst (seg :: ks') n' Hreg'); [simpl; now rewrite Heq|].
        left. repeat split. congruence.
Qed.

Lemma earlier_firstn segs ks' (d : nat) : ~ earlier segs ks' (firstn d segs).
Proof.
  revert ks' d. induction segs as [|seg segs IH]; intros ks' d; [now destruct d|].
  destruct d as [|d]; [now destruct ks'|]. destruct ks' as [|k' ks']; [intros []|].
  simpl. intros [(_ & Hs & Hn) | (_ & He)]; [congruence | now apply IH in He].
Qed.

Lemma matchesPrefix_firstn segs (d : nat) :
  (d <= length segs)%nat -> matchesPrefix (firstn d segs) segs.
Proof.
  intros _. exists (firstn d segs), (skipn d segs). split; [now rewrite firstn_skipn|].
  induction (firstn d segs); constructor; [now right | assumption].
Qed.

(** The literal path wins at the greatest depth. *)
Lemma walk_literal segs (d : nat) t depth st n :
  nodeAt (firstn d segs) t = Some n -> (d <= length segs)%nat ->
  hasVal n = true ->
  (forall c, candidateOf segs t depth c -> depthOf c <= depth + Z.of_nat d) ->
  pDepth st < depth + Z.of_nat d ->
  walk segs t depth st = mkBestP (depth + Z.of_nat d) (val n) (pattern n).
Proof.
  intros Hat Hd Hv Hb Hst.
  assert (Hlen : length (firstn d segs) = d) by (apply length_take_le; lia).
  rewrite <- Hlen in Hb, Hst |- *.
  apply walk_first; try assumption.
  - now apply matchesPrefix_firstn.
  - intros ks' n' _ _. apply earlier_firstn.
Qed.

(** The same for [MatchWithPattern], from the root. *)
Lemma MatchWithPattern_first_of segs_ks (t : Trie T) (reason : string) n :
  nodeAt segs_ks t = Some n -> hasVal n = true ->
  matchesPrefix segs_ks (segmentsOf reason) ->
  (forall ks' n', registered t (segmentsOf reason) ks' n' ->
                  (length ks' <= length segs_ks)%nat) ->
  (forall ks' n', registered t (segmentsOf reason) ks' n' ->
                  length ks' = length segs_ks -> ~ earlier (segmentsOf reason) ks' segs_ks) ->
  MatchWithPattern zero (Some t) reason = (val n, true, pattern n).
Proof.
  intros Hat Hv Hm Hmax Hfirst.
  rewrite MatchWithPattern_walk. unfold finalState. cbv zeta.
  rewrite (walk_first (segmentsOf reason) segs_ks t 0 (mkBestP (-1) zero "") n);
    try assumption.
  - cbn [pDepth pVal pPat].
    destruct (0 + Z.of_nat (length segs_ks) <? 0) eqn:Hlt;
      [apply Z.ltb_lt in Hlt; lia | reflexivity].
  - intros c (ks' & n' & Hreg & ->). apply Hmax in Hreg. unfold depthOf. simpl. lia.
  - simpl. lia.
Qed.

End Matching.

(** * Insertion *)

Section SplitFacts.

Lemma literal_dotless (s : string) : literal s = true -> dotless s = true.
Proof.
  destruct s as [|c s]; [discriminate|]. simpl. intros Hl.
  apply andb_true_iff in Hl as [Hc Hs]. unfold dotless. simpl.
  rewrite (isSegChar_not_dot c (isLower_segChar c Hc)). simpl.
  induction (list_ascii_of_string s) as [|x l IH]; [reflexivity|].
  simpl in *. apply andb_true_iff in Hs as [Hx Hs].
  now rewrite (isSegChar_not_dot x Hx), IH.
Qed.

Lemma literal_not_star (s : string) : literal s = true -> s <> "*".
Proof. intros Hl ->. discriminate Hl. Qed.

Lemma Split_dotless (s : string) : dotless s = true -> Split s = [s].
Proof.
  unfold dotless. induction s as [|c s IH]; [reflexivity|]. simpl. intros Hd.
  apply andb_true_iff in Hd as [Hc Hd]. apply negb_true_iff in Hc.
  now rewrite Hc, IH.
Qed.

Lemma Split_app_dot (s x : string) :
  dotless s = true -> Split (s +:+ String "." x) = s :: Split x.
Proof.
  unfold dotless. induction s as [|c s IH]; [reflexivity|]. intros Hd. simpl in Hd.
  apply andb_true_iff in Hd as [Hc Hd]. apply negb_true_iff in Hc.
  rewrite str_app_cons. simpl. now rewrite Hc, IH.
Qed.

(** [Split] undoes [Join] on segments without dots. *)
Lemma Split_Join (segs : list string) :
  segs <> [] -> Forall (fun s => dotless s = true) segs -> Split (Join segs) = segs.
Proof.
  intros Hne Hall. induction Hall as [|s l Hs Hl IH]; [congruence|].
  destruct l as [|s' l]; [now apply Split_dotless|].
  rewrite Join_cons by discriminate.
  change ("." +:+ Join (s' :: l)) with (String "." (Join (s' :: l))).
  rewrite Split_app_dot by assumption. f_equal. now apply IH.
Qed.

End SplitFacts.

Section Insertion.
Context {T : Type}.
Variable zero : T.
Implicit Types (t n : Trie T) (segs ks : list string).

Lemma validSegment_patternSegment (s : string) :
  validSegment s true = true <-> patternSegment s.
Proof.
  unfold patternSegment, validSegment, literal. destruct s as [|c s]; [now split; [|intros [|]]|].
  destruct (String.eqb_spec (String c s) "*") as [Heq | Hne]; simpl.
  - split; [now right | reflexivity].
  - destruct (isLower c); simpl; split; auto; intros [H | H]; congruence.
Qed.

Lemma patternSegment_dotless (s : string) : patternSegment s -> dotless s = true.
Proof. intros [Hl | ->]; [now apply literal_dotless | reflexivity]. Qed.

Lemma Join_nonempty (s : string) (l : list string) : s <> "" -> Join (s :: l) <> "".
Proof.
  intros Hs. destruct l as [|s' l]; [exact Hs|]. rewrite Join_cons by discriminate.
  destruct s; [congruence | discriminate].
Qed.

(** [Insert] of a well-formed pattern succeeds and is [insertAt] along its
    segments. *)
Lemma Insert_Join t ks (v : T) :
  ks <> [] -> Forall patternSegment ks -> Exists (fun s => s <> "*") ks ->
  Insert zero (Some t) (Join ks) v = inl (insertAt zero ks (Join ks) v t).
Proof.
  intros Hne Hall Hex. unfold Insert, splitAndValidate.
  assert (Hnz : Join ks <> "").
  { destruct ks as [|s l]; [congruence|]. apply Join_nonempty.
    inversion Hall as [|? ? [Hl | ->] _]; subst; [destruct s; discriminate || congruence | discriminate]. }
  apply String.eqb_neq in Hnz. rewrite Hnz.
  rewrite Split_Join; [|assumption|].
  2:{ eapply Forall_impl; [exact Hall | apply patternSegment_dotless]. }
  assert (Hv : forallb (fun seg => validSegment seg true) ks = true).
  { apply forallb_forall. intros s Hs. apply validSegment_patternSegment.
    rewrite Forall_forall in Hall. apply Hall. now apply list_elem_of_In. }
  rewrite Hv.
  destruct ks as [|s l]; [congruence|]. cbn [length Nat.eqb].
  assert (Hw : forallb (fun s => String.eqb s "*") (s :: l) = false).
  { apply not_true_is_false. intros Hf. rewrite forallb_forall in Hf.
    apply Exists_exists in Hex as (x & Hx & Hxs). apply Hxs, String.eqb_eq, Hf.
    now apply list_elem_of_In. }
  now rewrite Hw.
Qed.

(** What a successful [Insert] did. *)
Lemma Insert_inl t (p : string) (v : T) t' :
  Insert zero (Some t) p v = inl t' ->
  p <> "" /\ Split p <> [] /\ t' = insertAt zero (Split p) p v t.
Proof.
  unfold Insert, splitAndValidate. destruct (String.eqb_spec p "") as [-> | Hp]; [discriminate|].
  destruct (forallb _ (Split p)); [|discriminate].
  destruct (Split p) as [|s l] eqn:Hs; [discriminate|]. cbn [length Nat.eqb].
  destruct (forallb _ (s :: l)); [discriminate|]. intros [= <-]. now repeat split.
Qed.


Lemma nodeBefore_New segs : nodeBefore zero segs (New zero) = New zero.
Proof. destruct segs as [|s segs]; [reflexivity|]. unfold nodeBefore. simpl. now rewrite lookup_empty. Qed.

Lemma nodeBefore_cons (s : string) segs t :
  nodeBefore zero (s :: segs) t
  = nodeBefore zero segs match children t !! s with
                         | Some child => child
                         | None => New zero
                         end.
Proof.
  unfold nodeBefore at 1. cbn [nodeAt].
  destruct (children t !! s) as [child|]; [reflexivity | now rewrite nodeBefore_New].
Qed.

(** The terminal node after an insertion: the children it had, the new value,
    and its old pattern text unless it had none. *)
Lemma nodeAt_insertAt segs (p : string) (v : T) t :
  nodeAt segs (insertAt zero segs p v t)
  = Some (mkTrie (children (nodeBefore zero segs t)) true v
            (if String.eqb (pattern (nodeBefore zero segs t)) "" then p
             else pattern (nodeBefore zero segs t))).
Proof.
  revert t. induction segs as [|s segs IH]; intros t; [reflexivity|].
  cbn [insertAt nodeAt children]. rewrite lookup_insert_eq, IH, (nodeBefore_cons s segs t).
  reflexivity.
Qed.

Lemma nodeBefore_after segs (p : string) (v : T) t :
  nodeBefore zero segs (insertAt zero segs p v t)
  = mkTrie (children (nodeBefore zero segs t)) true v
      (if String.eqb (pattern (nodeBefore zero segs t)) "" then p
       else pattern (nodeBefore zero segs t)).
Proof. unfold nodeBefore at 1. now rewrite nodeAt_insertAt. Qed.

(** In a trie that holds one pattern, the only node with a value is the node
    of that pattern. *)
Lemma single_registered ks (p : string) (v : T) ks' n :
  nodeAt ks' (insertAt zero ks p v (New zero)) = Some n -> hasVal n = true ->
  ks' = ks /\ val n = v /\ pattern n = p.
Proof.
  revert ks'. induction ks as [|k ks IH]; intros ks' Hat Hv.
  - destruct ks' as [|k' ks']; simpl in Hat.
    + injection Hat as <-. now repeat split.
    + now rewrite lookup_empty in Hat.
  - destruct ks' as [|k' ks']; simpl in Hat.
    + injection Hat as <-. discriminate Hv.
    + rewrite lookup_empty in Hat.
      destruct (decide (k = k')) as [<- | Hne].
      * rewrite lookup_insert_eq in Hat. apply IH in Hat as (-> & Hval & Hpat); auto.
      * rewrite lookup_insert_ne, lookup_empty in Hat by assumption. discriminate.
Qed.

(** Matching against a trie that holds one pattern. *)
Lemma MatchWithPattern_single ks (p : string) (v : T) (reason : string) :
  matchesPrefix ks (segmentsOf reason) ->
  MatchWithPattern zero (Some (insertAt zero ks p v (New zero))) reason = (v, true, p).
Proof.
  intros Hm. rewrite MatchWithPattern_walk. unfold finalState. cbv zeta.
  set (t := insertAt zero ks p v (New zero)). set (st0 := mkBestP (-1) zero "").
  destruct (walk_improves (segmentsOf reason) t 0 st0) as [Hs Hb].
  set (st := walk (segmentsOf reason) t 0 st0) in *.
  assert (Hc : candidateOf (segmentsOf reason) t 0 (0 + Z.of_nat (length ks), v, p)).
  { exists ks, (mkTrie (children (nodeBefore zero ks (New zero))) true v p). split; [|reflexivity].
    split; [|split; [reflexivity | assumption]].
    unfold t. rewrite nodeAt_insertAt, nodeBefore_New. reflexivity. }
  apply Hb in Hc. unfold depthOf in Hc. simpl in Hc.
  destruct Hs as [Heq | [(ks' & n & (Hat & Hv & _) & Hst) _]].
  - rewrite Heq in Hc. simpl in Hc. lia.
  - apply single_registered in Hat as (-> & Hval & Hpat); [|assumption].
    unfold stateOf in Hst. injection Hst as Hd Hv' Hp'.
    rewrite Hd, Hv', Hp', Hval, Hpat.
    destruct (0 + Z.of_nat (length ks) <? 0) eqn:Hlt; [apply Z.ltb_lt in Hlt; lia | reflexivity].
Qed.

Lemma MatchWithPattern_single_none ks (p : string) (v : T) (reason : string) :
  ~ matchesPrefix ks (segmentsOf reason) ->
  MatchWithPattern zero (Some (insertAt zero ks p v (New zero))) reason = (zero, false, "").
Proof.
  intros Hm. rewrite MatchWithPattern_walk. unfold finalState. cbv zeta.
  destruct (walk_improves (segmentsOf reason) (insertAt zero ks p v (New zero)) 0
              (mkBestP (-1) zero "")) as [[-> | [(ks' & n & (Hat & Hv & Hm') & _) _]] _].
  - reflexivity.
  - apply single_registered in Hat as (-> & _); [contradiction | assumption].
Qed.

End Insertion.

(** * The properties of the trie *)

(** C2, as stated, fails for the path [a.b]: with [a.*] at 5 and [a.b] at 1
    the trie contains the pattern [a.*], and [Match] on [a.b] returns 1, the
    value of the literal pattern, which the traversal visits first at the
    same depth. *)
Lemma wildcard_value_is_not_always_returned :
  exists t n,
    insertAll 0 [("a.*", 5); ("a.b", 1)] (New 0) = inl t /\
    nodeAt ["a"; "*"] t = Some n /\ hasVal n = true /\ val n = 5 /\
    pattern n = "a.*" /\
    Match 0 (Some t) "a.b" = (1, true) /\
    Match 0 (Some t) "a.b" <> (val n, true).
Proof.
  eexists. eexists. split; [vm_compute; reflexivity|].
  split; [vm_compute; reflexivity|]. split; [reflexivity|]. split; [reflexivity|].
  split; [reflexivity|]. split; [vm_compute; reflexivity|]. vm_compute. discriminate.
Qed.

(** C2, amended.  The wildcard of a pattern [a.*] stands for exactly one
    segment.  In every trie that holds [a.*]: the pattern is a candidate for
    exactly the paths of at least two segments that begin with [a], whatever
    the second segment is, so what [Match] finds on the path [a] comes from a
    pattern of at most one segment.  On the path [a.b], [Match] returns the
    value of the literal pattern [a.b] where that is registered, and the value
    of [a.*] otherwise.  On the path [a.b.c] it returns the same, found at
    depth two, unless a pattern of three segments is registered and matches.
    In the trie that holds [a.*] alone, [a] finds nothing and both [a.b] and
    [a.b.c] find its value. *)
Theorem wildcard_matches_exactly_one_segment {T : Type} (zero : T) (a b c : string) :
  literal a = true -> literal b = true -> literal c = true ->
  (forall (t n : Trie T),
      nodeAt [a; "*"] t = Some n -> hasVal n = true ->
      let winner :=
        match nodeAt [a; b] t with
        | Some n' => if hasVal n' then n' else n
        | None => n
        end in
      (forall segs, registered t segs [a; "*"] n <-> exists s rest, segs = a :: s :: rest) /\
      (forall v pat, MatchWithPattern zero (Some t) (Join [a]) = (v, true, pat) ->
         exists ks n', (length ks <= 1)%nat /\ nodeAt ks t = Some n' /\ hasVal n' = true /\
                       val n' = v /\ pattern n' = pat) /\
      (MatchWithPattern zero (Some t) (Join [a; b]) = (val winner, true, pattern winner) /\
       Match zero (Some t) (Join [a; b]) = (val winner, true)) /\
      ((forall ks n', registered t [a; b; c] ks n' -> (length ks <= 2)%nat) ->
       MatchWithPattern zero (Some t) (Join [a; b; c]) = (val winner, true, pattern winner) /\
       Match zero (Some t) (Join [a; b; c]) = (val winner, true))) /\
  (forall v : T,
      exists t,
        Insert zero (Some (New zero)) (Join [a; "*"]) v = inl t /\
        Match zero (Some t) (Join [a]) = (zero, false) /\
        Match zero (Some t) (Join [a; b]) = (v, true) /\
        Match zero (Some t) (Join [a; b; c]) = (v, true) /\
        MatchWithPattern zero (Some t) (Join [a; b; c]) = (v, true, Join [a; "*"])).
Proof.
  intros Ha Hb Hc.
  assert (Hs1 : segmentsOf (Join [a]) = [a])
    by (apply segmentsOf_Join; repeat constructor; assumption).
  assert (Hs2 : segmentsOf (Join [a; b]) = [a; b])
    by (apply segmentsOf_Join; repeat constructor; assumption).
  assert (Hs3 : segmentsOf (Join [a; b; c]) = [a; b; c])
    by (apply segmentsOf_Join; repeat constructor; assumption).
  assert (Hm2 : forall s rest, matchesPrefix [a; "*"] (a :: s :: rest)).
  { intros s rest. apply matchesPrefix_cons. split; [now right|].
    apply matchesPrefix_cons. split; [now left | apply matchesPrefix_nil]. }
  assert (Hearly : forall rest ks', length ks' = 2%nat ->
             earlier (a :: b :: rest) ks' [a; "*"] -> ks' = [a; b]).
  { intros rest ks' Hlen He. destruct ks' as [|k1 [|k2 [|k3 ks']]]; try discriminate Hlen.
    simpl in He. destruct He as [(_ & Hstar & _) | (-> & [(-> & _) | (_ & He)])];
      [now apply literal_not_star in Hstar | reflexivity | now destruct rest]. }
  assert (Hwin : forall (t n : Trie T) reason rest,
             nodeAt [a; "*"] t = Some n -> hasVal n = true ->
             segmentsOf reason = a :: b :: rest ->
             (forall ks n', registered t (a :: b :: rest) ks n' -> (length ks <= 2)%nat) ->
             let winner :=
               match nodeAt [a; b] t with
               | Some n' => if hasVal n' then n' else n
               | None => n
               end in
             MatchWithPattern zero (Some t) reason = (val winner, true, pattern winner) /\
             Match zero (Some t) reason = (val winner, true)).
  { intros t n reason rest Hat Hv Hs Hmax. cbv zeta.
    assert (Hm : MatchWithPattern zero (Some t) reason
                 = (val match nodeAt [a; b] t with
                        | Some n' => if hasVal n' then n' else n
                        | None => n
                        end, true,
                    pattern match nodeAt [a; b] t with
                            | Some n' => if hasVal n' then n' else n
                            | None => n
                            end)).
    { destruct (nodeAt [a; b] t) as [n'|] eqn:Hat'; [destruct (hasVal n') eqn:Hv'|].
      - apply (MatchWithPattern_first_of zero [a; b]); rewrite ?Hs; try assumption.
        + change [a; b] with (firstn 2 (a :: b :: rest)).
          apply matchesPrefix_firstn. simpl. lia.
        + intros ks' n'' _ _. change [a; b] with (firstn 2 (a :: b :: rest)).
          apply earlier_firstn.
      - apply (MatchWithPattern_first_of zero [a; "*"]); rewrite ?Hs; try assumption.
        + apply Hm2.
        + intros ks' n'' (Hat'' & Hv'' & _) Hlen He. apply Hearly in He as ->; [|assumption].
          congruence.
      - apply (MatchWithPattern_first_of zero [a; "*"]); rewrite ?Hs; try assumption.
        + apply Hm2.
        + intros ks' n'' (Hat'' & Hv'' & _) Hlen He. apply Hearly in He as ->; [|assumption].
          congruence. }
    split; [exact Hm | now rewrite Match_MatchWithPattern, Hm]. }
  split.
  - intros t n Hat Hv. cbv zeta. split; [|split; [|split]].
    + intros segs. split.
      * intros (_ & _ & pre & post & -> & Hall).
        inversion Hall as [|k x ks pre' Hk Hks]; subst.
        inversion Hks as [|k' y ks' pre'' Hk' Hks']; subst.
        inversion Hks'; subst.
        destruct Hk as [Hk | <-]; [now apply literal_not_star in Hk|].
        now exists y, post.
      * intros (s & rest & ->). split; [exact Hat | split; [exact Hv | apply Hm2]].
    + intros v pat Hm.
      destruct (MatchWithPattern_deepest zero t _ v pat Hm) as (ks & n' & Hreg & Hval & Hpat & _).
      rewrite Hs1 in Hreg. destruct Hreg as (Hat' & Hv' & Hmp).
      apply matchesPrefix_length in Hmp. exists ks, n'. now repeat split.
    + apply (Hwin t n (Join [a; b]) [] Hat Hv Hs2).
      intros ks' n' (_ & _ & Hmp). now apply matchesPrefix_length in Hmp.
    + intros Hmax. apply (Hwin t n (Join [a; b; c]) [c] Hat Hv Hs3 Hmax).
  - intros v. exists (insertAt zero [a; "*"] (Join [a; "*"]) v (New zero)).
    assert (H1 : MatchWithPattern zero (Some (insertAt zero [a; "*"] (Join [a; "*"]) v (New zero)))
                   (Join [a]) = (zero, false, "")).
    { apply MatchWithPattern_single_none. rewrite Hs1.
      intros Hm. apply matchesPrefix_cons in Hm as [_ Hm].
      apply matchesPrefix_of_nil in Hm. discriminate. }
    assert (H2 : MatchWithPattern zero (Some (insertAt zero [a; "*"] (Join [a; "*"]) v (New zero)))
                   (Join [a; b]) = (v, true, Join [a; "*"])).
    { apply MatchWithPattern_single. rewrite Hs2. apply Hm2. }
    assert (H3 : MatchWithPattern zero (Some (insertAt zero [a; "*"] (Join [a; "*"]) v (New zero)))
                   (Join [a; b; c]) = (v, true, Join [a; "*"])).
    { apply MatchWithPattern_single. rewrite Hs3. apply Hm2. }
    split; [|rewrite !Match_MatchWithPattern, H1, H2, H3; now repeat split].
    apply Insert_Join; [discriminate | |].
    + constructor; [now left | constructor; [now right | constructor]].
    + apply Exists_cons_hd. now apply literal_not_star.
Qed.

Lemma wildcard_matches_exactly_one_segment_witness :
  (exists t,
      Insert 0 (Some (New 0)) "a.*" 5 = inl t /\
      Match 0 (Some t) "a" = (0, false) /\
      Match 0 (Some t) "a.b" = (5, true) /\
      Match 0 (Some t) "a.b.c" = (5, true) /\
      MatchWithPattern 0 (Some t) "a.b.c" = (5, true, "a.*")) /\
  (exists t n,
      insertAll 0 [("a.*", 5); ("a.b", 1)] (New 0) = inl t /\
      nodeAt ["a"; "*"] t = Some n /\ val n = 5 /\
      Match 0 (Some t) "a.b" = (1, true)).
Proof.
  split.
  - exact (proj2 (wildcard_matches_exactly_one_segment 0 "a" "b" "c"
                    eq_refl eq_refl eq_refl) 5).
  - eexists. eexists. split; [vm_compute; reflexivity|].
    split; [vm_compute; reflexivity|]. split; [reflexivity|].
    refine (proj2 (proj1 (proj2 (proj2 (proj1
             (wildcard_matches_exactly_one_segment 0 "a" "b" "c"
                eq_refl eq_refl eq_refl) _ _ _ _))))); reflexivity.
Defined.

(** C3. Specificity is the depth of the matched pattern, whatever its kind:
    what [Match] returns is the value of a registered pattern that matches a
    segment-aligned prefix of the path, and no registered pattern that matches
    is longer; it finds something as soon as some registered pattern matches.
    With [a.*.c] at 7 and [a.b] at 1, the path [a.b.c] yields 7. *)
Theorem deepest_pattern_wins :
  (forall (T : Type) (zero : T) (t : Trie T) (reason : string),
      (forall v pat, MatchWithPattern zero (Some t) reason = (v, true, pat) ->
         exists ks n,
           registered t (segmentsOf reason) ks n /\ val n = v /\ pattern n = pat /\
           forall ks' n', registered t (segmentsOf reason) ks' n' ->
                          (length ks' <= length ks)%nat) /\
      ((exists ks n, registered t (segmentsOf reason) ks n) ->
         exists v pat, MatchWithPattern zero (Some t) reason = (v, true, pat)) /\
      Match zero (Some t) reason = fst (MatchWithPattern zero (Some t) reason)) /\
  (forall segs, Forall (fun s => literal s = true) segs -> segmentsOf (Join segs) = segs) /\
  (exists t, insertAll 0 depthRules (New 0) = inl t /\
             Match 0 (Some t) "a.b.c" = (7, true) /\
             MatchWithPattern 0 (Some t) "a.b.c" = (7, true, "a.*.c") /\
             Match 0 (Some t) "a.b" = (1, true)).
Proof.
  split; [|split; [exact segmentsOf_Join|]].
  - intros T zero t reason. split; [|split].
    + apply MatchWithPattern_deepest.
    + intros (ks & n & Hreg). now apply (MatchWithPattern_finds zero t reason ks n).
    + apply Match_MatchWithPattern.
  - eexists. split; [vm_compute; reflexivity|]. now vm_compute.
Qed.

(** C4. At the greatest matched depth the literal pattern wins: when the
    pattern made of the first [d] segments of the path is registered and no
    registered pattern that matches is longer, [Match] returns its value,
    whichever wildcard patterns match at that depth too.  With
    [auth.*.verify] at 1 and [auth.jwt.verify] at 2, the path
    [auth.jwt.verify] yields 2 and [auth.saml.verify.token] yields 1. *)
Theorem literal_beats_wildcard_at_equal_depth :
  (forall (T : Type) (zero : T) (t : Trie T) (reason : string) (d : nat) (n : Trie T),
      nodeAt (firstn d (segmentsOf reason)) t = Some n ->
      (d <= length (segmentsOf reason))%nat ->
      hasVal n = true ->
      (forall ks' n', registered t (segmentsOf reason) ks' n' -> (length ks' <= d)%nat) ->
      MatchWithPattern zero (Some t) reason = (val n, true, pattern n) /\
      Match zero (Some t) reason = (val n, true)) /\
  (exists t, insertAll 0 wildcardRules (New 0) = inl t /\
             Match 0 (Some t) "auth.jwt.verify" = (2, true) /\
             Match 0 (Some t) "auth.saml.verify.token" = (1, true) /\
             MatchWithPattern 0 (Some t) "auth.jwt.verify" = (2, true, "auth.jwt.verify") /\
             MatchWithPattern 0 (Some t) "auth.saml.verify.token" = (1, true, "auth.*.verify")).
Proof.
  split.
  - intros T zero t reason d n Hat Hd Hv Hmax.
    assert (Hm : MatchWithPattern zero (Some t) reason = (val n, true, pattern n)).
    { rewrite MatchWithPattern_walk. unfold finalState. cbv zeta.
      rewrite (walk_literal (segmentsOf reason) d t 0 (mkBestP (-1) zero "") n Hat Hd Hv).
      - cbn [pDepth pVal pPat]. destruct (0 + Z.of_nat d <? 0) eqn:Hlt; [apply Z.ltb_lt in Hlt; lia | reflexivity].
      - intros c (ks' & n' & Hreg & ->). apply Hmax in Hreg. unfold depthOf. simpl. lia.
      - simpl. lia. }
    split; [exact Hm | now rewrite Match_MatchWithPattern, Hm].
  - eexists. split; [vm_compute; reflexivity|]. now vm_compute.
Qed.

(** C5, as stated, fails: with [auth.*.verify] at 1 and [auth.jwt.verify] at 2
    the traversal of [auth.jwt.verify] finds two candidates at depth 3, the
    literal one first and the wildcard one last, and [Match] returns the value
    of the first. *)
Lemma last_candidate_is_not_kept :
  exists t,
    insertAll 0 wildcardRules (New 0) = inl t /\
    found (segmentsOf "auth.jwt.verify") t 0
    = [(3, 2, "auth.jwt.verify"); (3, 1, "auth.*.verify")] /\
    lastDeepest (found (segmentsOf "auth.jwt.verify") t 0) = Some (3, 1, "auth.*.verify") /\
    Match 0 (Some t) "auth.jwt.verify" = (2, true) /\
    MatchWithPattern 0 (Some t) "auth.jwt.verify"
    <> report 0 (lastDeepest (found (segmentsOf "auth.jwt.verify") t 0)).
Proof.
  eexists. split; [vm_compute; reflexivity|].
  split; [vm_compute; reflexivity|]. split; [vm_compute; reflexivity|].
  split; [vm_compute; reflexivity|]. vm_compute. discriminate.
Qed.

(** C5, amended.  The state of the traversal is updated by each value-carrying
    node it visits, in the order of the visit and only by a strictly deeper
    one; so among the candidates of greatest depth [Match] keeps the first. *)
Theorem first_deepest_candidate_is_kept {T : Type} (zero : T) (t : Trie T) (reason : string) :
  (forall st, dfsP (S (String.length reason)) reason t 0 0 st
              = fold_left update (found (segmentsOf reason) t 0) st) /\
  MatchWithPattern zero (Some t) reason
  = report zero (firstDeepest (found (segmentsOf reason) t 0)) /\
  Match zero (Some t) reason
  = fst (report zero (firstDeepest (found (segmentsOf reason) t 0))).
Proof.
  split; [|split].
  - intros st. rewrite dfsP_walk by lia. apply walk_found.
  - apply MatchWithPattern_first.
  - rewrite Match_MatchWithPattern. f_equal. apply MatchWithPattern_first.
Qed.

(** C6. A path is read segment by segment; the first segment that is not a
    literal (a first byte outside [a-z], or a later byte outside [a-z0-9_]
    before the next dot) ends the traversal without an error, and the result
    is the one of the path cut before that segment. *)
Theorem invalid_segment_stops_matching {T : Type} (zero : T) (t : Trie T)
    (segs : list string) (bad rest : string) :
  Forall (fun s => literal s = true) segs ->
  literal bad = false -> dotless bad = true -> boundary rest ->
  segmentsOf (Join (segs ++ [bad]) +:+ rest) = segs /\
  Match zero (Some t) (Join (segs ++ [bad]) +:+ rest) = Match zero (Some t) (Join segs) /\
  MatchWithPattern zero (Some t) (Join (segs ++ [bad]) +:+ rest)
  = MatchWithPattern zero (Some t) (Join segs).
Proof.
  intros Hall Hb Hd Hr.
  assert (Hsegs : segmentsOf (Join (segs ++ [bad]) +:+ rest) = segs)
    by now apply segmentsOf_Join_bad.
  assert (Hm : MatchWithPattern zero (Some t) (Join (segs ++ [bad]) +:+ rest)
               = MatchWithPattern zero (Some t) (Join segs)).
  { rewrite !MatchWithPattern_walk. unfold finalState.
    now rewrite Hsegs, segmentsOf_Join. }
  split; [exact Hsegs | split; [|exact Hm]].
  now rewrite !Match_MatchWithPattern, Hm.
Qed.

Lemma invalid_segment_stops_matching_witness :
  exists t,
    insertAll 0 wildcardRules (New 0) = inl t /\
    Match 0 (Some t) "auth.jwt.verify.Token.x" = Match 0 (Some t) "auth.jwt.verify" /\
    Match 0 (Some t) "auth.jwt.verify" = (2, true).
Proof.
  eexists. split; [vm_compute; reflexivity|]. split; [|vm_compute; reflexivity].
  refine (proj1 (proj2 (invalid_segment_stops_matching 0 _ ["auth"; "jwt"; "verify"]
                          "Token" ".x" _ _ _ _))).
  - repeat constructor.
  - reflexivity.
  - reflexivity.
  - right. now exists "x".
Defined.



(** C10. The operations are total on a nil receiver: [Insert] reports
    [ErrInvalidPrefix], [Match] and [MatchWithPattern] report no match, with
    the zero value and the empty pattern, whatever the string. *)
Theorem nil_receiver_is_safe {T : Type} (zero : T) (s : string) (v : T) :
  Insert zero None s v = inr ErrInvalidPrefix /\
  Match zero None s = (zero, false) /\
  MatchWithPattern zero None s = (zero, false, "").
Proof. repeat split. Qed.

(** ** The remaining cases of the package's tests *)

(** No match across a segment boundary ([TestPrefix_LPM_And_SegmentBoundary]). *)
Example segment_boundary :
  exists t,
    Insert 0 (Some (New 0)) "auth.jwt" 499 = inl t /\
    Match 0 (Some t) "auth.j" = (0, false) /\
    Match 0 (Some t) "auth.jwt.refresh" = (499, true).
Proof. eexists. split; [vm_compute; reflexivity|]. now vm_compute. Qed.

(** The prefixes that [Insert] refuses ([TestInvalidInputs]). *)
Example invalid_inputs :
  Insert 0 (Some (New 0)) "" 1 = inr ErrInvalidPrefix /\
  Insert 0 (Some (New 0)) "UPPER.case" 1 = inr ErrInvalidPrefix /\
  Insert 0 (Some (New 0)) "a..b" 1 = inr ErrInvalidPrefix /\
  Insert 0 (Some (New 0)) "*" 1 = inr ErrInvalidPrefix /\
  MatchWithPattern 0 (Some (New 0)) "UPPER.case" = (0, false, "") /\
  MatchWithPattern 0 (Some (New 0)) "a..b" = (0, false, "").
Proof. now vm_compute. Qed.

(** * The mapper *)

Import mapper MapperSpec.

Section Resolution.

(** Both resolutions follow the precedence of the four tiers. *)
Lemma fourTier_walk {V : Type} (zero : V)
    (override : gmap code.Code V) (tries : gmap code.Code (option (Trie V)))
    (default : gmap code.Code V) (fallback : V) (c : code.Code) (r : reason.Reason) :
  fourTier zero override tries default fallback c r
    match override !! c with
    | Some v => v
    | None =>
        let fromDefault :=
          match default !! c with
          | Some v => v
          | None => fallback
          end in
        match tries !! c with
        | Some (Some idx) =>
            match Match zero (Some idx) r with
            | (v, true) => v
            | (_, false) => fromDefault
            end
        | _ => fromDefault
        end
    end.
Proof.
  unfold fourTier, noPrefixHit. destruct (override !! c) as [vo|].
  - repeat split; try discriminate. now intros v [= <-].
  - cbv zeta. split; [discriminate|].
    destruct (tries !! c) as [[t|]|].
    + destruct (Match zero (Some t) r) as [vm [|]] eqn:Hm.
      * split; [intros _ t' v [= <-] Hv; rewrite Hm in Hv; now injection Hv|].
        split; intros _ Hno; specialize (Hno t eq_refl); rewrite Hm in Hno; discriminate.
      * split; [intros _ t' v [= <-] Hv; rewrite Hm in Hv; discriminate|].
        destruct (default !! c); split; intros; congruence.
    + split; [discriminate|]. destruct (default !! c); split; intros; congruence.
    + split; [discriminate|]. destruct (default !! c); split; intros; congruence.
Qed.

(** An explanation that walks the tiers in the same order explains the
    resolution. *)
Lemma explains_walk {V : Type} (zero : V)
    (override : gmap code.Code V) (tries : gmap code.Code (option (Trie V)))
    (default : gmap code.Code V) (fallback : V) (render : tier -> V -> string -> string)
    (c : code.Code) (r : reason.Reason) :
  let resolved :=
    match override !! c with
    | Some v => v
    | None =>
        let fromDefault := match default !! c with Some v => v | None => fallback end in
        match tries !! c with
        | Some (Some idx) =>
            match Match zero (Some idx) r with
            | (v, true) => v
            | (_, false) => fromDefault
            end
        | _ => fromDefault
        end
    end in
  let explained :=
    match override !! c with
    | Some v => (tierName Override, render Override v "")
    | None =>
        let fromDefault :=
          match default !! c with
          | Some v => (tierName Default, render Default v "")
          | None => (tierName Fallback, render Fallback fallback "")
          end in
        match tries !! c with
        | Some (Some idx) =>
            match MatchWithPattern zero (Some idx) r with
            | (v, true, pat) => (tierName Prefix, render Prefix v pat)
            | (_, false, _) => fromDefault
            end
        | _ => fromDefault
        end
    end in
  explains zero override tries default fallback render c r resolved
    (fst explained) (snd explained).
Proof.
  cbv zeta. unfold explains, noPrefixHit.
  destruct (override !! c) as [vo|]; [left; now repeat split|]. right.
  destruct (tries !! c) as [[t|]|] eqn:Ht.
  - rewrite Match_MatchWithPattern.
    destruct (MatchWithPattern zero (Some t) r) as [[v ok] pat] eqn:Hm. destruct ok; cbn [fst snd].
    + left. split; [reflexivity|].
      destruct (MatchWithPattern_deepest zero t r v pat Hm) as (ks & n & Hreg & Hv & Hp & _).
      exists t, pat, ks, n.
      split; [reflexivity|]. split; [exact Hm|]. split; [exact Hreg|]. now repeat split.
    + right.
      assert (Hno : forall t', Some (Some t) = Some (Some t') ->
                               snd (Match zero (Some t') r) = false)
        by (intros t' [= <-]; now rewrite Match_MatchWithPattern, Hm).
      destruct (default !! c); [left | right]; now repeat split.
  - right.
    assert (Hno : forall t' : Trie V, Some None = Some (Some t') ->
                                      snd (Match zero (Some t') r) = false)
      by (intros t' Hc; discriminate).
    destruct (default !! c); [left | right]; now repeat split.
  - right.
    assert (Hno : forall t' : Trie V, None = Some (Some t') ->
                                      snd (Match zero (Some t') r) = false)
      by (intros t' Hc; discriminate).
    destruct (default !! c); [left | right]; now repeat split.
Qed.

Lemma HTTPStatus_fourTier (m : mapper) (c : code.Code) (r : reason.Reason) :
  fourTier 0 (httpOverride m) (httpTrie m) (httpDefault m) 500 c r (HTTPStatus m c r).
Proof. apply fourTier_walk. Qed.

Lemma GRPCStatus_fourTier (m : mapper) (c : code.Code) (r : reason.Reason) :
  fourTier 0 (grpcOverride m) (grpcTrie m) (grpcDefault m) codes.Internal c r
    (GRPCStatus m c r).
Proof. apply fourTier_walk. Qed.

End Resolution.

(** ** What [New] builds *)

Section Building.
Context `{Runtime}.

Lemma configure_fallbacks (opts : list Option) :
  bFallbackHTTP (configure opts) = 500 /\ bFallbackGRPC (configure opts) = codes.Internal.
Proof.
  unfold configure.
  assert (Hgen : forall b, bFallbackHTTP (fold_left (fun b opt => applyOption opt b) opts b)
                           = bFallbackHTTP b
                           /\ bFallbackGRPC (fold_left (fun b opt => applyOption opt b) opts b)
                              = bFallbackGRPC b).
  { induction opts as [|opt opts IH]; intros b; [now split|].
    simpl. destruct (IH (applyOption opt b)) as [-> ->]. now destruct opt. }
  apply Hgen.
Qed.

(** An insertion never gives the root a value. *)
Lemma Insert_root {T : Type} (zero : T) (t t' : Trie T) (p : string) (v : T) :
  Insert zero (Some t) p v = inl t' -> hasVal t' = hasVal t.
Proof.
  intros Hi. apply Insert_inl in Hi as (_ & Hs & ->).
  destruct (Split p); [congruence | reflexivity].
Qed.

Lemma insertRules_root {T : Type} (zero : T) (conv : Z -> T) (f : family) (c : code.Code)
    (rules : list prefixRule) (t t' : Trie T) :
  insertRules zero conv f c rules t = inl t' -> hasVal t' = hasVal t.
Proof.
  revert t. induction rules as [|r rules IH]; intros t; cbn [insertRules]; [now intros [= <-]|].
  destruct (normalizeAndValidatePrefix (prefix r)) as [p|]; [|discriminate].
  destruct (Insert zero (Some t) p (conv (ruleVal r))) as [t1|] eqn:Hi; [|discriminate].
  intros Hr. apply IH in Hr. apply Insert_root in Hi. congruence.
Qed.

Lemma buildTries_rootless {T : Type} (zero : T) (conv : Z -> T) (f : family)
    (entries : list (code.Code * list prefixRule)) (acc tries : gmap code.Code (option (Trie T))) :
  rootless acc -> buildTries zero conv f entries acc = inl tries -> rootless tries.
Proof.
  revert acc. induction entries as [|[c rules] entries IH]; intros acc Hacc; cbn [buildTries].
  - now intros [= <-].
  - destruct (length rules =? 0)%nat; [now apply IH|].
    destruct (insertRules zero conv f c rules (segmenttrie.New zero)) as [t|] eqn:Hr; [|discriminate].
    apply IH. intros c' o. destruct (decide (c = c')) as [<- | Hne].
    + rewrite lookup_insert_eq. intros [= <-]. exists t. split; [reflexivity|].
      now apply insertRules_root in Hr.
    + rewrite lookup_insert_ne by assumption. apply Hacc.
Qed.

End Building.

Section Snapshot.
Context `{Runtime}.

Lemma New_inl (opts : list Option) (m : mapper) :
  New opts = inl m ->
  rootless (httpTrie m) /\ rootless (grpcTrie m) /\
  fallbackHTTP m = 500 /\ fallbackGRPC m = codes.Internal.
Proof.
  unfold New, freeze.
  destruct (buildTries 0 _ HTTP _ ∅) as [ht|] eqn:Hh; [|discriminate].
  destruct (buildTries 0 _ GRPC _ ∅) as [gt|] eqn:Hg; [|discriminate].
  intros [= <-]. cbn [httpTrie grpcTrie fallbackHTTP fallbackGRPC].
  destruct (configure_fallbacks opts) as [-> ->].
  assert (Hempty : forall T, rootless (∅ : gmap code.Code (option (Trie T)))).
  { intros T c o Hc. now rewrite lookup_empty in Hc. }
  repeat split.
  - exact (buildTries_rootless _ _ _ _ _ _ (Hempty _) Hh).
  - exact (buildTries_rootless _ _ _ _ _ _ (Hempty _) Hg).
Qed.

(** On the empty reason a trie whose root has no value reports no match. *)
Lemma Match_Empty {T : Type} (zero : T) (t : Trie T) :
  hasVal t = false -> Match zero (Some t) reason.Empty = (zero, false).
Proof.
  intros Hv. rewrite Match_MatchWithPattern, MatchWithPattern_walk.
  unfold finalState, reason.Empty. change (segmentsOf "") with (@nil string).
  cbn [walk]. unfold visitP. now rewrite Hv.
Qed.

Lemma rootless_noPrefixHit {T : Type} (zero : T) (tries : gmap code.Code (option (Trie T)))
    (c : code.Code) :
  rootless tries -> noPrefixHit zero tries c reason.Empty.
Proof.
  intros Hr t Ht. apply Hr in Ht as (t' & [= <-] & Hv). now rewrite Match_Empty.
Qed.

Lemma TrimSuffix_nl (s : string) : TrimSuffix (s +:+ nl) nl = s.
Proof.
  induction s as [|c s IH]; [reflexivity|].
  rewrite str_app_cons. cbn [TrimSuffix].
  assert (Hne : String.eqb (String c (s +:+ nl)) nl = false).
  { apply String.eqb_neq. unfold nl. intros [= _ He].
    apply (f_equal String.length) in He. rewrite str_length_app in He. simpl in He. lia. }
  now rewrite Hne, IH.
Qed.

End Snapshot.

(** C1. [HTTPStatus] and [GRPCStatus] resolve by the precedence of the four
    tiers: the override of the code; otherwise the value of the prefix match
    when the code has a trie and the match succeeds; otherwise the default of
    the code; otherwise 500, respectively [Internal].  They are functions, so a
    value always comes out: for a code without any rule it is the fallback,
    and for the empty reason the prefix tier of a built mapper never hits. *)
Theorem resolution_follows_four_tiers :
  (forall (m : mapper) (c : code.Code) (r : reason.Reason),
      fourTier 0 (httpOverride m) (httpTrie m) (httpDefault m) 500 c r (HTTPStatus m c r) /\
      fourTier 0 (grpcOverride m) (grpcTrie m) (grpcDefault m) codes.Internal c r
        (GRPCStatus m c r)) /\
  (forall (m : mapper) (c : code.Code) (r : reason.Reason),
      httpOverride m !! c = None -> httpTrie m !! c = None -> httpDefault m !! c = None ->
      grpcOverride m !! c = None -> grpcTrie m !! c = None -> grpcDefault m !! c = None ->
      HTTPStatus m c r = 500 /\ GRPCStatus m c r = codes.Internal) /\
  (forall (R : Runtime) (opts : list Option) (m : mapper) (c : code.Code),
      New opts = inl m ->
      noPrefixHit 0 (httpTrie m) c reason.Empty /\
      noPrefixHit 0 (grpcTrie m) c reason.Empty /\
      HTTPStatus m c reason.Empty
      = match httpOverride m !! c with
        | Some v => v
        | None => match httpDefault m !! c with Some v => v | None => 500 end
        end /\
      GRPCStatus m c reason.Empty
      = match grpcOverride m !! c with
        | Some v => v
        | None => match grpcDefault m !! c with Some v => v | None => codes.Internal end
        end).
Proof.
  split; [|split].
  - intros m c r. split; [apply HTTPStatus_fourTier | apply GRPCStatus_fourTier].
  - intros m c r Ho Ht Hd Ho' Ht' Hd'. split.
    + unfold HTTPStatus. now rewrite Ho, Ht, Hd.
    + unfold GRPCStatus. now rewrite Ho', Ht', Hd'.
  - intros R opts m c Hnew. apply New_inl in Hnew as (Hh & Hg & _ & _).
    pose proof (rootless_noPrefixHit 0 (httpTrie m) c Hh) as Hnh.
    pose proof (rootless_noPrefixHit 0 (grpcTrie m) c Hg) as Hng.
    split; [exact Hnh | split; [exact Hng | split]].
    + unfold HTTPStatus. destruct (httpOverride m !! c); [reflexivity|].
      destruct (httpTrie m !! c) as [[t|]|] eqn:Ht; try reflexivity.
      specialize (Hnh t Ht). destruct (Match 0 (Some t) reason.Empty) as [v [|]];
        [discriminate | reflexivity].
    + unfold GRPCStatus. destruct (grpcOverride m !! c); [reflexivity|].
      destruct (grpcTrie m !! c) as [[t|]|] eqn:Ht; try reflexivity.
      specialize (Hng t Ht). destruct (Match 0 (Some t) reason.Empty) as [v [|]];
        [discriminate | reflexivity].
Qed.

(** Whatever the tier, the line of an explanation ends with the value. *)
Lemma httpLine_shows `{Runtime} (s : tier) (v : Z) (pat : string) :
  showsHTTP (httpLine s v pat) v.
Proof.
  destruct s; cbn [httpLine].
  - now exists "http: source=override".
  - exists ("http: source=prefix pattern=" +:+ fmt_q pat). now rewrite !str_app_assoc.
  - now exists "http: source=default".
  - now exists "http source=fallback".
Qed.

Lemma grpcLine_shows `{Runtime} (s : tier) (v : codes.Code) (pat : string) :
  showsGRPC (grpcLine s v pat) v.
Proof.
  destruct s; cbn [grpcLine].
  - now exists "grpc: source=override".
  - exists ("grpc: source=prefix pattern=" +:+ fmt_q pat). now rewrite !str_app_assoc.
  - now exists "grpc: source=default".
  - now exists "grpc: source=fallback".
Qed.

(** The line of an explanation is the rendering of some tier with the
    resolved value. *)
Lemma explains_line {V : Type} (zero : V)
    (override : gmap code.Code V) (tries : gmap code.Code (option (Trie V)))
    (default : gmap code.Code V) (fallback : V) (render : tier -> V -> string -> string)
    (c : code.Code) (r : reason.Reason) (resolved : V) (src line : string) :
  explains zero override tries default fallback render c r resolved src line ->
  exists s pat, line = render s resolved pat.
Proof.
  intros [(_ & _ & ->) | [(_ & t & p & ks & n & _ & _ & _ & _ & _ & _ & ->)
                         | [(_ & _ & _ & _ & ->) | (_ & _ & _ & _ & _ & ->)]]]; eauto.
Qed.

(** C9. [Explain] walks the same four tiers as the resolution and agrees with
    it: for each transport the source it names is the tier that decided, the
    value in its line is the resolved status, and for a prefix hit the pattern
    in its line is the text stored at the winning node of the trie.  The HTTP
    line ends with the number of the resolved HTTP status; the gRPC line ends
    with the name of the resolved gRPC code, in upper case, and its number
    between parentheses.  The output is the header followed by the two lines,
    a function of the mapper, the code and the reason. *)
Theorem explain_agrees_with_resolution (R : Runtime) (opts : list Option) (m : mapper)
    (c : code.Code) (r : reason.Reason) :
  New opts = inl m ->
  explains 0 (httpOverride m) (httpTrie m) (httpDefault m) 500 httpLine c r
    (HTTPStatus m c r) (fst (explainHTTP m c r)) (snd (explainHTTP m c r)) /\
  explains 0 (grpcOverride m) (grpcTrie m) (grpcDefault m) codes.Internal grpcLine c r
    (GRPCStatus m c r) (fst (explainGRPC m c r)) (snd (explainGRPC m c r)) /\
  Explain m c r
  = "code=" +:+ fmt_q c +:+ " reason=" +:+ fmt_q r +:+ nl
    +:+ snd (explainHTTP m c r) +:+ nl +:+ snd (explainGRPC m c r) /\
  showsHTTP (snd (explainHTTP m c r)) (HTTPStatus m c r) /\
  showsGRPC (snd (explainGRPC m c r)) (GRPCStatus m c r).
Proof.
  intros Hnew. apply New_inl in Hnew as (_ & _ & Hfh & Hfg).
  assert (Hh : explains 0 (httpOverride m) (httpTrie m) (httpDefault m) 500 httpLine c r
                 (HTTPStatus m c r) (fst (explainHTTP m c r)) (snd (explainHTTP m c r))).
  { pose proof (explains_walk 0 (httpOverride m) (httpTrie m) (httpDefault m) 500
                  httpLine c r) as Hx.
    unfold explainHTTP, HTTPStatus. rewrite Hfh. exact Hx. }
  assert (Hg : explains 0 (grpcOverride m) (grpcTrie m) (grpcDefault m) codes.Internal
                 grpcLine c r
                 (GRPCStatus m c r) (fst (explainGRPC m c r)) (snd (explainGRPC m c r))).
  { pose proof (explains_walk 0 (grpcOverride m) (grpcTrie m) (grpcDefault m) codes.Internal
                  grpcLine c r) as Hx.
    unfold explainGRPC, GRPCStatus. rewrite Hfg. exact Hx. }
  split; [exact Hh | split; [exact Hg | split; [|split]]].
  - assert (Hks : knownSource (fst (explainHTTP m c r)) = true).
    { destruct Hh as [(_ & Hs & _) | [(_ & t & p & ks & n & _ & _ & _ & _ & _ & Hs & _)
                     | [(_ & _ & _ & Hs & _) | (_ & _ & _ & _ & Hs & _)]]];
        rewrite Hs; reflexivity. }
    assert (Hkg : knownSource (fst (explainGRPC m c r)) = true).
    { destruct Hg as [(_ & Hs & _) | [(_ & t & p & ks & n & _ & _ & _ & _ & _ & Hs & _)
                     | [(_ & _ & _ & Hs & _) | (_ & _ & _ & _ & Hs & _)]]];
        rewrite Hs; reflexivity. }
    unfold Explain. destruct (explainHTTP m c r) as [srcH lineH].
    destruct (explainGRPC m c r) as [srcG lineG]. cbn [fst snd] in *.
    rewrite Hks, Hkg.
    match goal with
    | |- TrimSuffix ?b nl = ?x =>
        replace b with (x +:+ nl); [apply TrimSuffix_nl | now rewrite !str_app_assoc]
    end.
  - apply explains_line in Hh as (s & pat & ->). apply httpLine_shows.
  - apply explains_line in Hg as (s & pat & ->). apply grpcLine_shows.
Qed.

(** ** Validation of the prefix rules *)

Section Validation.
Context `{Runtime}.

Lemma validPrefixSegment_validSegment (seg : string) :
  validPrefixSegment seg = validSegment seg true.
Proof. destruct seg; reflexivity. Qed.

Lemma validPrefixSegment_true (seg : string) :
  validPrefixSegment seg = true <-> patternSegment seg.
Proof. rewrite validPrefixSegment_validSegment. apply validSegment_patternSegment. Qed.

Lemma validPrefixSegment_false (seg : string) :
  validPrefixSegment seg = false <-> seg = "" \/ (seg <> "" /\ seg <> "*" /\ literal seg = false).
Proof.
  split.
  - intros Hv. destruct seg as [|c s]; [now left|]. right.
    split; [discriminate|]. split.
    + intros Heq. rewrite Heq in Hv. discriminate Hv.
    + destruct (literal (String c s)) eqn:Hl; [|reflexivity].
      assert (Ht : validPrefixSegment (String c s) = true)
        by (apply validPrefixSegment_true; now left).
      congruence.
  - intros [-> | (_ & Hs & Hl)]; [reflexivity|].
    destruct (validPrefixSegment seg) eqn:Hv; [|reflexivity].
    apply validPrefixSegment_true in Hv as [Hv | ->]; congruence.
Qed.

Lemma checkSegments_inl (segs : list string) (b : bool) (e : prefixCause) :
  checkSegments segs b = inl e ->
  exists seg, In seg segs /\ validPrefixSegment seg = false.
Proof.
  revert b. induction segs as [|seg segs IH]; intros b; cbn [checkSegments]; [discriminate|].
  destruct (validPrefixSegment seg) eqn:Hv; cbn [negb].
  - intros Hc. apply IH in Hc as (s & Hs & Hf). exists s. split; [now right | assumption].
  - intros _. exists seg. split; [now left | assumption].
Qed.

Lemma checkSegments_inr (segs : list string) (b w : bool) :
  checkSegments segs b = inr w ->
  forallb validPrefixSegment segs = true /\
  w = b && forallb (fun s => String.eqb s "*") segs.
Proof.
  revert b. induction segs as [|seg segs IH]; intros b; cbn [checkSegments forallb].
  - intros [= <-]. now rewrite andb_true_r.
  - destruct (validPrefixSegment seg); cbn [negb]; [|discriminate].
    intros Hc. apply IH in Hc as [Hall ->]. split; [assumption|].
    destruct (String.eqb seg "*"), b; reflexivity.
Qed.

Lemma Split_nonempty (s : string) : Split s <> [].
Proof.
  induction s as [|c s IH]; [discriminate|]. simpl.
  destruct (isDot c); [discriminate|]. now destruct (Split s).
Qed.

(** A prefix passes [normalizeAndValidatePrefix] only if it is well formed. *)
Lemma normalizeAndValidatePrefix_inl (raw p : string) :
  normalizeAndValidatePrefix raw = inl p ->
  p = reason.Normalize raw /\ p <> "" /\
  forallb validPrefixSegment (Split p) = true /\
  forallb (fun s => String.eqb s "*") (Split p) = false.
Proof.
  unfold normalizeAndValidatePrefix.
  destruct (String.eqb_spec (reason.Normalize raw) "") as [Heq | Hne]; [discriminate|].
  destruct (checkSegments (Split (reason.Normalize raw)) true) as [e|w] eqn:Hc; [discriminate|].
  apply checkSegments_inr in Hc as [Hall ->]. cbn [andb].
  destruct (forallb (fun s => String.eqb s "*") _) eqn:Hw; [discriminate|].
  intros [= <-]. now repeat split.
Qed.

Lemma normalizeAndValidatePrefix_wellformed (raw p : string) :
  normalizeAndValidatePrefix raw = inl p -> ~ malformed raw.
Proof.
  intros Hn. apply normalizeAndValidatePrefix_inl in Hn as (-> & Hne & Hall & Hw).
  rewrite forallb_forall in Hall.
  intros [He | [He | [(seg & Hin & Hs1 & Hs2 & Hl) | Hf]]].
  - contradiction.
  - apply Hall in He. discriminate He.
  - apply Hall, validPrefixSegment_true in Hin as [Hin | ->]; congruence.
  - assert (Ht : forallb (fun s => String.eqb s "*") (Split (reason.Normalize raw)) = true).
    { apply forallb_forall. intros s Hs. apply String.eqb_eq.
      rewrite Forall_forall in Hf. apply Hf. now apply list_elem_of_In. }
    congruence.
Qed.

(** ... and fails only if it is malformed. *)
Lemma normalizeAndValidatePrefix_inr (raw : string) (e : prefixCause) :
  normalizeAndValidatePrefix raw = inr e -> malformed raw.
Proof.
  unfold normalizeAndValidatePrefix, malformed. cbv zeta.
  destruct (String.eqb_spec (reason.Normalize raw) "") as [Heq | Hne]; [now left|].
  destruct (checkSegments (Split (reason.Normalize raw)) true) as [e'|w] eqn:Hc.
  - intros _. right. apply checkSegments_inl in Hc as (seg & Hin & Hv).
    apply validPrefixSegment_false in Hv as [-> | Hv]; [now left|].
    right. left. now exists seg.
  - apply checkSegments_inr in Hc as [_ ->]. cbn [andb].
    destruct (forallb (fun s => String.eqb s "*") _) eqn:Hw; [|discriminate].
    intros _. right. right. right. apply Forall_forall. intros s Hs.
    rewrite forallb_forall in Hw. apply String.eqb_eq, Hw. now apply list_elem_of_In in Hs.
Qed.

(** A prefix that passed the validation is accepted by [Insert]: the second
    error of [New] cannot arise. *)
Lemma Insert_validated {T : Type} (zero : T) (raw p : string) (t : Trie T) (v : T) :
  normalizeAndValidatePrefix raw = inl p -> exists t', Insert zero (Some t) p v = inl t'.
Proof.
  intros Hn. apply normalizeAndValidatePrefix_inl in Hn as (_ & Hne & Hall & Hw).
  unfold Insert, splitAndValidate. apply String.eqb_neq in Hne. rewrite Hne.
  assert (Hall' : forallb (fun seg => validSegment seg true) (Split p) = true).
  { clear -Hall. induction (Split p) as [|s l IH]; [reflexivity|]. cbn [forallb] in *.
    apply andb_true_iff in Hall as [Hs Hl].
    now rewrite <- validPrefixSegment_validSegment, Hs, IH. }
  rewrite Hall'. pose proof (Split_nonempty p) as Hs.
  destruct (Split p) as [|s l]; [congruence|]. cbn [length Nat.eqb]. rewrite Hw. eauto.
Qed.

Section Rules.
Context {T : Type} (zero : T) (conv : Z -> T) (f : family).

Lemma insertRules_inr (c : code.Code) (rules : list prefixRule) (t : Trie T) (e : buildError) :
  insertRules zero conv f c rules t = inr e ->
  exists r cause, In r rules /\ e = InvalidReasonPrefix f (prefix r) c cause
                  /\ malformed (prefix r).
Proof.
  revert t. induction rules as [|r rules IH]; intros t; cbn [insertRules]; [discriminate|].
  destruct (normalizeAndValidatePrefix (prefix r)) as [p|cause] eqn:Hn.
  - destruct (Insert_validated zero (prefix r) p t (conv (ruleVal r)) Hn) as [t' ->].
    intros Hr. apply IH in Hr as (r' & cause & Hin & -> & Hm).
    exists r', cause. split; [now right | now split].
  - intros [= <-]. exists r, cause. split; [now left|]. split; [reflexivity|].
    now apply normalizeAndValidatePrefix_inr in Hn.
Qed.

Lemma insertRules_malformed (c : code.Code) (rules : list prefixRule) (t : Trie T) (r : prefixRule) :
  In r rules -> malformed (prefix r) ->
  exists e, insertRules zero conv f c rules t = inr e.
Proof.
  revert t. induction rules as [|r' rules IH]; intros t Hin Hm; [destruct Hin|].
  cbn [insertRules].
  destruct (normalizeAndValidatePrefix (prefix r')) as [p|cause] eqn:Hn; [|eauto].
  destruct (Insert_validated zero (prefix r') p t (conv (ruleVal r')) Hn) as [t' ->].
  destruct Hin as [-> | Hin]; [|now apply IH].
  now apply normalizeAndValidatePrefix_wellformed in Hn.
Qed.

Lemma buildTries_inr (entries : list (code.Code * list prefixRule))
    (acc : gmap code.Code (option (Trie T))) (e : buildError) :
  buildTries zero conv f entries acc = inr e ->
  exists c rules r cause,
    In (c, rules) entries /\ In r rules /\
    e = InvalidReasonPrefix f (prefix r) c cause /\ malformed (prefix r).
Proof.
  revert acc. induction entries as [|[c rules] entries IH]; intros acc; cbn [buildTries];
    [discriminate|].
  assert (Hrec : forall acc', buildTries zero conv f entries acc' = inr e ->
             exists c0 rules0 r cause,
               In (c0, rules0) ((c, rules) :: entries) /\ In r rules0 /\
               e = InvalidReasonPrefix f (prefix r) c0 cause /\ malformed (prefix r)).
  { intros acc' Hb. apply IH in Hb as (c0 & rules0 & r & cause & Hin & Hr & He & Hm).
    exists c0, rules0, r, cause. split; [now right | now repeat split]. }
  destruct (length rules =? 0)%nat; [apply Hrec|].
  destruct (insertRules zero conv f c rules (segmenttrie.New zero)) as [t|e'] eqn:Hr;
    [apply Hrec|].
  intros [= <-]. apply insertRules_inr in Hr as (r & cause & Hin & He & Hm).
  exists c, rules, r, cause. split; [now left | now repeat split].
Qed.

Lemma buildTries_malformed (entries : list (code.Code * list prefixRule))
    (acc : gmap code.Code (option (Trie T))) (c : code.Code) (rules : list prefixRule)
    (r : prefixRule) :
  In (c, rules) entries -> In r rules -> malformed (prefix r) ->
  exists e, buildTries zero conv f entries acc = inr e.
Proof.
  revert acc. induction entries as [|[c' rules'] entries IH]; intros acc Hin Hr Hm;
    [destruct Hin|].
  cbn [buildTries]. destruct Hin as [[= -> ->] | Hin].
  - destruct rules as [|r0 rules]; [destruct Hr|]. cbn [length Nat.eqb].
    destruct (insertRules_malformed c (r0 :: rules) (segmenttrie.New zero) r Hr Hm) as [e ->].
    eauto.
  - destruct (length rules' =? 0)%nat; [now apply IH|].
    destruct (insertRules zero conv f c' rules' (segmenttrie.New zero)); [now apply IH | eauto].
Qed.

End Rules.

End Validation.

(** ** The rules that the options register *)

Section Registered.

Lemma rulesOf_insert (m : gmap code.Code (list prefixRule)) (c' c : code.Code)
    (rs : list prefixRule) :
  rulesOf (<[c' := rs]> m) c = if decide (c' = c) then rs else rulesOf m c.
Proof.
  unfold rulesOf. destruct (decide (c' = c)) as [-> | Hne].
  - now rewrite lookup_insert_eq.
  - now rewrite lookup_insert_ne.
Qed.

Lemma rulesOf_entries (m : gmap code.Code (list prefixRule)) (c : code.Code) (r : prefixRule) :
  In r (rulesOf m c) <-> exists rules, In (c, rules) (map_to_list m) /\ In r rules.
Proof.
  unfold rulesOf. split.
  - destruct (m !! c) as [rules|] eqn:Hc; [|intros []]. intros Hr. exists rules.
    split; [|assumption]. now apply list_elem_of_In, elem_of_map_to_list.
  - intros (rules & Hin & Hr). apply list_elem_of_In, elem_of_map_to_list in Hin.
    now rewrite Hin.
Qed.

Lemma applied_rules (opts : list Option) (b : builder) (c : code.Code) (r : prefixRule) :
  let b' := fold_left (fun b opt => applyOption opt b) opts b in
  (In r (rulesOf (httpPrefixes b') c)
   <-> In r (rulesOf (httpPrefixes b) c) \/ In (WithHTTPPrefix c (prefix r) (ruleVal r)) opts)
  /\
  (In r (rulesOf (grpcPrefixes b') c)
   <-> In r (rulesOf (grpcPrefixes b) c) \/ In (WithGRPCPrefix c (prefix r) (ruleVal r)) opts).
Proof.
  cbv zeta. revert b. induction opts as [|opt opts IH]; intros b.
  - simpl. split; split; auto; now intros [|[]].
  - cbn [fold_left]. destruct (IH (applyOption opt b)) as [IHh IHg]. rewrite IHh, IHg.
    clear IH IHh IHg. destruct r as [p v]. cbn [prefix ruleVal].
    destruct opt as [c' x|c' x|c' x|c' x|c' p' x|c' p' x]; cbn [applyOption httpPrefixes grpcPrefixes];
      rewrite ?rulesOf_insert; cbn [In];
      try (split; split; intros [Hin | Hin]; auto; destruct Hin as [Hin | Hin];
           auto; discriminate).
    + destruct (decide (c' = c)) as [-> | Hne].
      * rewrite in_app_iff. cbn [In]. split; split.
        -- intros [[Hin | [[= <- <-] | []]] | Hin]; auto.
        -- intros [Hin | [[= <- <-] | Hin]]; auto.
        -- intros [Hin | Hin]; auto.
        -- intros [Hin | [Hin | Hin]]; auto; discriminate.
      * split; split.
        -- intros [Hin | Hin]; auto.
        -- intros [Hin | [[= Heq _ _] | Hin]]; auto; congruence.
        -- intros [Hin | Hin]; auto.
        -- intros [Hin | [Hin | Hin]]; auto; discriminate.
    + destruct (decide (c' = c)) as [-> | Hne].
      * rewrite in_app_iff. cbn [In]. split; split.
        -- intros [Hin | Hin]; auto.
        -- intros [Hin | [Hin | Hin]]; auto; discriminate.
        -- intros [[Hin | [[= <- <-] | []]] | Hin]; auto.
        -- intros [Hin | [[= <- <-] | Hin]]; auto.
      * split; split.
        -- intros [Hin | Hin]; auto.
        -- intros [Hin | [Hin | Hin]]; auto; discriminate.
        -- intros [Hin | Hin]; auto.
        -- intros [Hin | [[= Heq _ _] | Hin]]; auto; congruence.
Qed.

(** The rules of a configured builder are the ones that the options
    registered. *)
Lemma configure_rules (opts : list Option) (f : family) (c : code.Code) (raw : string) :
  registers f opts c raw
  <-> exists r, prefix r = raw /\
                In r (rulesOf (match f with
                               | HTTP => httpPrefixes (configure opts)
                               | GRPC => grpcPrefixes (configure opts)
                               end) c).
Proof.
  unfold registers, configure. split.
  - intros (v & Hin). exists (mkRule raw v). split; [reflexivity|].
    destruct (applied_rules opts seeded c (mkRule raw v)) as [Hh Hg].
    destruct f; [apply Hh | apply Hg]; now right.
  - intros (r & <- & Hin). exists (ruleVal r).
    destruct (applied_rules opts seeded c r) as [Hh Hg].
    destruct f; [apply Hh in Hin | apply Hg in Hin]; destruct Hin as [[] | Hin]; exact Hin.
Qed.

End Registered.

(** ** The outcome of [New] *)

Section Outcome.
Context `{Runtime}.

(** An error of [New] names a registered rule that is malformed. *)
Lemma New_inr (opts : list Option) (e : buildError) :
  New opts = inr e ->
  exists f raw c cause,
    e = InvalidReasonPrefix f raw c cause /\ registers f opts c raw /\ malformed raw.
Proof.
  intros He.
  assert (Hwhich : exists f c rules r cause,
             In (c, rules) (map_to_list match f with
                                        | HTTP => httpPrefixes (configure opts)
                                        | GRPC => grpcPrefixes (configure opts)
                                        end) /\
             In r rules /\ e = InvalidReasonPrefix f (prefix r) c cause /\ malformed (prefix r)).
  { revert He. unfold New, freeze.
    destruct (buildTries 0 (fun v => v) HTTP _ ∅) as [ht|eh] eqn:Hh.
    - destruct (buildTries 0 codes.ofInt GRPC _ ∅) as [gt|eg] eqn:Hg; [discriminate|].
      intros [= <-]. apply buildTries_inr in Hg as (c & rules & r & cause & H1 & H2 & H3 & H4).
      now exists GRPC, c, rules, r, cause.
    - intros [= <-]. apply buildTries_inr in Hh as (c & rules & r & cause & H1 & H2 & H3 & H4).
      now exists HTTP, c, rules, r, cause. }
  destruct Hwhich as (f & c & rules & r & cause & Hent & Hr & -> & Hmr).
  exists f, (prefix r), c, cause. repeat split; try assumption.
  apply configure_rules. exists r. split; [reflexivity|].
  apply rulesOf_entries. now exists rules.
Qed.

(** A registered rule that is malformed makes [New] fail. *)
Lemma New_fails (opts : list Option) (f : family) (c : code.Code) (raw : string) :
  registers f opts c raw -> malformed raw -> exists e, New opts = inr e.
Proof.
  intros Hreg Hm. apply configure_rules in Hreg as (r & <- & Hin).
  apply rulesOf_entries in Hin as (rules & Hent & Hr).
  unfold New, freeze. destruct f.
  - destruct (buildTries_malformed 0 (fun v => v) HTTP _ ∅ c rules r Hent Hr Hm) as [e ->].
    eauto.
  - destruct (buildTries 0 (fun v => v) HTTP (map_to_list (httpPrefixes (configure opts))) ∅);
      [|eauto].
    destruct (buildTries_malformed 0 codes.ofInt GRPC _ ∅ c rules r Hent Hr Hm) as [e ->].
    eauto.
Qed.

(** Without a malformed rule [New] returns a mapper. *)
Lemma New_succeeds (opts : list Option) :
  (forall f c raw, registers f opts c raw -> ~ malformed raw) ->
  exists m, New opts = inl m.
Proof.
  intros Hwf. destruct (New opts) as [m|e] eqn:He; [eauto|].
  apply New_inr in He as (f & raw & c & cause & _ & Hreg & Hm).
  now apply Hwf in Hreg.
Qed.

End Outcome.

(** C7. A malformed prefix pattern (empty after normalization, with an empty
    segment, with an invalid character, or made of wildcards only) among the
    registered rules makes [New] fail: it returns an error, hence no mapper,
    and the error names the code and the pattern text of a registered rule
    that is malformed. *)
Theorem build_rejects_malformed_prefix (R : Runtime) (opts : list Option)
    (f0 : family) (c0 : code.Code) (raw0 : string) :
  registers f0 opts c0 raw0 -> malformed raw0 ->
  exists e f raw c cause,
    New opts = inr e /\
    e = InvalidReasonPrefix f raw c cause /\
    errCode e = c /\ errPattern e = raw /\
    registers f opts c raw /\ malformed raw.
Proof.
  intros Hreg Hm. destruct (New_fails opts f0 c0 raw0 Hreg Hm) as [e He].
  destruct (New_inr opts e He) as (f & raw & c & cause & -> & Hreg' & Hm').
  exists (InvalidReasonPrefix f raw c cause), f, raw, c, cause. now repeat split.
Qed.

Section Examples.
#[local] Existing Instance Ascii7.runtime.

Lemma build_rejects_malformed_prefix_witness :
  exists f raw c cause,
    New [WithHTTPDefault code.Canceled 408;
         WithGRPCPrefix code.Unavailable "storage..pg" 14]
    = inr (InvalidReasonPrefix f raw c cause)
    /\ registers f [WithHTTPDefault code.Canceled 408;
                    WithGRPCPrefix code.Unavailable "storage..pg" 14] c raw.
Proof.
  destruct (build_rejects_malformed_prefix Ascii7.runtime
              [WithHTTPDefault code.Canceled 408;
               WithGRPCPrefix code.Unavailable "storage..pg" 14]
              GRPC code.Unavailable "storage..pg")
    as (e & f & raw & c & cause & He & -> & _ & _ & Hreg & _).
  - exists 14. right. now left.
  - right. left. vm_compute. auto.
  - exists f, raw, c, cause. split; [exact He | exact Hreg].
Defined.

(** A prefix hit and an override, resolved and explained. *)
Example explain_example :
  match New [WithHTTPPrefix code.Unavailable "storage.pg" 503;
             WithGRPCOverride code.Unavailable 14] with
  | inl m =>
      Some (HTTPStatus m code.Unavailable "storage.pg.connect_timeout",
            explainHTTP m code.Unavailable "storage.pg.connect_timeout",
            fst (explainGRPC m code.Unavailable "storage.pg.connect_timeout"),
            HTTPStatus m "no_such_code" reason.Empty,
            fst (explainHTTP m "no_such_code" reason.Empty))
  | inr _ => None
  end
  = Some (503,
          ("prefix",
           "http: source=prefix pattern=" +:+ fmt_q "storage.pg" +:+ " -> 503"),
          "override", 500, "fallback").
Proof. vm_compute. reflexivity. Qed.

(** The gRPC line of the same explanation, and the code it stands for. *)
Example explain_grpc_example :
  match New [WithHTTPPrefix code.Unavailable "storage.pg" 503;
             WithGRPCOverride code.Unavailable 14] with
  | inl m =>
      Some (GRPCStatus m code.Unavailable "storage.pg.connect_timeout",
            explainGRPC m code.Unavailable "storage.pg.connect_timeout",
            GRPCStatus m "no_such_code" reason.Empty,
            explainGRPC m "no_such_code" reason.Empty)
  | inr _ => None
  end
  = Some (14, ("override", "grpc: source=override -> UNAVAILABLE(14)"),
          13, ("fallback", "grpc: source=fallback -> INTERNAL(13)")).
Proof. vm_compute. reflexivity. Qed.

Lemma explain_agrees_with_resolution_witness :
  exists m,
    New [WithHTTPPrefix code.Unavailable "storage.pg" 503;
         WithGRPCOverride code.Unavailable 14] = inl m /\
    explains 0 (httpOverride m) (httpTrie m) (httpDefault m) 500 httpLine
      code.Unavailable "storage.pg.connect_timeout"
      (HTTPStatus m code.Unavailable "storage.pg.connect_timeout")
      (fst (explainHTTP m code.Unavailable "storage.pg.connect_timeout"))
      (snd (explainHTTP m code.Unavailable "storage.pg.connect_timeout")) /\
    explains 0 (grpcOverride m) (grpcTrie m) (grpcDefault m) codes.Internal grpcLine
      code.Unavailable "storage.pg.connect_timeout"
      (GRPCStatus m code.Unavailable "storage.pg.connect_timeout")
      (fst (explainGRPC m code.Unavailable "storage.pg.connect_timeout"))
      (snd (explainGRPC m code.Unavailable "storage.pg.connect_timeout")) /\
    showsHTTP (snd (explainHTTP m code.Unavailable "storage.pg.connect_timeout"))
      (HTTPStatus m code.Unavailable "storage.pg.connect_timeout") /\
    showsGRPC (snd (explainGRPC m code.Unavailable "storage.pg.connect_timeout"))
      (GRPCStatus m code.Unavailable "storage.pg.connect_timeout").
Proof.
  destruct (New [WithHTTPPrefix code.Unavailable "storage.pg" 503;
                 WithGRPCOverride code.Unavailable 14]) as [m|e] eqn:Hnew.
  - exists m. split; [reflexivity|].
    destruct (explain_agrees_with_resolution Ascii7.runtime _ m
                code.Unavailable "storage.pg.connect_timeout" Hnew)
      as (Hh & Hg & _ & Hsh & Hsg).
    split; [exact Hh | split; [exact Hg | split; [exact Hsh | exact Hsg]]].
  - exfalso. vm_compute in Hnew. discriminate Hnew.
Defined.

End Examples.

(** * More on the trie *)

Import MoreSpec.

Section InsertMore.
Context {T : Type}.
Variable zero : T.
Implicit Types (t n : Trie T) (segs ks : list string).

Lemma Join_cons_byte (c : ascii) (h : string) (l : list string) :
  Join (String c h :: l) = String c (Join (h :: l)).
Proof. destruct l; [reflexivity|]. rewrite !Join_cons by discriminate. reflexivity. Qed.

(** [Join] undoes [Split]. *)
Lemma Join_Split (s : string) : Join (Split s) = s.
Proof.
  induction s as [|c s IH]; [reflexivity|]. simpl.
  destruct (isDot c) eqn:Hc.
  - apply Ascii.eqb_eq in Hc. subst c.
    rewrite Join_cons by apply Split_nonempty. now rewrite IH.
  - pose proof (Split_nonempty s) as Hne. destruct (Split s) as [|h l]; [congruence|].
    now rewrite Join_cons_byte, IH.
Qed.

Lemma Split_inj (p q : string) : Split p = Split q -> p = q.
Proof. intros Heq. rewrite <- (Join_Split p), <- (Join_Split q). now f_equal. Qed.

Lemma forallb_patternSegment segs :
  forallb (fun seg => validSegment seg true) segs = true <-> Forall patternSegment segs.
Proof.
  induction segs as [|s l IH]; simpl; [split; [constructor | reflexivity]|].
  rewrite andb_true_iff, IH, validSegment_patternSegment. split.
  - intros [Hs Hl]. now constructor.
  - intros Hall. inversion Hall; subst. now split.
Qed.

Lemma forallb_star segs :
  forallb (fun s => String.eqb s "*") segs = false <-> Exists (fun s => s <> "*") segs.
Proof.
  induction segs as [|s l IH]; simpl.
  - split; [discriminate | intros Hex; inversion Hex].
  - destruct (String.eqb_spec s "*") as [-> | Hne]; simpl.
    + rewrite IH. split; [now apply Exists_cons_tl|].
      intros Hex. inversion Hex; subst; [congruence | assumption].
    + split; [intros _; now apply Exists_cons_hd | reflexivity].
Qed.

(** [Insert] on a real trie, by cases on the prefix. *)
Lemma Insert_cases t (p : string) (v : T) :
  (wellFormedPrefix p /\ Insert zero (Some t) p v = inl (insertAt zero (Split p) p v t))
  \/ (~ wellFormedPrefix p /\ Insert zero (Some t) p v = inr ErrInvalidPrefix).
Proof.
  unfold Insert, splitAndValidate, wellFormedPrefix.
  destruct (String.eqb_spec p "") as [-> | Hp].
  - right. split; [intros [Hne _]; congruence | reflexivity].
  - destruct (forallb (fun seg => validSegment seg true) (Split p)) eqn:Hv.
    + pose proof (Split_nonempty p) as Hs.
      destruct (Split p) as [|s l] eqn:Hsp; [congruence|]. cbn [length Nat.eqb].
      destruct (forallb (fun s => String.eqb s "*") (s :: l)) eqn:Hw.
      * right. split; [|reflexivity]. intros (_ & _ & Hex).
        apply forallb_star in Hex. congruence.
      * left. split; [|reflexivity]. split; [assumption|].
        split; [now apply forallb_patternSegment | now apply forallb_star].
    + right. split; [|reflexivity]. intros (_ & Hall & _).
      apply forallb_patternSegment in Hall. congruence.
Qed.

(** A node without a value does not change the best state. *)
Lemma walk_New segs depth (st : bestP T) : walk segs (segmenttrie.New zero) depth st = st.
Proof. destruct segs; simpl; unfold visitP; simpl; now rewrite ?lookup_empty. Qed.

Lemma visitP_fields t t' depth (st : bestP T) :
  hasVal t' = hasVal t -> val t' = val t -> pattern t' = pattern t ->
  visitP t' depth st = visitP t depth st.
Proof. unfold visitP. now intros -> -> ->. Qed.

(** An insertion changes nothing for the paths that its pattern does not
    match. *)
Lemma walk_insertAt_unmatched segs ks (p : string) (v : T) t depth (st : bestP T) :
  ~ matchesPrefix ks segs ->
  walk segs (insertAt zero ks p v t) depth st = walk segs t depth st.
Proof.
  revert ks t depth st. induction segs as [|seg segs IH]; intros ks t depth st Hm.
  - destruct ks as [|k ks]; [destruct Hm; apply matchesPrefix_nil | reflexivity].
  - destruct ks as [|k ks]; [destruct Hm; apply matchesPrefix_nil|].
    assert (Hchild : forall x st', edgeMatches x seg ->
              match children (insertAt zero (k :: ks) p v t) !! x with
              | Some next => walk segs next (depth + 1) st'
              | None => st'
              end
              = match children t !! x with
                | Some next => walk segs next (depth + 1) st'
                | None => st'
                end).
    { intros x st' Hx. cbn [insertAt children].
      destruct (decide (k = x)) as [-> | Hne].
      - rewrite lookup_insert_eq.
        assert (Hm' : ~ matchesPrefix ks segs)
          by (intros Hms; apply Hm, matchesPrefix_cons; now split).
        rewrite IH by assumption.
        destruct (children t !! x); [reflexivity | apply walk_New].
      - now rewrite lookup_insert_ne. }
    cbn [walk].
    rewrite (visitP_fields t (insertAt zero (k :: ks) p v t)) by reflexivity.
    rewrite (Hchild seg) by now right. apply (Hchild "*"). now left.
Qed.

(** Insertions of different patterns commute. *)
Lemma insertAt_commute ks1 ks2 (p1 p2 : string) (v1 v2 : T) t :
  ks1 <> ks2 ->
  insertAt zero ks1 p1 v1 (insertAt zero ks2 p2 v2 t)
  = insertAt zero ks2 p2 v2 (insertAt zero ks1 p1 v1 t).
Proof.
  revert ks2 t. induction ks1 as [|k1 r1 IH]; intros ks2 t Hne.
  - destruct ks2 as [|k2 r2]; [congruence | reflexivity].
  - destruct ks2 as [|k2 r2]; [reflexivity|].
    cbn [insertAt children hasVal val pattern].
    destruct (decide (k1 = k2)) as [-> | Hk].
    + rewrite !lookup_insert_eq, !insert_insert_eq.
      rewrite IH by congruence. reflexivity.
    + rewrite !lookup_insert_ne by congruence.
      rewrite (insert_insert_ne _ k1 k2) by assumption. reflexivity.
Qed.

(** The fields of the nodes off the path of an insertion are untouched. *)
Lemma nodeBefore_insertAt_other ks' ks (p : string) (v : T) t :
  ks' <> ks ->
  hasVal (nodeBefore zero ks' (insertAt zero ks p v t)) = hasVal (nodeBefore zero ks' t) /\
  val (nodeBefore zero ks' (insertAt zero ks p v t)) = val (nodeBefore zero ks' t) /\
  pattern (nodeBefore zero ks' (insertAt zero ks p v t)) = pattern (nodeBefore zero ks' t).
Proof.
  revert ks t. induction ks' as [|k' r' IH]; intros ks t Hne.
  - destruct ks as [|k r]; [congruence | now repeat split].
  - destruct ks as [|k r].
    + rewrite !nodeBefore_cons. cbn [insertAt children]. now repeat split.
    + rewrite !nodeBefore_cons. cbn [insertAt children].
      destruct (decide (k = k')) as [-> | Hk].
      * rewrite lookup_insert_eq. apply IH. congruence.
      * rewrite lookup_insert_ne by assumption. now repeat split.
Qed.

(** A node that carries a value is present. *)
Lemma nodeBefore_present ks t :
  hasVal (nodeBefore zero ks t) = true -> nodeAt ks t = Some (nodeBefore zero ks t).
Proof. unfold nodeBefore. now destruct (nodeAt ks t). Qed.

Lemma holds_New : holds zero (segmenttrie.New zero) ∅.
Proof. intros ks. cbv zeta. now rewrite lookup_empty, nodeBefore_New. Qed.

(** An insertion adds its rule to the rules that the trie holds. *)
Lemma holds_insertAt (p : string) (v : T) t (M : gmap (list string) T) :
  p <> "" -> holds zero t M ->
  holds zero (insertAt zero (Split p) p v t) (<[Split p := v]> M).
Proof.
  intros Hp Hh ks. cbv zeta. specialize (Hh ks). cbv zeta in Hh.
  destruct (decide (Split p = ks)) as [<- | Hne].
  - rewrite lookup_insert_eq, nodeBefore_after, nodeAt_insertAt.
    cbn [hasVal val pattern]. split; [reflexivity|]. split; [reflexivity|].
    split; [reflexivity|]. rewrite Join_Split.
    destruct (M !! Split p) as [v0|].
    + destruct Hh as (_ & _ & _ & ->). rewrite Join_Split.
      apply String.eqb_neq in Hp. now rewrite Hp.
    + destruct Hh as [_ ->]. reflexivity.
  - rewrite lookup_insert_ne by assumption.
    destruct (nodeBefore_insertAt_other ks (Split p) p v t) as (Hv & Hval & Hpat);
      [congruence|].
    destruct (M !! ks) as [v0|].
    + destruct Hh as (Hat & Hhv & Hhval & Hhpat).
      split; [|now rewrite Hv, Hval, Hpat].
      apply nodeBefore_present. now rewrite Hv.
    + now rewrite Hv, Hpat.
Qed.

Lemma insertAll_holds (rules : list (string * T)) t t' (M : gmap (list string) T) :
  insertAll zero rules t = inl t' -> holds zero t M ->
  holds zero t' (fold_left (fun M pv => <[Split (fst pv) := snd pv]> M) rules M).
Proof.
  revert t M. induction rules as [|[p v] rules IH]; intros t M; cbn [insertAll fold_left].
  - now intros [= <-].
  - destruct (Insert zero (Some t) p v) as [t1|] eqn:Hi; [|discriminate].
    apply Insert_inl in Hi as (Hp & _ & ->). intros Hr Hh.
    apply (IH _ _ Hr). now apply holds_insertAt.
Qed.

(** In a trie that holds [M], the registered patterns are the matching keys
    of [M]. *)
Lemma holds_registered t (M : gmap (list string) T) segs ks n :
  holds zero t M ->
  registered t segs ks n
  <-> nodeAt ks t = Some n /\ M !! ks = Some (val n) /\ pattern n = Join ks
      /\ matchesPrefix ks segs.
Proof.
  intros Hh. specialize (Hh ks). cbv zeta in Hh. unfold registered. split.
  - intros (Hat & Hv & Hm). split; [assumption|].
    assert (Hn : nodeBefore zero ks t = n) by (unfold nodeBefore; now rewrite Hat).
    rewrite Hn in Hh. destruct (M !! ks) as [v|].
    + destruct Hh as (_ & _ & <- & Hp). now repeat split.
    + destruct Hh as [Hf _]. congruence.
  - intros (Hat & HM & _ & Hm). split; [assumption|]. split; [|assumption].
    assert (Hn : nodeBefore zero ks t = n) by (unfold nodeBefore; now rewrite Hat).
    rewrite Hn, HM in Hh. now destruct Hh as (_ & Hv & _).
Qed.

End InsertMore.

Section RuleMap.
Context {T : Type}.

Lemma ruleMap_snoc (rules : list (string * T)) (p : string) (v : T) :
  ruleMap (rules ++ [(p, v)]) = <[Split p := v]> (ruleMap rules).
Proof. unfold ruleMap. now rewrite fold_left_app. Qed.

(** The rules of [ruleMap] come from the list: a key is the segments of an
    inserted pattern, and its value is the one inserted last for it. *)
Lemma ruleMap_lookup (rules : list (string * T)) ks (v : T) :
  ruleMap rules !! ks = Some v <->
  exists before p after,
    rules = (before ++ (p, v) :: after)%list /\ Split p = ks /\
    Forall (fun pv => Split (fst pv) <> ks) after.
Proof.
  induction rules as [|[p v'] rules IH] using rev_ind.
  - split; [unfold ruleMap; simpl; now rewrite lookup_empty|].
    intros (before & p & after & Heq & _).
    now destruct before.
  - rewrite ruleMap_snoc. destruct (decide (Split p = ks)) as [<- | Hne].
    + rewrite lookup_insert_eq. split.
      * intros [= ->]. exists rules, p, []. now repeat split.
      * intros (before & q & after & Heq & Hq & Hall).
        destruct after as [|x after _] using rev_ind.
        -- apply app_inj_tail in Heq as [_ [= -> ->]]. reflexivity.
        -- rewrite app_comm_cons, app_assoc in Heq.
           apply app_inj_tail in Heq as [_ Hx]. subst x.
           apply Forall_app in Hall as [_ Hall]. inversion Hall; subst. simpl in *. congruence.
    + rewrite lookup_insert_ne by assumption. rewrite IH. split.
      * intros (before & q & after & -> & Hq & Hall).
        exists before, q, (after ++ [(p, v')])%list. split; [now rewrite <- app_assoc|].
        split; [assumption|]. apply Forall_app. split; [assumption|].
        constructor; [assumption | constructor].
      * intros (before & q & after & Heq & Hq & Hall).
        destruct after as [|x after _] using rev_ind.
        -- apply app_inj_tail in Heq as [_ [= -> ->]]. congruence.
        -- rewrite app_comm_cons, app_assoc in Heq.
           apply app_inj_tail in Heq as [Hr Hx]. subst x rules.
           apply Forall_app in Hall as [Hall _]. now exists before, q, after.
Qed.

End RuleMap.

(** X1. [Insert] accepts exactly the well-formed prefixes (non-empty, every
    segment a literal or the wildcard, not wildcards only); every other prefix
    gives [ErrInvalidPrefix], its only error. *)
Theorem Insert_accepts_exactly_well_formed {T : Type} (zero : T) (t : Trie T)
    (p : string) (v : T) :
  (wellFormedPrefix p <-> exists t', Insert zero (Some t) p v = inl t') /\
  (~ wellFormedPrefix p <-> Insert zero (Some t) p v = inr ErrInvalidPrefix).
Proof.
  destruct (Insert_cases zero t p v) as [[Hwf ->] | [Hwf ->]].
  - split; split; eauto; try discriminate. intros Hn. contradiction.
  - split; split; auto; try contradiction. intros [t' Ht']. discriminate.
Qed.

(** X2. An insertion leaves the result of every lookup that its pattern does
    not match as it was. *)
Theorem Insert_keeps_unmatched_lookups {T : Type} (zero : T) (t t' : Trie T)
    (p : string) (v : T) (reason : string) :
  Insert zero (Some t) p v = inl t' ->
  ~ matchesPrefix (Split p) (segmentsOf reason) ->
  MatchWithPattern zero (Some t') reason = MatchWithPattern zero (Some t) reason /\
  Match zero (Some t') reason = Match zero (Some t) reason.
Proof.
  intros Hi Hm. apply Insert_inl in Hi as (_ & _ & ->).
  assert (Hp : MatchWithPattern zero (Some (insertAt zero (Split p) p v t)) reason
               = MatchWithPattern zero (Some t) reason).
  { rewrite !MatchWithPattern_walk. unfold finalState.
    now rewrite walk_insertAt_unmatched. }
  split; [exact Hp | now rewrite !Match_MatchWithPattern, Hp].
Qed.

Lemma Insert_keeps_unmatched_lookups_witness :
  exists t t',
    insertAll 0 wildcardRules (segmenttrie.New 0) = inl t /\
    Insert 0 (Some t) "storage.pg" 503 = inl t' /\
    Match 0 (Some t') "auth.jwt.verify" = Match 0 (Some t) "auth.jwt.verify" /\
    Match 0 (Some t) "auth.jwt.verify" = (2, true).
Proof.
  eexists. eexists. split; [vm_compute; reflexivity|].
  split; [vm_compute; reflexivity|]. split; [|vm_compute; reflexivity].
  refine (proj2 (Insert_keeps_unmatched_lookups 0 _ _ "storage.pg" 503 "auth.jwt.verify" _ _)).
  - vm_compute. reflexivity.
  - change (segmentsOf "auth.jwt.verify") with ["auth"; "jwt"; "verify"].
    change (Split "storage.pg") with ["storage"; "pg"].
    intros Hm. apply matchesPrefix_cons in Hm as [[Hk | Hk] _]; discriminate Hk.
Defined.

(** X3. Insert then look up.  After a pattern of literal segments is inserted
    with [v], looking up the pattern text itself yields [v], whatever else the
    trie holds.  After any pattern is inserted, every path that it matches is
    found, by a registered pattern that is at least as long. *)
Theorem Insert_then_Match {T : Type} (zero : T) (t t' : Trie T) (p : string) (v : T) :
  Insert zero (Some t) p v = inl t' ->
  (Forall (fun s => literal s = true) (Split p) -> Match zero (Some t') p = (v, true)) /\
  (forall reason,
      matchesPrefix (Split p) (segmentsOf reason) ->
      exists v' pat ks n,
        MatchWithPattern zero (Some t') reason = (v', true, pat) /\
        registered t' (segmentsOf reason) ks n /\ val n = v' /\ pattern n = pat /\
        (length (Split p) <= length ks)%nat).
Proof.
  intros Hi. apply Insert_inl in Hi as (_ & _ & ->).
  pose proof (nodeAt_insertAt zero (Split p) p v t) as Hat0.
  split.
  - pose proof Hat0 as Hat. intros Hlit. rewrite Match_MatchWithPattern.
    assert (Hsegs : segmentsOf p = Split p)
      by (rewrite <- (Join_Split p) at 1; now apply segmentsOf_Join).
    rewrite MatchWithPattern_walk. unfold finalState. cbv zeta. rewrite Hsegs.
    rewrite <- (firstn_all (Split p)) in Hat at 1.
    rewrite (walk_literal (Split p) (length (Split p)) _ 0 (mkBestP (-1) zero "") _ Hat).
    + cbn [pDepth pVal pPat fst].
      destruct (0 + Z.of_nat (length (Split p)) <? 0) eqn:Hlt;
        [apply Z.ltb_lt in Hlt; lia | reflexivity].
    + reflexivity.
    + reflexivity.
    + intros c (ks' & n' & (_ & _ & Hm) & ->). apply matchesPrefix_length in Hm.
      unfold depthOf. simpl. lia.
    + simpl. lia.
  - pose proof Hat0 as Hat. intros reason Hm.
    assert (Hreg : registered (insertAt zero (Split p) p v t) (segmentsOf reason) (Split p)
                     (mkTrie (children (nodeBefore zero (Split p) t)) true v
                        (if String.eqb (pattern (nodeBefore zero (Split p) t)) "" then p
                         else pattern (nodeBefore zero (Split p) t))))
      by (split; [exact Hat | split; [reflexivity | exact Hm]]).
    destruct (MatchWithPattern_finds zero _ reason _ _ Hreg) as (v' & pat & Hfound).
    destruct (MatchWithPattern_deepest zero _ reason v' pat Hfound)
      as (ks & n & Hreg' & Hv & Hp & Hmax).
    exists v', pat, ks, n. repeat split; try assumption; try apply Hreg'.
    now apply (Hmax _ _ Hreg).
Qed.

Lemma Insert_then_Match_witness :
  exists t',
    Insert 0 (Some (segmenttrie.New 0)) "storage.pg" 503 = inl t' /\
    Match 0 (Some t') "storage.pg" = (503, true).
Proof.
  eexists. split; [vm_compute; reflexivity|].
  refine (proj1 (Insert_then_Match 0 (segmenttrie.New 0) _ "storage.pg" 503 _) _).
  - vm_compute. reflexivity.
  - repeat constructor.
Defined.

(** X4. Insertions of different patterns commute: either order builds the
    same trie. *)
Theorem Insert_commutes {T : Type} (zero : T) (t t1 t12 : Trie T)
    (p1 p2 : string) (v1 v2 : T) :
  p1 <> p2 ->
  Insert zero (Some t) p1 v1 = inl t1 ->
  Insert zero (Some t1) p2 v2 = inl t12 ->
  exists t2, Insert zero (Some t) p2 v2 = inl t2 /\ Insert zero (Some t2) p1 v1 = inl t12.
Proof.
  intros Hne H1 H2.
  destruct (Insert_cases zero t p1 v1) as [[Hw1 E1] | [_ E1]]; [|congruence].
  destruct (Insert_cases zero t1 p2 v2) as [[Hw2 E2] | [_ E2]]; [|congruence].
  rewrite E1 in H1. injection H1 as <-. rewrite E2 in H2. injection H2 as <-.
  exists (insertAt zero (Split p2) p2 v2 t). split.
  - destruct (Insert_cases zero t p2 v2) as [[_ E] | [Hn _]]; [exact E | contradiction].
  - destruct (Insert_cases zero (insertAt zero (Split p2) p2 v2 t) p1 v1)
      as [[_ E] | [Hn _]]; [|contradiction].
    rewrite E. f_equal. apply insertAt_commute.
    intros Heq. apply Hne. symmetry. now apply Split_inj.
Qed.

Lemma Insert_commutes_witness :
  exists t1 t12 t2,
    Insert 0 (Some (segmenttrie.New 0)) "a.*.c" 7 = inl t1 /\
    Insert 0 (Some t1) "a.b" 1 = inl t12 /\
    Insert 0 (Some (segmenttrie.New 0)) "a.b" 1 = inl t2 /\
    Insert 0 (Some t2) "a.*.c" 7 = inl t12.
Proof.
  pose (t1 := match Insert 0 (Some (segmenttrie.New 0)) "a.*.c" 7 with
              | inl t => t | inr _ => segmenttrie.New 0 end).
  pose (t12 := match Insert 0 (Some t1) "a.b" 1 with
               | inl t => t | inr _ => segmenttrie.New 0 end).
  exists t1, t12.
  destruct (Insert_commutes 0 (segmenttrie.New 0) t1 t12 "a.*.c" "a.b" 7 1)
    as (t2 & Ha & Hb); [discriminate | vm_compute; reflexivity | vm_compute; reflexivity|].
  exists t2. split; [vm_compute; reflexivity|]. split; [vm_compute; reflexivity|].
  split; [exact Ha | exact Hb].
Defined.

(** A trie built by a list of insertions, against the rules of the list. *)
Lemma insertAll_answers {T : Type} (zero : T)
    (rules : list (string * T)) (t : Trie T) (reason : string) :
  insertAll zero rules (segmenttrie.New zero) = inl t ->
  (forall v pat,
      MatchWithPattern zero (Some t) reason = (v, true, pat) ->
      exists ks before p after,
        longestMatch (ruleMap rules) (segmentsOf reason) ks v /\
        pat = p /\ Split p = ks /\
        rules = (before ++ (p, v) :: after)%list /\
        Forall (fun pv => fst pv <> p) after) /\
  ((exists ks v, ruleMap rules !! ks = Some v /\ matchesPrefix ks (segmentsOf reason))
   <-> exists v pat, MatchWithPattern zero (Some t) reason = (v, true, pat)).
Proof.
  intros Hb.
  assert (Hh : holds zero t (ruleMap rules))
    by (apply (insertAll_holds zero rules _ t ∅ Hb), holds_New).
  split.
  - intros v pat Hm.
    destruct (MatchWithPattern_deepest zero t reason v pat Hm) as (ks & n & Hreg & Hv & Hp & Hmax).
    pose proof (proj1 (holds_registered zero t _ _ ks n Hh) Hreg) as (Hat & HM & Hpat & Hmp).
    rewrite Hv in HM.
    destruct (proj1 (ruleMap_lookup rules ks v) HM) as (before & p & after & Heq & Hsp & Hall).
    exists ks, before, p, after. split; [|split; [|split; [assumption | split; [assumption|]]]].
    + split; [assumption | split; [assumption|]]. intros ks' v' HM' Hm'.
      pose proof (Hh ks') as Hk. cbv zeta in Hk. rewrite HM' in Hk.
      destruct Hk as (Hat' & Hv' & _ & _).
      apply (Hmax ks' (nodeBefore zero ks' t)). now repeat split.
    + rewrite <- Hp, Hpat, <- Hsp. apply Join_Split.
    + eapply Forall_impl; [exact Hall|]. intros [q w] Hq Heq'. simpl in *. congruence.
  - split.
    + intros (ks & v & HM & Hmp). pose proof (Hh ks) as Hk. cbv zeta in Hk. rewrite HM in Hk.
      destruct Hk as (Hat & Hv & _ & _).
      apply (MatchWithPattern_finds zero t reason ks (nodeBefore zero ks t)). now repeat split.
    + intros (v & pat & Hm).
      destruct (MatchWithPattern_deepest zero t reason v pat Hm) as (ks & n & Hreg & Hv & _).
      pose proof (proj1 (holds_registered zero t _ _ ks n Hh) Hreg) as (_ & HM & _ & Hmp).
      exists ks, (val n). now split.
Qed.

(** X5. A trie built from the empty one by a list of insertions answers a
    lookup with a longest matching rule of that list: the value returned is
    the one inserted last for a pattern that matches a prefix of the path and
    that no other matching pattern of the list exceeds in length, and the
    pattern reported is the text of that pattern.  The lookup finds something
    exactly when some rule of the list matches. *)
Theorem built_trie_answers_longest_rule {T : Type} (zero : T)
    (rules : list (string * T)) (t : Trie T) (reason : string) :
  insertAll zero rules (segmenttrie.New zero) = inl t ->
  (forall v pat,
      MatchWithPattern zero (Some t) reason = (v, true, pat) ->
      exists ks before p after,
        longestMatch (ruleMap rules) (segmentsOf reason) ks v /\
        pat = p /\ Split p = ks /\
        rules = (before ++ (p, v) :: after)%list /\
        Forall (fun pv => fst pv <> p) after) /\
  ((exists ks v, ruleMap rules !! ks = Some v /\ matchesPrefix ks (segmentsOf reason))
   <-> exists v pat, MatchWithPattern zero (Some t) reason = (v, true, pat)).
Proof. apply insertAll_answers. Qed.

Lemma built_trie_answers_longest_rule_witness :
  exists t,
    insertAll 0 depthRules (segmenttrie.New 0) = inl t /\
    exists v pat, MatchWithPattern 0 (Some t) "a.b.c" = (v, true, pat).
Proof.
  eexists. split; [vm_compute; reflexivity|].
  refine (proj1 (proj2 (built_trie_answers_longest_rule 0 depthRules _ "a.b.c" _)) _).
  - vm_compute. reflexivity.
  - exists ["a"; "*"; "c"], 7. split; [vm_compute; reflexivity|].
    change (segmentsOf "a.b.c") with ["a"; "b"; "c"].
    exists ["a"; "b"; "c"], []. split; [reflexivity|].
    constructor; [now right | constructor; [now left | constructor; [now right | constructor]]].
Defined.

(** ** Package reason: normalisation, validation and the text encoding *)

Section ReasonText.

Lemma ReplaceAll_bytes (s : string) (old new : ascii) (c : ascii) :
  In c (bytesOf (reason.ReplaceAll s old new)) ->
  (c = new /\ In old (bytesOf s)) \/ (c <> old /\ In c (bytesOf s)).
Proof.
  induction s as [|a s IH]; simpl; [intros []|].
  destruct (Ascii.eqb_spec a old) as [-> | Hne].
  - intros [<- | Hin]; [left; split; [reflexivity | now left]|].
    destruct (IH Hin) as [[-> Ho] | [Hc Hs]]; [left | right]; split; auto.
  - intros [<- | Hin]; [right; split; [assumption | now left]|].
    destruct (IH Hin) as [[-> Ho] | [Hc Hs]]; [left | right]; split; auto.
Qed.

Lemma ReplaceAll_same (s : string) (old new : ascii) :
  ~ In old (bytesOf s) -> reason.ReplaceAll s old new = s.
Proof.
  induction s as [|a s IH]; simpl; [reflexivity|]. intros Hn.
  destruct (Ascii.eqb_spec a old) as [-> | Hne]; [exfalso; apply Hn; now left|].
  f_equal. apply IH. intros Hin. apply Hn. now right.
Qed.

Lemma skipSegChars_app (a x : string) :
  forallb isSegChar (bytesOf a) = true -> boundary x ->
  reason.skipSegChars (a +:+ x) = x.
Proof.
  intros Ha Hx. induction a as [|c a IH].
  - rewrite str_app_nil_l. destruct Hx as [-> | [x' ->]]; reflexivity.
  - rewrite str_app_cons. simpl in Ha. apply andb_true_iff in Ha as [Hc Ha].
    cbn [reason.skipSegChars]. rewrite Hc. now apply IH.
Qed.

Lemma skipSegChars_split (s : string) :
  exists a, forallb isSegChar (bytesOf a) = true /\ s = a +:+ reason.skipSegChars s.
Proof.
  induction s as [|c s (a & Ha & Hs)].
  - exists "". split; reflexivity.
  - cbn [reason.skipSegChars]. destruct (isSegChar c) eqn:Hc.
    + exists (String c a). split; [simpl; now rewrite Hc|].
      rewrite str_app_cons. now f_equal.
    + exists "". split; [reflexivity | now rewrite str_app_nil_l].
Qed.

Lemma segmentAt_app (seg x : string) :
  literal seg = true -> boundary x -> reason.segmentAt (seg +:+ x) = Some x.
Proof.
  intros Hl Hx. destruct seg as [|c a]; [discriminate|].
  simpl in Hl. apply andb_true_iff in Hl as [Hc Ha].
  rewrite str_app_cons. cbn [reason.segmentAt]. rewrite Hc. f_equal.
  now apply skipSegChars_app.
Qed.

Lemma segmentAt_inv (s rest : string) :
  reason.segmentAt s = Some rest -> exists seg, literal seg = true /\ s = seg +:+ rest.
Proof.
  destruct s as [|c s]; [discriminate|]. cbn [reason.segmentAt].
  destruct (isLower c) eqn:Hc; [|discriminate]. intros [= <-].
  destruct (skipSegChars_split s) as (a & Ha & Hs).
  exists (String c a). split; [simpl; now rewrite Hc|].
  rewrite str_app_cons. now f_equal.
Qed.

Lemma Join_dotted (seg : string) (segs : list string) :
  Join (seg :: segs) = seg +:+ dotted segs.
Proof.
  revert seg. induction segs as [|s l IH]; intros seg.
  - simpl. now rewrite str_app_nil_r.
  - rewrite Join_cons by discriminate. rewrite IH. reflexivity.
Qed.

Lemma dotted_boundary (segs : list string) : boundary (dotted segs).
Proof. destruct segs; [now left | right; eauto]. Qed.

Lemma moreSegments_dotted (n : nat) (segs : list string) :
  Forall (fun seg => literal seg = true) segs -> (length segs <= n)%nat ->
  reason.moreSegments n (dotted segs) = true.
Proof.
  intros Hall. revert n. induction Hall as [|seg segs Hs Hall IH]; intros n Hn.
  - now destruct n.
  - destruct n as [|n]; [simpl in Hn; lia|].
    cbn [dotted reason.moreSegments].
    rewrite (segmentAt_app seg _ Hs (dotted_boundary segs)).
    apply IH. simpl in Hn. lia.
Qed.

Lemma moreSegments_inv (n : nat) (rest : string) :
  reason.moreSegments n rest = true ->
  exists segs, Forall (fun seg => literal seg = true) segs /\ (length segs <= n)%nat /\
               rest = dotted segs.
Proof.
  revert rest. induction n as [|n IH]; intros rest.
  - destruct rest; [|discriminate]. intros _. exists []. now repeat split.
  - destruct rest as [|c s]; [intros _; exists []; repeat split; [constructor | simpl; lia]|].
    cbn [reason.moreSegments]. intros Hm. apply andb_true_iff in Hm as [Hc Hm].
    apply Ascii.eqb_eq in Hc. subst c.
    destruct (reason.segmentAt s) as [rest|] eqn:Hs; [|discriminate].
    apply segmentAt_inv in Hs as (seg & Hl & ->).
    apply IH in Hm as (segs & Hall & Hlen & ->).
    exists (seg :: segs). split; [now constructor|]. split; [simpl; lia | reflexivity].
Qed.

(** The expression accepts exactly the texts of one to four literal
    segments joined by dots. *)
Lemma reasonRe_Split (s : string) :
  reason.reasonRe_MatchString s = true <->
  (length (Split s) <= 4)%nat /\ Forall (fun seg => literal seg = true) (Split s).
Proof.
  unfold reason.reasonRe_MatchString. split.
  - destruct (reason.segmentAt s) as [rest|] eqn:Hs; [|discriminate]. intros Hm.
    apply segmentAt_inv in Hs as (seg & Hl & ->).
    apply moreSegments_inv in Hm as (segs & Hall & Hlen & ->).
    rewrite <- Join_dotted. rewrite Split_Join.
    + split; [simpl; lia | now constructor].
    + discriminate.
    + constructor; [now apply literal_dotless|].
      eapply Forall_impl; [exact Hall|]. intros x. apply literal_dotless.
  - intros [Hlen Hall]. rewrite <- (Join_Split s).
    pose proof (Split_nonempty s) as Hne.
    destruct (Split s) as [|seg segs]; [congruence|].
    inversion Hall as [|? ? Hs Hall']; subst. rewrite Join_dotted.
    rewrite (segmentAt_app seg _ Hs (dotted_boundary segs)).
    apply moreSegments_dotted; [assumption | simpl in Hlen; lia].
Qed.

Lemma validate_None (s : string) : reason.validate s = None <-> canonical s.
Proof.
  unfold reason.validate, canonical.
  destruct (String.length s <? reason.MinLength)%nat eqn:H1;
    [apply Nat.ltb_lt in H1; simpl; split; [discriminate | lia]|].
  destruct (reason.MaxLength <? String.length s)%nat eqn:H2;
    [apply Nat.ltb_lt in H2; simpl; split; [discriminate | lia]|].
  apply Nat.ltb_ge in H1, H2. simpl.
  destruct (reason.reasonRe_MatchString s) eqn:Hm; simpl.
  - apply reasonRe_Split in Hm. split; [intros _; split; [lia | exact Hm] | reflexivity].
  - split; [discriminate|]. intros [_ Hc]. apply reasonRe_Split in Hc. congruence.
Qed.

Lemma literal_bytes (seg : string) :
  literal seg = true -> Forall canonicalByte (bytesOf seg).
Proof.
  destruct seg as [|c a]; [discriminate|]. simpl. intros Hl.
  apply andb_true_iff in Hl as [Hc Ha]. constructor.
  - left. now apply isLower_segChar.
  - rewrite forallb_forall in Ha. apply Forall_forall. intros x Hx. left.
    apply Ha. now apply list_elem_of_In.
Qed.

Lemma bytesOf_app (a b : string) : bytesOf (a +:+ b) = (bytesOf a ++ bytesOf b)%list.
Proof.
  induction a as [|c a IH]; [now rewrite str_app_nil_l|].
  rewrite str_app_cons. simpl. now f_equal.
Qed.

Lemma canonical_bytes (s : string) :
  Forall (fun seg => literal seg = true) (Split s) -> Forall canonicalByte (bytesOf s).
Proof.
  intros Hall. rewrite <- (Join_Split s).
  induction Hall as [|seg segs Hs Hall IH]; [constructor|].
  destruct segs as [|seg' segs]; [now apply literal_bytes|].
  rewrite Join_cons by discriminate. rewrite !bytesOf_app.
  apply Forall_app. split; [now apply literal_bytes|].
  apply Forall_app. split; [|exact IH].
  constructor; [now right | constructor].
Qed.

Lemma canonicalByte_kept (s : string) :
  Forall canonicalByte (bytesOf s) -> ~ In "/"%char (bytesOf s) /\ ~ In "-"%char (bytesOf s).
Proof.
  intros Hall. rewrite Forall_forall in Hall.
  split; intros Hin; apply list_elem_of_In, Hall in Hin;
    destruct Hin as [Hc | Hc]; discriminate Hc.
Qed.

End ReasonText.

(** X6. Whatever text it is given, [Normalize] returns a text without a
    slash and without a dash. *)
Theorem Normalize_leaves_no_slash_or_dash (R : Runtime) (s : string) :
  ~ In "/"%char (bytesOf (reason.Normalize s)) /\
  ~ In "-"%char (bytesOf (reason.Normalize s)).
Proof.
  unfold reason.Normalize. cbv zeta.
  destruct (String.eqb (strings_TrimSpace s) ""); [split; intros []|].
  split; intros Hin.
  - apply ReplaceAll_bytes in Hin as [[Hc _] | [_ Hin]]; [discriminate Hc|].
    apply ReplaceAll_bytes in Hin as [[Hc _] | [Hc _]]; [discriminate Hc | now apply Hc].
  - apply ReplaceAll_bytes in Hin as [[Hc _] | [Hc _]]; [discriminate Hc | now apply Hc].
Qed.

(** X7. [validate] accepts exactly the canonical texts: 3 to 128 bytes, one
    to four segments between dots, each a lowercase letter followed by
    lowercase letters, digits and underscores.  A length out of range is
    reported as such, before the format is looked at. *)
Theorem validate_accepts_exactly_canonical (s : string) :
  (reason.validate s = None <-> canonical s) /\
  (reason.validate s = Some reason.ErrReasonInvalidLength
   <-> (String.length s < 3 \/ 128 < String.length s)%nat) /\
  (reason.validate s = Some reason.ErrReasonInvalidFormat
   <-> (3 <= String.length s <= 128)%nat /\
       ~ ((length (Split s) <= 4)%nat /\ Forall (fun seg => literal seg = true) (Split s))).
Proof.
  split; [apply validate_None|].
  unfold reason.validate, reason.MinLength, reason.MaxLength.
  destruct (Nat.ltb_spec (String.length s) 3) as [H1 | H1]; cbn [orb].
  { split; split; try discriminate;
      [intros _; now left | reflexivity | intros [Hr _]; lia]. }
  destruct (Nat.ltb_spec 128 (String.length s)) as [H2 | H2]; cbn [orb].
  { split; split; try discriminate;
      [intros _; now right | reflexivity | intros [Hr _]; lia]. }
  destruct (reason.reasonRe_MatchString s) eqn:Hm; cbn [negb].
  - apply reasonRe_Split in Hm. split; split; try discriminate; [lia|].
    intros [_ Hn]. contradiction.
  - split; split; try discriminate; [lia | | reflexivity]. intros _. split; [lia|].
    intros Hc. apply reasonRe_Split in Hc. congruence.
Qed.

(** X8. What [Parse] returns passes [Validate]; when it is not the empty
    reason, [MustParse] returns it too, it is canonical, the matcher of the
    trie reads all of its segments, and it is itself a well-formed prefix
    pattern.  On the empty reason [MustParse] panics. *)
Theorem parsed_reason_is_read_entirely (R : Runtime) (s r : string) :
  reason.Parse s = inl r ->
  reason.Validate r = None /\
  (r = "" -> reason.MustParse s = inr reason.PanicEmptyReason) /\
  (r <> "" ->
   reason.MustParse s = inl r /\
   canonical r /\ segmentsOf r = Split r /\ wellFormedPrefix r).
Proof.
  intros Hparse. unfold reason.MustParse. rewrite Hparse. revert Hparse.
  unfold reason.Parse. cbv zeta.
  destruct (String.eqb_spec (reason.Normalize s) "") as [He | Hne].
  - intros [= <-]. split; [reflexivity|]. split; [reflexivity|].
    intros Hn; now contradiction Hn.
  - destruct (reason.validate (reason.Normalize s)) as [err|] eqn:Hv; [discriminate|].
    intros [= <-]. set (r := reason.Normalize s) in *.
    pose proof Hne as Hneb. apply String.eqb_neq in Hneb. unfold reason.Empty.
    split; [|split; [intros He; contradiction|]].
    + unfold reason.Validate, reason.Empty. now rewrite Hneb.
    + intros _. rewrite Hneb. split; [reflexivity|].
      pose proof (proj1 (validate_None r) Hv) as Hc. split; [exact Hc|].
      destruct Hc as (_ & _ & Hall). split.
      * rewrite <- (Join_Split r) at 1. now apply segmentsOf_Join.
      * split; [exact Hne|]. split.
        -- eapply Forall_impl; [exact Hall|]. intros x Hx. now left.
        -- pose proof (Split_nonempty r) as Hs. destruct (Split r) as [|seg segs]; [congruence|].
           inversion Hall; subst. apply Exists_cons_hd. now apply literal_not_star.
Qed.

(** X9. The text encoding round-trips: where trimming and lower-casing leave
    canonical text as it is, a reason that passes [Validate] is marshalled to
    its own text, unmarshalling that text gives the reason back, and [Parse]
    returns it unchanged. *)
Theorem reason_text_round_trip (R : Runtime) (r r0 : string) :
  (forall s, Forall canonicalByte (bytesOf s) -> strings_TrimSpace s = s) ->
  (forall s, Forall canonicalByte (bytesOf s) -> strings_ToLower s = s) ->
  reason.Validate r = None ->
  reason.MarshalText r = inl r /\
  reason.UnmarshalText r0 r = (r, None) /\
  reason.Parse r = inl r.
Proof.
  intros Htrim Hlow Hv.
  assert (Hb : Forall canonicalByte (bytesOf r)).
  { unfold reason.Validate in Hv. destruct (String.eqb_spec r reason.Empty) as [-> | Hne].
    - constructor.
    - apply validate_None in Hv as (_ & _ & Hall). now apply canonical_bytes. }
  assert (Hp : reason.Parse r = inl r).
  { unfold reason.Parse, reason.Normalize. cbv zeta. rewrite (Htrim r Hb).
    destruct (String.eqb_spec r "") as [-> | Hne]; [reflexivity|].
    rewrite (Hlow r Hb).
    destruct (canonicalByte_kept r Hb) as [Hs Hd].
    rewrite (ReplaceAll_same r "/" "." Hs), (ReplaceAll_same r "-" "_" Hd).
    apply String.eqb_neq in Hne. rewrite Hne.
    unfold reason.Validate, reason.Empty in Hv. rewrite Hne in Hv. now rewrite Hv. }
  split; [|split; [|exact Hp]].
  - unfold reason.MarshalText. rewrite Hv.
    destruct (String.eqb_spec r reason.Empty) as [-> | Hne]; reflexivity.
  - unfold reason.UnmarshalText. cbv zeta. rewrite (Htrim r Hb). now rewrite Hp.
Qed.

Section ReasonExamples.
#[local] Existing Instance Ascii7.runtime.

Lemma canonicalByte_plain (c : ascii) :
  canonicalByte c -> Ascii7.isSpace c = false /\ Ascii7.lowerByte c = c.
Proof.
  destruct c as [[] [] [] [] [] [] [] []]; intros [Hc | Hc];
    try discriminate Hc; split; reflexivity.
Qed.

Lemma TrimSpace_canonical (s : string) :
  Forall canonicalByte (bytesOf s) -> Ascii7.TrimSpace s = s.
Proof.
  intros Hall. unfold Ascii7.TrimSpace.
  assert (Hl : Ascii7.trimLeft s = s).
  { destruct s as [|c s]; [reflexivity|]. inversion Hall as [|? ? Hc _]; subst.
    simpl. now rewrite (proj1 (canonicalByte_plain c Hc)). }
  rewrite Hl. induction s as [|c s IH]; [reflexivity|].
  inversion Hall as [|? ? Hc Hs]; subst. cbn [Ascii7.trimRight].
  rewrite IH.
  - destruct s; [now rewrite (proj1 (canonicalByte_plain c Hc)) | reflexivity].
  - exact Hs.
  - destruct s as [|c' s]; [reflexivity|]. inversion Hs as [|? ? Hc' _]; subst.
    simpl. now rewrite (proj1 (canonicalByte_plain c' Hc')).
Qed.

Lemma ToLower_canonical (s : string) :
  Forall canonicalByte (bytesOf s) -> Ascii7.mapBytes Ascii7.lowerByte s = s.
Proof.
  induction s as [|c s IH]; [reflexivity|]. intros Hall.
  inversion Hall as [|? ? Hc Hs]; subst. simpl.
  rewrite (proj2 (canonicalByte_plain c Hc)). f_equal. now apply IH.
Qed.

Lemma parsed_reason_is_read_entirely_witness :
  reason.Parse " Storage/PG.connect-timeout " = inl "storage.pg.connect_timeout" /\
  segmentsOf "storage.pg.connect_timeout" = Split "storage.pg.connect_timeout".
Proof.
  split; [vm_compute; reflexivity|].
  apply (parsed_reason_is_read_entirely Ascii7.runtime " Storage/PG.connect-timeout "
           "storage.pg.connect_timeout"); [vm_compute; reflexivity | discriminate].
Defined.

Lemma reason_text_round_trip_witness :
  reason.Validate "auth.jwt.verify" = None /\
  reason.UnmarshalText "" "auth.jwt.verify" = ("auth.jwt.verify", None).
Proof.
  split; [vm_compute; reflexivity|].
  apply (reason_text_round_trip Ascii7.runtime "auth.jwt.verify" "").
  - exact TrimSpace_canonical.
  - exact ToLower_canonical.
  - vm_compute. reflexivity.
Defined.

End ReasonExamples.

(** ** The mapper that [New] builds, in terms of its options *)

Section Configured.

Lemma applied_settings (opts : list Option) (b : builder) (c : code.Code) :
  let b' := fold_left (fun b opt => applyOption opt b) opts b in
  httpDefaults b' !! c = orElse (lastSet HTTP DefaultSlot opts c) (httpDefaults b !! c) /\
  grpcDefaults b' !! c = orElse (lastSet GRPC DefaultSlot opts c) (grpcDefaults b !! c) /\
  bHttpOverride b' !! c = orElse (lastSet HTTP OverrideSlot opts c) (bHttpOverride b !! c) /\
  bGrpcOverride b' !! c = orElse (lastSet GRPC OverrideSlot opts c) (bGrpcOverride b !! c).
Proof.
  cbv zeta. revert b. induction opts as [|opt opts IH]; intros b; [now repeat split|].
  cbn [fold_left lastSet].
  destruct (IH (applyOption opt b)) as (-> & -> & -> & ->). clear IH.
  destruct (lastSet HTTP DefaultSlot opts c), (lastSet GRPC DefaultSlot opts c),
    (lastSet HTTP OverrideSlot opts c), (lastSet GRPC OverrideSlot opts c);
    destruct opt as [c' x|c' x|c' x|c' x|c' p' x|c' p' x];
    cbn [applyOption httpDefaults grpcDefaults bHttpOverride bGrpcOverride setting orElse];
    repeat split; try reflexivity;
    (destruct (decide (c' = c)) as [-> | Hne];
     [now rewrite lookup_insert_eq | now rewrite lookup_insert_ne]).
Qed.

Lemma applied_rulesIn (opts : list Option) (b : builder) (c : code.Code) :
  let b' := fold_left (fun b opt => applyOption opt b) opts b in
  rulesOf (httpPrefixes b') c = (rulesOf (httpPrefixes b) c ++ rulesIn HTTP opts c)%list /\
  rulesOf (grpcPrefixes b') c = (rulesOf (grpcPrefixes b) c ++ rulesIn GRPC opts c)%list.
Proof.
  cbv zeta. revert b. induction opts as [|opt opts IH]; intros b.
  - simpl. now rewrite !app_nil_r.
  - cbn [fold_left rulesIn]. destruct (IH (applyOption opt b)) as (-> & ->). clear IH.
    destruct opt as [c' x|c' x|c' x|c' x|c' p' x|c' p' x];
      cbn [applyOption httpPrefixes grpcPrefixes ruleOf]; try (split; reflexivity);
      rewrite rulesOf_insert; destruct (decide (c' = c)) as [-> | Hne];
      split; try reflexivity; now rewrite <- app_assoc.
Qed.

(** The maps of the configured builder, key by key. *)
Lemma configure_fields (opts : list Option) (c : code.Code) :
  httpDefaults (configure opts) !! c
  = orElse (lastSet HTTP DefaultSlot opts c) (defaultHTTP !! c) /\
  grpcDefaults (configure opts) !! c
  = orElse (lastSet GRPC DefaultSlot opts c) (defaultGRPC !! c) /\
  bHttpOverride (configure opts) !! c = lastSet HTTP OverrideSlot opts c /\
  bGrpcOverride (configure opts) !! c = lastSet GRPC OverrideSlot opts c /\
  rulesOf (httpPrefixes (configure opts)) c = rulesIn HTTP opts c /\
  rulesOf (grpcPrefixes (configure opts)) c = rulesIn GRPC opts c.
Proof.
  unfold configure.
  destruct (applied_settings opts seeded c) as (-> & -> & -> & ->).
  destruct (applied_rulesIn opts seeded c) as (-> & ->).
  cbn [seeded httpDefaults grpcDefaults bHttpOverride bGrpcOverride httpPrefixes grpcPrefixes
       newBuilder].
  rewrite !(right_id_L ∅ (∪)). unfold rulesOf. rewrite !lookup_empty.
  repeat split; try reflexivity.
  - now destruct (lastSet HTTP OverrideSlot opts c).
  - now destruct (lastSet GRPC OverrideSlot opts c).
Qed.

End Configured.

Section BuiltTries.
Context `{Runtime}.
Context {T : Type} (zero : T) (conv : Z -> T) (f : family).

Lemma buildTries_skip (entries : list (code.Code * list prefixRule))
    (acc tries : gmap code.Code (option (Trie T))) (c : code.Code) :
  (forall rules, (c, rules) ∈ entries -> rules = []) ->
  buildTries zero conv f entries acc = inl tries -> tries !! c = acc !! c.
Proof.
  revert acc. induction entries as [|[c' rules'] entries IH]; intros acc Hc; cbn [buildTries].
  - now intros [= <-].
  - assert (Hc' : forall rules, (c, rules) ∈ entries -> rules = [])
      by (intros rules Hin; apply Hc; now right).
    destruct rules' as [|r rules']; cbn [length Nat.eqb]; [now apply IH|].
    destruct (insertRules zero conv f c' (r :: rules') (segmenttrie.New zero)) as [t|e];
      [|discriminate].
    intros Hb. rewrite (IH _ Hc' Hb). apply lookup_insert_ne. intros ->.
    specialize (Hc (r :: rules')). discriminate Hc. now left.
Qed.

Lemma buildTries_at (entries : list (code.Code * list prefixRule))
    (acc tries : gmap code.Code (option (Trie T))) (c : code.Code) (rules : list prefixRule) :
  NoDup (fst <$> entries) -> (c, rules) ∈ entries -> rules <> [] ->
  buildTries zero conv f entries acc = inl tries ->
  exists t, insertRules zero conv f c rules (segmenttrie.New zero) = inl t /\
            tries !! c = Some (Some t).
Proof.
  revert acc. induction entries as [|[c' rules'] entries IH]; intros acc Hnd Hin Hne;
    [now apply elem_of_nil in Hin|].
  rewrite fmap_cons in Hnd. apply NoDup_cons in Hnd as [Hfresh Hnd].
  apply elem_of_cons in Hin as [[= <- <-] | Hin]; cbn [buildTries].
  - destruct rules as [|r rules]; [congruence|]. cbn [length Nat.eqb].
    destruct (insertRules zero conv f c (r :: rules) (segmenttrie.New zero)) as [t|e];
      [|discriminate].
    intros Hb. exists t. split; [reflexivity|].
    rewrite (buildTries_skip entries (<[c:=Some t]> acc) tries c);
      [apply lookup_insert_eq | | exact Hb].
    intros rules' Hin. exfalso. apply Hfresh.
    apply (list_elem_of_fmap_2 fst _ _ Hin).
  - destruct (length rules' =? 0)%nat; [now apply IH|].
    destruct (insertRules zero conv f c' rules' (segmenttrie.New zero)) as [t|e];
      [|discriminate].
    now apply IH.
Qed.

(** The trie that [New] stores for a code: none when the code has no rule,
    the one built from its rules otherwise. *)
Lemma buildTries_rulesOf (P : gmap code.Code (list prefixRule))
    (tries : gmap code.Code (option (Trie T))) (c : code.Code) :
  buildTries zero conv f (map_to_list P) ∅ = inl tries ->
  (rulesOf P c = [] /\ tries !! c = None) \/
  (rulesOf P c <> [] /\
   exists t, insertRules zero conv f c (rulesOf P c) (segmenttrie.New zero) = inl t /\
             tries !! c = Some (Some t)).
Proof.
  intros Hb. unfold rulesOf.
  destruct (P !! c) as [rules|] eqn:Hc.
  - destruct rules as [|r rules].
    + left. split; [reflexivity|]. rewrite (buildTries_skip (map_to_list P) ∅ tries c); [apply lookup_empty | | exact Hb].
      intros rules Hin. apply elem_of_map_to_list in Hin. congruence.
    + right. split; [discriminate|].
      apply (buildTries_at (map_to_list P) ∅ tries c (r :: rules)); try assumption.
      * apply NoDup_fst_map_to_list.
      * now apply elem_of_map_to_list.
      * discriminate.
  - left. split; [reflexivity|]. rewrite (buildTries_skip (map_to_list P) ∅ tries c); [apply lookup_empty | | exact Hb].
    intros rules Hin. apply elem_of_map_to_list in Hin. congruence.
Qed.

Lemma insertRules_insertAll (c : code.Code) (rules : list prefixRule) (t t' : Trie T) :
  insertRules zero conv f c rules t = inl t' ->
  insertAll zero (map (fun r => (reason.Normalize (prefix r), conv (ruleVal r))) rules) t
  = inl t'.
Proof.
  revert t. induction rules as [|r rules IH]; intros t; cbn [insertRules map insertAll];
    [now intros [= <-]|].
  destruct (normalizeAndValidatePrefix (prefix r)) as [p|cause] eqn:Hn; [|discriminate].
  apply normalizeAndValidatePrefix_inl in Hn as (-> & _).
  destruct (Insert zero (Some t) (reason.Normalize (prefix r)) (conv (ruleVal r))) as [t1|e];
    [apply IH | discriminate].
Qed.

(** What the trie of a code answers, against the compiled rules. *)
Lemma Match_compiled (c : code.Code) (rules : list prefixRule) (t : Trie T) (r : string) :
  insertRules zero conv f c rules (segmenttrie.New zero) = inl t ->
  ((exists ks v, compiled conv rules !! ks = Some v /\ matchesPrefix ks (segmentsOf r)) ->
   exists ks v, longestMatch (compiled conv rules) (segmentsOf r) ks v /\
                Match zero (Some t) r = (v, true)) /\
  ((forall ks v, compiled conv rules !! ks = Some v -> ~ matchesPrefix ks (segmentsOf r)) ->
   snd (Match zero (Some t) r) = false).
Proof.
  intros Hi. apply insertRules_insertAll in Hi.
  destruct (insertAll_answers zero _ t r Hi) as [Hlong Hiff].
  rewrite Match_MatchWithPattern. split.
  - intros Hex. apply Hiff in Hex as (v & pat & Hm).
    destruct (Hlong v pat Hm) as (ks & _ & _ & _ & Hl & _).
    exists ks, v. split; [exact Hl | now rewrite Hm].
  - intros Hno. destruct (MatchWithPattern zero (Some t) r) as [[v b] pat] eqn:Hm.
    destruct b; [|reflexivity]. exfalso.
    destruct (proj2 Hiff (ex_intro _ v (ex_intro _ pat eq_refl))) as (ks & v' & Hk & Hmp).
    exact (Hno ks v' Hk Hmp).
Qed.

End BuiltTries.

Section Snapshot.
Context `{Runtime}.

(** The fields of the mapper that [New] returns, key by key. *)
Lemma New_fields (opts : list Option) (m : mapper) (c : code.Code) :
  New opts = inl m ->
  httpOverride m !! c = lastSet HTTP OverrideSlot opts c /\
  grpcOverride m !! c = codes.ofInt <$> lastSet GRPC OverrideSlot opts c /\
  httpDefault m !! c = orElse (lastSet HTTP DefaultSlot opts c) (defaultHTTP !! c) /\
  grpcDefault m !! c
  = codes.ofInt <$> orElse (lastSet GRPC DefaultSlot opts c) (defaultGRPC !! c) /\
  ((rulesIn HTTP opts c = [] /\ httpTrie m !! c = None) \/
   (rulesIn HTTP opts c <> [] /\
    exists t, insertRules 0 (fun v => v) HTTP c (rulesIn HTTP opts c) (segmenttrie.New 0)
              = inl t /\ httpTrie m !! c = Some (Some t))) /\
  ((rulesIn GRPC opts c = [] /\ grpcTrie m !! c = None) \/
   (rulesIn GRPC opts c <> [] /\
    exists t, insertRules 0 codes.ofInt GRPC c (rulesIn GRPC opts c) (segmenttrie.New 0)
              = inl t /\ grpcTrie m !! c = Some (Some t))).
Proof.
  unfold New, freeze.
  destruct (buildTries 0 (fun v => v) HTTP _ ∅) as [ht|eh] eqn:Hh; [|discriminate].
  destruct (buildTries 0 codes.ofInt GRPC _ ∅) as [gt|eg] eqn:Hg; [|discriminate].
  intros [= <-].
  cbn [httpOverride grpcOverride httpDefault grpcDefault httpTrie grpcTrie].
  unfold freezeHTTPDefaults, freezeGRPCDefaults, freezeHTTPOverrides, freezeGRPCOverrides,
    freezeHTTPTrie, freezeGRPCTrie.
  rewrite !lookup_fmap.
  destruct (configure_fields opts c) as (-> & -> & -> & -> & Hrh & Hrg).
  apply (buildTries_rulesOf 0 (fun v => v) HTTP _ ht c) in Hh.
  apply (buildTries_rulesOf 0 codes.ofInt GRPC _ gt c) in Hg.
  rewrite Hrh in Hh. rewrite Hrg in Hg. now repeat split.
Qed.

Lemma compiled_nil {T : Type} (conv : Z -> T) ks : compiled conv [] !! ks = None.
Proof. apply lookup_empty. Qed.

Lemma lastSet_optionsOf (f : family) (k : slot) (opts : list Option) (c : code.Code) :
  lastSet f k (optionsOf f opts) c = lastSet f k opts c.
Proof.
  induction opts as [|opt opts IH]; [reflexivity|].
  unfold optionsOf in *. cbn [List.filter lastSet].
  destruct opt, f; cbn [familyOf sameFamily lastSet]; rewrite IH; try reflexivity;
    destruct k; cbn [setting]; now destruct (lastSet _ _ opts c).
Qed.

Lemma rulesIn_optionsOf (f : family) (opts : list Option) (c : code.Code) :
  rulesIn f (optionsOf f opts) c = rulesIn f opts c.
Proof.
  induction opts as [|opt opts IH]; [reflexivity|].
  unfold optionsOf in *. cbn [List.filter rulesIn].
  destruct opt, f; cbn [familyOf sameFamily rulesIn ruleOf]; rewrite IH; reflexivity.
Qed.

(** The first invalid segment is the one reported. *)
Lemma checkSegments_first (segs : list string) (b : bool) (e : prefixCause) :
  checkSegments segs b = inl e ->
  exists before seg after,
    segs = (before ++ seg :: after)%list /\ e = InvalidSegment seg /\
    Forall patternSegment before /\ ~ patternSegment seg.
Proof.
  revert b. induction segs as [|s segs IH]; intros b; cbn [checkSegments]; [discriminate|].
  destruct (validPrefixSegment s) eqn:Hv; cbn [negb].
  - intros Hc. apply IH in Hc as (before & seg & after & -> & -> & Hall & Hbad).
    exists (s :: before), seg, after. repeat split; try assumption.
    constructor; [now apply validPrefixSegment_true | assumption].
  - intros [= <-]. exists [], s, segs. repeat split; [constructor|].
    intros Hp. apply validPrefixSegment_true in Hp. congruence.
Qed.

Lemma normalizeAndValidatePrefix_cause (raw : string) (cause : prefixCause) :
  normalizeAndValidatePrefix raw = inr cause -> causeOf raw cause.
Proof.
  unfold normalizeAndValidatePrefix, causeOf. cbv zeta.
  destruct (String.eqb_spec (reason.Normalize raw) "") as [Heq | Hne]; [now intros [= <-]|].
  destruct (checkSegments (Split (reason.Normalize raw)) true) as [e|w] eqn:Hc.
  - intros [= <-]. apply checkSegments_first in Hc as (before & seg & after & Hs & -> & Hall & Hbad).
    split; [assumption|]. now exists before, after.
  - destruct w; [|discriminate]. intros [= <-]. split; [assumption|].
    apply checkSegments_inr in Hc as [_ Hw]. symmetry in Hw. cbn [andb] in Hw.
    rewrite forallb_forall in Hw. apply Forall_forall. intros x Hx.
    apply list_elem_of_In, Hw in Hx. now apply String.eqb_eq in Hx.
Qed.

Lemma malformed_wellFormed (raw : string) :
  malformed raw <-> ~ wellFormedPrefix (reason.Normalize raw).
Proof.
  split.
  - intros Hm (Hne & Hall & Hex). rewrite Forall_forall in Hall.
    destruct Hm as [He | [He | [(seg & Hin & Hs1 & Hs2 & Hl) | Hf]]].
    + contradiction.
    + apply list_elem_of_In, Hall in He. destruct He as [He | He]; discriminate He.
    + apply list_elem_of_In, Hall in Hin. destruct Hin as [Hin | Hin]; congruence.
    + apply Exists_exists in Hex as (x & Hx & Hn). rewrite Forall_forall in Hf.
      apply Hn, Hf, Hx.
  - intros Hn. destruct (normalizeAndValidatePrefix raw) as [p|cause] eqn:Hv.
    + exfalso. apply Hn. apply normalizeAndValidatePrefix_inl in Hv as (-> & Hne & Hall & Hw).
      split; [assumption|]. split.
      * rewrite forallb_forall in Hall. apply Forall_forall. intros x Hx.
        apply validPrefixSegment_true, Hall. now apply list_elem_of_In.
      * now apply forallb_star.
    + now apply normalizeAndValidatePrefix_inr in Hv.
Qed.

End Snapshot.

Section Causes.
Context `{Runtime}.
Context {T : Type} (zero : T) (conv : Z -> T) (f : family).

Lemma insertRules_cause (c : code.Code) (rules : list prefixRule) (t : Trie T) (e : buildError) :
  insertRules zero conv f c rules t = inr e ->
  exists r cause, In r rules /\ e = InvalidReasonPrefix f (prefix r) c cause /\
                  causeOf (prefix r) cause.
Proof.
  revert t. induction rules as [|r rules IH]; intros t; cbn [insertRules]; [discriminate|].
  destruct (normalizeAndValidatePrefix (prefix r)) as [p|cause] eqn:Hn.
  - destruct (Insert_validated zero (prefix r) p t (conv (ruleVal r)) Hn) as [t' ->].
    intros Hr. apply IH in Hr as (r' & cause & Hin & -> & Hm).
    exists r', cause. split; [now right | now split].
  - intros [= <-]. exists r, cause. split; [now left|]. split; [reflexivity|].
    now apply normalizeAndValidatePrefix_cause.
Qed.

Lemma buildTries_cause (entries : list (code.Code * list prefixRule))
    (acc : gmap code.Code (option (Trie T))) (e : buildError) :
  buildTries zero conv f entries acc = inr e ->
  exists c rules r cause,
    In (c, rules) entries /\ In r rules /\
    e = InvalidReasonPrefix f (prefix r) c cause /\ causeOf (prefix r) cause.
Proof.
  revert acc. induction entries as [|[c rules] entries IH]; intros acc; cbn [buildTries];
    [discriminate|].
  assert (Hrec : forall acc', buildTries zero conv f entries acc' = inr e ->
             exists c0 rules0 r cause,
               In (c0, rules0) ((c, rules) :: entries) /\ In r rules0 /\
               e = InvalidReasonPrefix f (prefix r) c0 cause /\ causeOf (prefix r) cause).
  { intros acc' Hb. apply IH in Hb as (c0 & rules0 & r & cause & Hin & Hr & He & Hm).
    exists c0, rules0, r, cause. split; [now right | now repeat split]. }
  destruct (length rules =? 0)%nat; [apply Hrec|].
  destruct (insertRules zero conv f c rules (segmenttrie.New zero)) as [t|e'] eqn:Hr;
    [apply Hrec|].
  intros [= <-]. apply insertRules_cause in Hr as (r & cause & Hin & He & Hm).
  exists c, rules, r, cause. split; [now left | now repeat split].
Qed.

End Causes.

(** X10. The HTTP status that a built mapper resolves, in terms of the
    options it was built from.  The override set last for the code decides.
    Without one, if a prefix rule registered for the code matches the reason,
    the status is the value of a longest such rule (patterns compared after
    normalisation, the rule registered last for a pattern counting);
    otherwise it is the default set last for the code, else the library
    default of the code, else 500. *)
Theorem HTTPStatus_follows_options (R : Runtime) (opts : list Option) (m : mapper)
    (c : code.Code) (r : reason.Reason) :
  New opts = inl m ->
  match lastSet HTTP OverrideSlot opts c with
  | Some v => HTTPStatus m c r = v
  | None =>
      let M := compiled (fun v => v) (rulesIn HTTP opts c) in
      ((exists ks v, M !! ks = Some v /\ matchesPrefix ks (segmentsOf r)) ->
       exists ks v, longestMatch M (segmentsOf r) ks v /\ HTTPStatus m c r = v) /\
      ((forall ks v, M !! ks = Some v -> ~ matchesPrefix ks (segmentsOf r)) ->
       HTTPStatus m c r =
       match orElse (lastSet HTTP DefaultSlot opts c) (defaultHTTP !! c) with
       | Some v => v
       | None => 500
       end)
  end.
Proof.
  intros Hnew.
  destruct (New_fields opts m c Hnew) as (Ho & _ & Hd & _ & Ht & _).
  unfold HTTPStatus. rewrite Ho, Hd.
  destruct (lastSet HTTP OverrideSlot opts c) as [v|]; [reflexivity|]. cbv zeta.
  destruct Ht as [[Hnil ->] | (Hne & t & Hins & ->)].
  - rewrite Hnil. split; [|reflexivity].
    intros (ks & v & Hk & _). now rewrite compiled_nil in Hk.
  - destruct (Match_compiled 0 (fun v => v) HTTP c _ t r Hins) as [Hhit Hmiss]. split.
    + intros Hex. destruct (Hhit Hex) as (ks & v & Hl & ->). now exists ks, v.
    + intros Hno. specialize (Hmiss Hno).
      destruct (Match 0 (Some t) r) as [v b]. simpl in Hmiss. now subst b.
Qed.

(** X11. The gRPC status that a built mapper resolves, in terms of the
    options it was built from: as for HTTP, every value given as an integer
    being converted to a gRPC code, with the library default of the code and
    then [codes.Internal] at the end. *)
Theorem GRPCStatus_follows_options (R : Runtime) (opts : list Option) (m : mapper)
    (c : code.Code) (r : reason.Reason) :
  New opts = inl m ->
  match lastSet GRPC OverrideSlot opts c with
  | Some v => GRPCStatus m c r = codes.ofInt v
  | None =>
      let M := compiled codes.ofInt (rulesIn GRPC opts c) in
      ((exists ks v, M !! ks = Some v /\ matchesPrefix ks (segmentsOf r)) ->
       exists ks v, longestMatch M (segmentsOf r) ks v /\ GRPCStatus m c r = v) /\
      ((forall ks v, M !! ks = Some v -> ~ matchesPrefix ks (segmentsOf r)) ->
       GRPCStatus m c r =
       match orElse (lastSet GRPC DefaultSlot opts c) (defaultGRPC !! c) with
       | Some v => codes.ofInt v
       | None => codes.Internal
       end)
  end.
Proof.
  intros Hnew.
  destruct (New_fields opts m c Hnew) as (_ & Ho & _ & Hd & _ & Ht).
  unfold GRPCStatus. rewrite Ho, Hd.
  destruct (lastSet GRPC OverrideSlot opts c) as [v|]; [reflexivity|]. cbv zeta.
  cbn [fmap option_fmap option_map].
  assert (Hdef : match codes.ofInt <$> orElse (lastSet GRPC DefaultSlot opts c)
                                         (defaultGRPC !! c) with
                 | Some v => v
                 | None => codes.Internal
                 end
                 = match orElse (lastSet GRPC DefaultSlot opts c) (defaultGRPC !! c) with
                   | Some v => codes.ofInt v
                   | None => codes.Internal
                   end)
    by now destruct (orElse (lastSet GRPC DefaultSlot opts c) (defaultGRPC !! c)).
  rewrite Hdef.
  destruct Ht as [[Hnil ->] | (Hne & t & Hins & ->)].
  - rewrite Hnil. split; [|reflexivity].
    intros (ks & v & Hk & _). now rewrite compiled_nil in Hk.
  - destruct (Match_compiled 0 codes.ofInt GRPC c _ t r Hins) as [Hhit Hmiss]. split.
    + intros Hex. destruct (Hhit Hex) as (ks & v & Hl & ->). now exists ks, v.
    + intros Hno. specialize (Hmiss Hno).
      destruct (Match 0 (Some t) r) as [v b]. simpl in Hmiss. now subst b.
Qed.

(** X12. The two transports are configured independently: two mappers built
    from option lists with the same HTTP options resolve the same HTTP
    status for every code and reason, whatever their gRPC options are, and
    the other way round. *)
Theorem transports_are_independent (R : Runtime) (opts opts' : list Option) (m m' : mapper) :
  New opts = inl m -> New opts' = inl m' ->
  (optionsOf HTTP opts = optionsOf HTTP opts' ->
   forall c r, HTTPStatus m c r = HTTPStatus m' c r) /\
  (optionsOf GRPC opts = optionsOf GRPC opts' ->
   forall c r, GRPCStatus m c r = GRPCStatus m' c r).
Proof.
  intros Hm Hm'. split; intros Heq c r.
  - destruct (New_fields opts m c Hm) as (Ho & _ & Hd & _ & Ht & _).
    destruct (New_fields opts' m' c Hm') as (Ho' & _ & Hd' & _ & Ht' & _).
    rewrite <- (lastSet_optionsOf HTTP OverrideSlot opts), Heq, lastSet_optionsOf in Ho.
    rewrite <- (lastSet_optionsOf HTTP DefaultSlot opts), Heq, lastSet_optionsOf in Hd.
    rewrite <- (rulesIn_optionsOf HTTP opts), Heq, rulesIn_optionsOf in Ht.
    unfold HTTPStatus. rewrite Ho, Ho', Hd, Hd'.
    assert (Htrie : httpTrie m !! c = httpTrie m' !! c).
    { destruct Ht as [[Hn ->] | (Hn & t & Hi & ->)],
               Ht' as [[Hn' ->] | (Hn' & t' & Hi' & ->)]; try congruence. }
    now rewrite Htrie.
  - destruct (New_fields opts m c Hm) as (_ & Ho & _ & Hd & _ & Ht).
    destruct (New_fields opts' m' c Hm') as (_ & Ho' & _ & Hd' & _ & Ht').
    rewrite <- (lastSet_optionsOf GRPC OverrideSlot opts), Heq, lastSet_optionsOf in Ho.
    rewrite <- (lastSet_optionsOf GRPC DefaultSlot opts), Heq, lastSet_optionsOf in Hd.
    rewrite <- (rulesIn_optionsOf GRPC opts), Heq, rulesIn_optionsOf in Ht.
    unfold GRPCStatus. rewrite Ho, Ho', Hd, Hd'.
    assert (Htrie : grpcTrie m !! c = grpcTrie m' !! c).
    { destruct Ht as [[Hn ->] | (Hn & t & Hi & ->)],
               Ht' as [[Hn' ->] | (Hn' & t' & Hi' & ->)]; try congruence. }
    now rewrite Htrie.
Qed.

(** X13. An error of [New] is always the rejection of a registered prefix by
    the validation, never a failed insertion into a trie, and the cause it
    wraps is accurate: the normalised prefix is empty, or the segment named
    is its first one that is neither a literal nor the wildcard, or all its
    segments are wildcards. *)
Theorem New_error_names_the_cause (R : Runtime) (opts : list Option) (e : buildError) :
  New opts = inr e ->
  exists f raw c cause,
    e = InvalidReasonPrefix f raw c cause /\ registers f opts c raw /\ causeOf raw cause.
Proof.
  intros He.
  assert (Hwhich : exists f c rules r cause,
             In (c, rules) (map_to_list match f with
                                        | HTTP => httpPrefixes (configure opts)
                                        | GRPC => grpcPrefixes (configure opts)
                                        end) /\
             In r rules /\ e = InvalidReasonPrefix f (prefix r) c cause /\
             causeOf (prefix r) cause).
  { revert He. unfold New, freeze.
    destruct (buildTries 0 (fun v => v) HTTP _ ∅) as [ht|eh] eqn:Hh.
    - destruct (buildTries 0 codes.ofInt GRPC _ ∅) as [gt|eg] eqn:Hg; [discriminate|].
      intros [= <-]. apply buildTries_cause in Hg as (c & rules & r & cause & H1 & H2 & H3 & H4).
      now exists GRPC, c, rules, r, cause.
    - intros [= <-]. apply buildTries_cause in Hh as (c & rules & r & cause & H1 & H2 & H3 & H4).
      now exists HTTP, c, rules, r, cause. }
  destruct Hwhich as (f & c & rules & r & cause & Hent & Hr & -> & Hmr).
  exists f, (prefix r), c, cause. repeat split; try assumption.
  apply configure_rules. exists r. split; [reflexivity|].
  apply rulesOf_entries. now exists rules.
Qed.

(** X14. [New] returns a mapper exactly when every prefix registered by the
    options is, once normalised, a well-formed pattern, the ones that
    [Insert] accepts. *)
Theorem New_succeeds_iff_prefixes_well_formed (R : Runtime) (opts : list Option) :
  (exists m, New opts = inl m) <->
  (forall f c raw, registers f opts c raw -> wellFormedPrefix (reason.Normalize raw)).
Proof.
  split.
  - intros [m Hm] f c raw Hreg.
    destruct (normalizeAndValidatePrefix raw) as [p|cause] eqn:Hv.
    + apply normalizeAndValidatePrefix_wellformed in Hv.
      destruct (Insert_cases 0 (segmenttrie.New 0) (reason.Normalize raw) 0)
        as [[Hw _] | [Hn _]]; [exact Hw|].
      exfalso. apply Hv. now apply malformed_wellFormed.
    + apply normalizeAndValidatePrefix_inr in Hv.
      destruct (New_fails opts f c raw Hreg Hv) as [e He]. congruence.
  - intros Hwf. apply New_succeeds. intros f c raw Hreg Hm.
    apply malformed_wellFormed in Hm. apply Hm. now apply (Hwf f c).
Qed.

Section Defaults.

Lemma defaultHTTP_range (c : code.Code) (v : Z) :
  defaultHTTP !! c = Some v -> 400 <= v <= 599.
Proof.
  unfold defaultHTTP. intros Hl. apply elem_of_list_to_map_2 in Hl.
  repeat (apply elem_of_cons in Hl as [[= -> ->] | Hl];
          [split; apply Z.leb_le; reflexivity|]).
  now apply elem_of_nil in Hl.
Qed.

Lemma defaultGRPC_range (c : code.Code) (v : Z) :
  defaultGRPC !! c = Some v -> 1 <= v <= 16.
Proof.
  unfold defaultGRPC. intros Hl. apply elem_of_list_to_map_2 in Hl.
  repeat (apply elem_of_cons in Hl as [[= -> ->] | Hl];
          [split; apply Z.leb_le; reflexivity|]).
  now apply elem_of_nil in Hl.
Qed.

(** The two tables of library defaults have the same codes. *)
Lemma defaults_same_codes : dom defaultHTTP = dom defaultGRPC.
Proof. vm_compute. reflexivity. Qed.

End Defaults.

(** X15. The mapper built without options resolves every code by the two
    tables of library defaults alone, whatever the reason: a code of the
    tables gets its HTTP status, between 400 and 599, and its gRPC code,
    between 1 and 16; any other code gets 500 and [codes.Internal].  The two
    tables list the same codes, and no error is resolved to a success
    status. *)
Theorem default_mapper_never_reports_success (R : Runtime) :
  exists m,
    New [] = inl m /\
    forall c r,
      HTTPStatus m c r = match defaultHTTP !! c with Some v => v | None => 500 end /\
      GRPCStatus m c r
      = match defaultGRPC !! c with Some v => v | None => codes.Internal end /\
      400 <= HTTPStatus m c r <= 599 /\
      1 <= GRPCStatus m c r <= 16 /\
      (defaultHTTP !! c = None <-> defaultGRPC !! c = None).
Proof.
  destruct (New_succeeds []) as [m Hm]; [intros f c raw [v []]|].
  exists m. split; [exact Hm|]. intros c r.
  destruct (New_fields [] m c Hm) as (Ho & Hgo & Hd & Hgd & Ht & Hgt).
  cbn [lastSet orElse rulesIn fmap option_fmap option_map] in *.
  destruct Ht as [[_ Ht] | [Hne _]]; [|congruence].
  destruct Hgt as [[_ Hgt] | [Hne _]]; [|congruence].
  assert (Hh : HTTPStatus m c r = match defaultHTTP !! c with Some v => v | None => 500 end)
    by (unfold HTTPStatus; now rewrite Ho, Ht, Hd).
  assert (Hg : GRPCStatus m c r
               = match defaultGRPC !! c with Some v => v | None => codes.Internal end).
  { unfold GRPCStatus. rewrite Hgo, Hgt, Hgd.
    destruct (defaultGRPC !! c) as [v|] eqn:Hv; [|reflexivity]. cbn [option_map].
    apply defaultGRPC_range in Hv. unfold codes.ofInt. apply Z.mod_small. lia. }
  split; [exact Hh|]. split; [exact Hg|]. rewrite Hh, Hg. split; [|split].
  - destruct (defaultHTTP !! c) as [v|] eqn:Hv; [now apply defaultHTTP_range in Hv | lia].
  - destruct (defaultGRPC !! c) as [v|] eqn:Hv; [now apply defaultGRPC_range in Hv|].
    unfold codes.Internal. lia.
  - rewrite <- !not_elem_of_dom. now rewrite defaults_same_codes.
Qed.

Section MapperExamples.
#[local] Existing Instance Ascii7.runtime.

Lemma HTTPStatus_follows_options_witness :
  exists m ks v,
    New [WithHTTPPrefix code.Unavailable "Storage/PG" 503;
         WithHTTPPrefix code.Unavailable "storage" 502] = inl m /\
    longestMatch
      (compiled (fun v => v)
         (rulesIn HTTP [WithHTTPPrefix code.Unavailable "Storage/PG" 503;
                        WithHTTPPrefix code.Unavailable "storage" 502] code.Unavailable))
      ["storage"; "pg"; "connect"] ks v /\
    HTTPStatus m code.Unavailable "storage.pg.connect" = v.
Proof.
  destruct (New [WithHTTPPrefix code.Unavailable "Storage/PG" 503;
                 WithHTTPPrefix code.Unavailable "storage" 502]) as [m|e] eqn:Hnew;
    [|vm_compute in Hnew; discriminate].
  pose proof (HTTPStatus_follows_options Ascii7.runtime _ m code.Unavailable
                "storage.pg.connect" Hnew) as Hx.
  assert (Hl : lastSet HTTP OverrideSlot
                 [WithHTTPPrefix code.Unavailable "Storage/PG" 503;
                  WithHTTPPrefix code.Unavailable "storage" 502] code.Unavailable = None)
    by (vm_compute; reflexivity).
  rewrite Hl in Hx. cbv zeta in Hx. destruct Hx as [Hhit _].
  change (segmentsOf "storage.pg.connect") with ["storage"; "pg"; "connect"] in Hhit.
  destruct Hhit as (ks & v & Hlong & Hv).
  - exists ["storage"; "pg"], 503. split; [vm_compute; reflexivity|].
    exists ["storage"; "pg"], ["connect"]. split; [reflexivity|].
    constructor; [now right | constructor; [now right | constructor]].
  - exists m, ks, v. split; [reflexivity|]. split; assumption.
Defined.

Lemma GRPCStatus_follows_options_witness :
  exists m,
    New [WithGRPCOverride code.Unavailable 14; WithGRPCOverride code.Unavailable 4] = inl m /\
    GRPCStatus m code.Unavailable "storage.pg" = codes.ofInt 4.
Proof.
  destruct (New [WithGRPCOverride code.Unavailable 14; WithGRPCOverride code.Unavailable 4])
    as [m|e] eqn:Hnew; [|vm_compute in Hnew; discriminate].
  pose proof (GRPCStatus_follows_options Ascii7.runtime _ m code.Unavailable
                "storage.pg" Hnew) as Hx.
  assert (Hl : lastSet GRPC OverrideSlot
                 [WithGRPCOverride code.Unavailable 14; WithGRPCOverride code.Unavailable 4]
                 code.Unavailable = Some 4)
    by (vm_compute; reflexivity).
  rewrite Hl in Hx. exists m. split; [reflexivity | exact Hx].
Defined.

Lemma transports_are_independent_witness :
  exists m m',
    New [WithHTTPPrefix code.Unavailable "storage.pg" 503] = inl m /\
    New [WithGRPCOverride code.Unavailable 14;
         WithHTTPPrefix code.Unavailable "storage.pg" 503] = inl m' /\
    forall c r, HTTPStatus m c r = HTTPStatus m' c r.
Proof.
  destruct (New [WithHTTPPrefix code.Unavailable "storage.pg" 503]) as [m|e] eqn:Hm;
    [|vm_compute in Hm; discriminate].
  destruct (New [WithGRPCOverride code.Unavailable 14;
                 WithHTTPPrefix code.Unavailable "storage.pg" 503]) as [m'|e] eqn:Hm';
    [|vm_compute in Hm'; discriminate].
  exists m, m'. split; [reflexivity|]. split; [reflexivity|].
  apply (proj1 (transports_are_independent Ascii7.runtime _ _ m m' Hm Hm')).
  reflexivity.
Defined.

Lemma New_error_names_the_cause_witness :
  exists f raw c cause,
    New [WithHTTPPrefix code.Unavailable "storage.PG!.x" 503]
    = inr (InvalidReasonPrefix f raw c cause) /\
    causeOf raw cause.
Proof.
  destruct (New [WithHTTPPrefix code.Unavailable "storage.PG!.x" 503]) as [m|e] eqn:Hnew;
    [vm_compute in Hnew; discriminate|].
  destruct (New_error_names_the_cause Ascii7.runtime _ e Hnew)
    as (f & raw & c & cause & -> & _ & Hc).
  exists f, raw, c, cause. split; [reflexivity | exact Hc].
Defined.

End MapperExamples.

